(** * QuizEngine: a shallow embedding of [assets/js/model.js], of the
    handlers of [assets/js/controller.js] and of the score helpers of
    [assets/js/view.js].

    The model follows the JavaScript source function by function.

    - Arrays are lists; [Set]s that are only tested for membership are
      [gset string]; a [Set] that is turned back into an array keeps the
      order of first insertion and is a list without repetitions.
    - [Math.random] is an oracle: a list of naturals that is consumed from
      the left.  [Math.floor(Math.random() * n)] takes the next natural
      modulo [n], so every index in [0, n) can be drawn and nothing else.
    - A [while] loop whose termination is not evident from the source
      (the synthetic-distractor loop of [generatePopulationOptions]) takes
      fuel and answers [None] when the fuel runs out.
    - Populations are integer valued finite numbers ([Z]) as delivered by
      the REST Countries dataset.
    - A property access [object[key]] on an object literal finds the own
      properties of the literal and, failing those, the members that every
      object inherits from [Object.prototype].
    - The engine dispatches its events on [document]; operations return the
      list of the events they dispatch.  Messages of the view are left
      out.
    - The controller is a state machine over the events of the view and the
      timers of [setTimeout]; of the document it keeps the texts of the two
      score spans, by element id. *)

From stdpp Require Import gmap strings list sorting pretty.
From Stdlib Require Import ZArith Lia Ascii.

(** ** Randomness *)

Definition Rng : Type := list nat.

(** Computations that draw random numbers and always return. *)
Definition Rand (A : Type) : Type := Rng → A * Rng.

Global Instance Rand_ret : MRet Rand := λ A a g, (a, g).
Global Instance Rand_bind : MBind Rand :=
  λ A B k m g, let '(a, g') := m g in k a g'.

(** Computations that draw random numbers and may run out of fuel. *)
Definition M (A : Type) : Type := Rng → option (A * Rng).

Global Instance M_ret : MRet M := λ A a g, Some (a, g).
Global Instance M_bind : MBind M :=
  λ A B k m g, match m g with
               | Some (a, g') => k a g'
               | None => None
               end.
Definition liftR {A} (m : Rand A) : M A := λ g, Some (m g).
(** A result that may be missing for lack of fuel. *)
Definition liftO {A} (o : option A) : M A :=
  λ g, match o with
       | Some a => Some (a, g)
       | None => None
       end.

(** [Math.floor(Math.random() * n)] *)
Definition randomIndex (n : nat) : Rand nat :=
  λ g, match g with
       | [] => (0, [])
       | r :: g' => (match n with 0 => 0 | _ => r mod n end, g')
       end.

(** ** Arrays *)

(** [[a[i], a[j]] = [a[j], a[i]]]: both cells are read, then [a[i]] and
    [a[j]] are written.  The source only swaps cells that exist. *)
Definition swap {A} (i j : nat) (a : list A) : list A :=
  match a !! i, a !! j with
  | Some x, Some y => <[j := x]> (<[i := y]> a)
  | _, _ => a
  end.

(** The loop [for (let i = shuffled.length - 1; i > 0; i--)] of
    [shuffleArray], entered with counter [i]. *)
Fixpoint shuffleLoop {A} (i : nat) (shuffled : list A) : Rand (list A) :=
  match i with
  | 0 => mret shuffled
  | S i' =>
      j ← randomIndex (i + 1);
      shuffleLoop i' (swap i j shuffled)
  end.

(** [shuffleArray(array)], on the value of the array. *)
Definition shuffleArray {A} (array : list A) : Rand (list A) :=
  shuffleLoop (length array - 1) array.

(** [Array.from(new Set(xs))]: the elements of [xs] in the order of their
    first occurrence. *)
Fixpoint setFromGo `{EqDecision A} (seen : list A) (xs : list A) : list A :=
  match xs with
  | [] => []
  | x :: xs' =>
      if bool_decide (x ∈ seen) then setFromGo seen xs'
      else x :: setFromGo (x :: seen) xs'
  end.
Definition arrayFromSet `{EqDecision A} (xs : list A) : list A :=
  setFromGo [] xs.

(** [xs.indexOf(x)], [-1] when absent. *)
Fixpoint indexOf `{EqDecision A} (x : A) (xs : list A) : Z :=
  match xs with
  | [] => -1
  | y :: xs' =>
      if bool_decide (y = x) then 0%Z
      else let r := indexOf x xs' in
           if (r <? 0)%Z then (-1)%Z else (r + 1)%Z
  end.

(** ** The heap view of [shuffleArray]

    Arrays are objects: [shuffleArray] receives a reference, allocates the
    copy [[...array]] and swaps inside the copy. *)
Module Heap.
Section heap.
Context {A : Type}.

(** References are naturals; the store maps the allocated ones to the
    contents of their arrays. *)
Abbreviation loc := nat.
Abbreviation store := (gmap nat (list A)).

Definition fresh_loc (σ : store) : loc := fresh (dom σ).

(** [[shuffled[i], shuffled[j]] = [shuffled[j], shuffled[i]]] on the
    object at [l]. *)
Definition swapAt (l : loc) (i j : nat) (σ : store) : store :=
  match σ !! l with
  | Some a => <[l := swap i j a]> σ
  | None => σ
  end.

Fixpoint shuffleLoopAt (l : loc) (i : nat) (σ : store) : Rand store :=
  match i with
  | 0 => mret σ
  | S i' =>
      j ← randomIndex (i + 1);
      shuffleLoopAt l i' (swapAt l i j σ)
  end.

(** [shuffleArray(array)] with [array] a reference: the result is the
    reference of the copy, or [None] when [array] dangles. *)
Definition shuffleArray (array : loc) (σ : store)
  : Rand (option loc * store) :=
  match σ !! array with
  | None => mret (None, σ)
  | Some a =>
      let shuffled := fresh_loc σ in
      σ' ← shuffleLoopAt shuffled (length a - 1) (<[shuffled := a]> σ);
      mret (Some shuffled, σ')
  end.
End heap.
End Heap.

(** ** Data *)

(** A country as built by [loadFromRestCountries]; the fields that no
    function of the engine reads (code, capital, area, region, timezones,
    flag, flagAlt) are left out. *)
Record Country := {
  name : string;
  population : Z;
  currencies : list string;
  languages : list string;
  popularity : Z
}.

(** An answer option [{ label, value }]; [value] is a number in population
    questions and a string otherwise. *)
Inductive OptionValue :=
  | NumValue (n : Z)
  | StrValue (s : string).

Global Instance OptionValue_eq_dec : EqDecision OptionValue.
Proof. solve_decision. Defined.

Record AnswerOption := {
  label : string;
  value : OptionValue
}.

Record Question := {
  qtype : string;
  country : string;
  question : string;
  options : list AnswerOption;
  correctIndex : nat;
  correctAnswerLabel : string;
  explanation : string
}.

Definition REST_COUNTRIES_SAMPLE_SIZE : nat := 10.

(** [Boolean(s)] for a string: only the empty string is falsy. *)
Definition Boolean (s : string) : bool := negb (bool_decide (s = "")).

(** ** Selection of countries *)

Definition hasDataForType (c : Country) (type : string) : bool :=
  if bool_decide (type = "population") then
    bool_decide (0 < population c)%Z
  else if bool_decide (type = "currency") then
    match currencies c with
    | [] => false
    | first :: _ => Boolean first
    end
  else if bool_decide (type = "languages") then
    match languages c with
    | [] => false
    | first :: _ => Boolean first
    end
  else false.

(** The [filter] callback of [uniqueByName], threading the [seen] set. *)
Fixpoint uniqueByNameGo (seen : gset string) (cs : list Country)
  : list Country :=
  match cs with
  | [] => []
  | c :: cs' =>
      if negb (Boolean (name c)) then uniqueByNameGo seen cs'
      else if bool_decide (name c ∈ seen) then uniqueByNameGo seen cs'
      else c :: uniqueByNameGo ({[name c]} ∪ seen) cs'
  end.
Definition uniqueByName (cs : list Country) : list Country :=
  uniqueByNameGo ∅ cs.

(** [country[key]] when it is an array, [[]] otherwise: of the fields of a
    country only [currencies] and [languages] are arrays. *)
Definition arrayField (key : string) (c : Country) : list string :=
  if bool_decide (key = "currencies") then currencies c
  else if bool_decide (key = "languages") then languages c
  else [].

(** The inner [items.forEach] of [collectUniqueValues]; the state is the
    pair of [seen] and [values]. *)
Fixpoint collectItems (items : list string) (st : gset string * list string)
  : gset string * list string :=
  match items with
  | [] => st
  | item :: items' =>
      if negb (Boolean item) || bool_decide (item ∈ st.1)
      then collectItems items' st
      else collectItems items' ({[item]} ∪ st.1, st.2 ++ [item])
  end.

Fixpoint collectCountries (pool : list Country) (key excludeCountryName : string)
    (st : gset string * list string) : gset string * list string :=
  match pool with
  | [] => st
  | c :: pool' =>
      if bool_decide (name c = excludeCountryName)
      then collectCountries pool' key excludeCountryName st
      else collectCountries pool' key excludeCountryName
             (collectItems (arrayField key c) st)
  end.

Definition collectUniqueValues (pool : list Country)
    (key excludeCountryName : string) : list string :=
  (collectCountries pool key excludeCountryName (∅, [])).2.

(** ** Distractors *)

(** The loop
    [while (candidates.length > 0 && distractors.length < 3)] shared, up to
    the test before [push], by the three option generators.  Every turn
    splices one candidate out, so [n] turns are enough for [n] candidates:
    the loop is entered with [n = length candidates]. *)
Fixpoint pickLoop {A} (keep : A → list A → bool) (n : nat)
    (candidates distractors : list A) : Rand (list A) :=
  match n with
  | 0 => mret distractors
  | S n' =>
      if bool_decide (0 < length candidates)
         && bool_decide (length distractors < 3)
      then
        index ← randomIndex (length candidates);
        match candidates !! index with
        | Some candidate =>
            pickLoop keep n' (delete index candidates)
              (if keep candidate distractors
               then distractors ++ [candidate] else distractors)
        | None => mret distractors
        end
      else mret distractors
  end.

(** [fallbackMultipliers = [0.55, 0.75, 1.2, 1.4, 1.8]], as fractions. *)
Definition fallbackMultipliers : list (Z * Z) :=
  [(55, 100); (75, 100); (12, 10); (14, 10); (18, 10)]%Z.

(** [Math.round(correctValue * multiplier)]: the nearest integer, halves
    going up.  The product is taken exactly; for populations below 2^40 the
    floating point product lies on the same side of every half. *)
Definition roundTimes (correctValue : Z) (multiplier : Z * Z) : Z :=
  ((2 * correctValue * multiplier.1 + multiplier.2) / (2 * multiplier.2))%Z.

(** The loop [while (distractors.length < 3)] over the multipliers. *)
Fixpoint fallbackLoop (fuel : nat) (correctValue : Z)
    (distractors : list Z) (multiplierIndex : nat) : option (list Z) :=
  if bool_decide (length distractors < 3) then
    match fuel with
    | 0 => None
    | S fuel' =>
        let multiplier :=
          default (1, 1)%Z
            (fallbackMultipliers !! (multiplierIndex mod length fallbackMultipliers)) in
        let candidate := Z.max 100000 (roundTimes correctValue multiplier) in
        fallbackLoop fuel' correctValue
          (if bool_decide (candidate ∈ correctValue :: distractors)
           then distractors else distractors ++ [candidate])
          (multiplierIndex + 1)
    end
  else Some distractors.

Definition generatePopulationOptions (fuel : nat) (correctValue : Z)
    (pool : list Country) (countryName : string) : M (list Z) :=
  let candidates :=
    population <$>
      filter (λ item, name item ≠ countryName
                      ∧ hasDataForType item "population" = true) pool in
  let uniqueCandidates := arrayFromSet candidates in
  distractors ← liftR (pickLoop (λ candidate _, bool_decide (candidate ≠ correctValue))
                         (length uniqueCandidates) uniqueCandidates []);
  distractors' ← liftO (fallbackLoop fuel correctValue distractors 0);
  mret (correctValue :: distractors').

(** The loop [for (const x of fallback)] of the currency and language
    generators. *)
Fixpoint fillFromFallback (fallback : list string) (correct : string)
    (distractors : list string) : list string :=
  match fallback with
  | [] => distractors
  | x :: fallback' =>
      if bool_decide (3 ≤ length distractors) then distractors
      else fillFromFallback fallback' correct
             (if bool_decide (x ≠ correct) && negb (bool_decide (x ∈ distractors))
              then distractors ++ [x] else distractors)
  end.

Definition fallbackCurrencies : list string :=
  ["Euro"; "United States dollar"; "Yen"; "Pound sterling"; "Rupee"].

Definition fallbackLanguages : list string :=
  ["English"; "Spanish"; "French"; "Arabic"; "Hindi"; "Portuguese";
   "Russian"; "Chinese"].

Definition generateCurrencyOptions (correctCurrency : string)
    (pool : list Country) (countryName : string) : Rand (list string) :=
  let candidates :=
    filter (λ currency, currency ≠ correctCurrency)
           (collectUniqueValues pool "currencies" countryName) in
  distractors ← pickLoop (λ candidate ds, negb (bool_decide (candidate ∈ ds)))
                  (length candidates) candidates [];
  mret (take 4 (correctCurrency
                  :: fillFromFallback fallbackCurrencies correctCurrency distractors)).

Definition generateLanguageOptions (correctLanguage : string)
    (pool : list Country) (countryName : string) : Rand (list string) :=
  let candidates :=
    filter (λ language, language ≠ correctLanguage)
           (collectUniqueValues pool "languages" countryName) in
  distractors ← pickLoop (λ candidate ds, negb (bool_decide (candidate ∈ ds)))
                  (length candidates) candidates [];
  mret (take 4 (correctLanguage
                  :: fillFromFallback fallbackLanguages correctLanguage distractors)).

(** ** Questions *)

(** [optionLabels.filter((label, index, array) =>
       Boolean(label) && array.indexOf(label) === index)] *)
Definition uniqueTruthy (array : list string) : list string :=
  snd <$> filter (λ p : nat * string,
                    Boolean p.2 = true ∧ indexOf p.2 array = Z.of_nat p.1)
                 (imap pair array).

(** [options.findIndex(option => option.value === v)], [None] for [-1]. *)
Definition findIndex (v : OptionValue) (opts : list AnswerOption) : option nat :=
  fst <$> list_find (λ o, value o = v) opts.

Section questions.
(** [Number.prototype.toLocaleString] depends on the locale of the
    browser. *)
Variable toLocaleString : Z → string.

(** [Number.isFinite] holds for every integer. *)
Definition formatPopulation (v : Z) : string :=
  toLocaleString v +:+ " people".

Definition buildPopulationQuestion (fuel : nat) (c : Country)
    (pool : list Country) : M (option Question) :=
  if negb (hasDataForType c "population") then mret None
  else
    let correctValue := population c in
    rawOptions ← generatePopulationOptions fuel correctValue pool (name c);
    let uniqueOptions := take 4 (arrayFromSet rawOptions) in
    if negb (bool_decide (correctValue ∈ uniqueOptions))
       || bool_decide (length uniqueOptions < 4)
    then mret None
    else
      let optionObjects :=
        (λ v, {| label := formatPopulation v; value := NumValue v |})
          <$> uniqueOptions in
      shuffledOptions ← liftR (shuffleArray optionObjects);
      match findIndex (NumValue correctValue) shuffledOptions with
      | None => mret None
      | Some correctIndex =>
          mret (Some {|
            qtype := "population";
            country := name c;
            question := "What is the population of " +:+ name c +:+ "?";
            options := shuffledOptions;
            correctIndex := correctIndex;
            correctAnswerLabel := formatPopulation correctValue;
            explanation :=
              name c +:+ " has a population of about "
                +:+ formatPopulation correctValue +:+ "."
          |})
      end.

Definition buildCurrencyQuestion (c : Country) (pool : list Country)
  : Rand (option Question) :=
  if negb (hasDataForType c "currency") then mret None
  else
    let correctCurrency := default "" (head (currencies c)) in
    optionLabels ← generateCurrencyOptions correctCurrency pool (name c);
    let uniqueOptions := uniqueTruthy optionLabels in
    if negb (bool_decide (correctCurrency ∈ uniqueOptions))
       || bool_decide (length uniqueOptions < 4)
    then mret None
    else
      let optionObjects :=
        (λ l, {| label := l; value := StrValue l |})
          <$> take 4 uniqueOptions in
      shuffledOptions ← shuffleArray optionObjects;
      match findIndex (StrValue correctCurrency) shuffledOptions with
      | None => mret None
      | Some correctIndex =>
          mret (Some {|
            qtype := "currency";
            country := name c;
            question := "Which currency is used in " +:+ name c +:+ "?";
            options := shuffledOptions;
            correctIndex := correctIndex;
            correctAnswerLabel := correctCurrency;
            explanation :=
              name c +:+ " uses the " +:+ correctCurrency +:+ "."
          |})
      end.

Definition buildLanguagesQuestion (c : Country) (pool : list Country)
  : Rand (option Question) :=
  if negb (hasDataForType c "languages") then mret None
  else
    let correctLanguage := default "" (head (languages c)) in
    optionLabels ← generateLanguageOptions correctLanguage pool (name c);
    let uniqueOptions := uniqueTruthy optionLabels in
    if negb (bool_decide (correctLanguage ∈ uniqueOptions))
       || bool_decide (length uniqueOptions < 4)
    then mret None
    else
      let optionObjects :=
        (λ l, {| label := l; value := StrValue l |})
          <$> take 4 uniqueOptions in
      shuffledOptions ← shuffleArray optionObjects;
      match findIndex (StrValue correctLanguage) shuffledOptions with
      | None => mret None
      | Some correctIndex =>
          mret (Some {|
            qtype := "languages";
            country := name c;
            question := "Which language is spoken in " +:+ name c +:+ "?";
            options := shuffledOptions;
            correctIndex := correctIndex;
            correctAnswerLabel := correctLanguage;
            explanation :=
              correctLanguage +:+ " is spoken in " +:+ name c +:+ "."
          |})
      end.

Definition buildQuestionForType (fuel : nat) (type : string) (c : Country)
    (pool : list Country) : M (option Question) :=
  if bool_decide (type = "population") then
    buildPopulationQuestion fuel c pool
  else if bool_decide (type = "currency") then
    liftR (buildCurrencyQuestion c pool)
  else if bool_decide (type = "languages") then
    liftR (buildLanguagesQuestion c pool)
  else mret None.
End questions.

(** ** The engine *)

Record QuizEngine := {
  countries : list Country;
  countryPool : list Country;
  score : nat;
  wrong : nat;
  streak : nat;
  questionNumber : nat;
  totalQuestions : nat;
  difficulty : string
}.

(** [new QuizEngine()] *)
Definition newQuizEngine : QuizEngine := {|
  countries := [];
  countryPool := [];
  score := 0;
  wrong := 0;
  streak := 0;
  questionNumber := 0;
  totalQuestions := 10;
  difficulty := "easy"
|}.

(** The [CustomEvent]s that the engine dispatches on [document]. *)
Inductive Event :=
  | PoolUpdated (pool : list Country)
  | DifficultyChanged (level : string).

Module Settings.
Record t := { countries : nat; popularOnly : bool }.
End Settings.

(** What [object[key]] finds: an own property, a member inherited from
    [Object.prototype], or nothing ([undefined]). *)
Inductive Property (A : Type) :=
  | Own (a : A)
  | Inherited
  | Absent.
Arguments Own {A} a.
Arguments Inherited {A}.
Arguments Absent {A}.

(** The names that every object literal inherits from [Object.prototype];
    each is bound to a function, [__proto__] to the prototype itself. *)
Definition objectPrototypeKeys : list string :=
  ["constructor"; "__defineGetter__"; "__defineSetter__"; "hasOwnProperty";
   "__lookupGetter__"; "__lookupSetter__"; "isPrototypeOf";
   "propertyIsEnumerable"; "toString"; "valueOf"; "__proto__";
   "toLocaleString"].

(** [this.difficultySettings[key]] *)
Definition difficultySettings (key : string) : Property Settings.t :=
  if bool_decide (key = "easy") then
    Own {| Settings.countries := 30; Settings.popularOnly := true |}
  else if bool_decide (key = "medium") then
    Own {| Settings.countries := 100; Settings.popularOnly := false |}
  else if bool_decide (key = "hard") then
    Own {| Settings.countries := 200; Settings.popularOnly := false |}
  else if bool_decide (key ∈ objectPrototypeKeys) then Inherited
  else Absent.

(** [!v] for the result of a property access: objects and functions are
    truthy, [undefined] is falsy. *)
Definition propertyFalsy {A} (p : Property A) : bool :=
  match p with
  | Absent => true
  | _ => false
  end.

(** The stable sort of [[...countries].sort((a, b) =>
    (b.popularity || 0) - (a.popularity || 0))]: [a] is placed before the
    first later element that is not strictly more popular. *)
Fixpoint insertByPopularity (a : Country) (sorted : list Country)
  : list Country :=
  match sorted with
  | [] => [a]
  | b :: sorted' =>
      if bool_decide (popularity a < popularity b)%Z
      then b :: insertByPopularity a sorted'
      else a :: b :: sorted'
  end.
Definition sortByPopularity (cs : list Country) : list Country :=
  foldr insertByPopularity [] cs.

(** [candidateList] of [populateCountryPool], for a non-empty
    [this.countries].  With [settings] an inherited member, both
    [settings.popularOnly] and [settings.countries] are [undefined]:
    the list is shuffled and [slice(0, Math.min(undefined, n))] is
    [slice(0, NaN)], the empty list. *)
Definition candidateList (e : QuizEngine) : Rand (list Country) :=
  let settings :=
    match difficultySettings (difficulty e) with
    | Absent => difficultySettings "easy"
    | p => p
    end in
  match settings with
  | Own s =>
      if Settings.popularOnly s then
        mret (take (Settings.countries s) (sortByPopularity (countries e)))
      else
        shuffled ← shuffleArray (countries e);
        mret (take (Settings.countries s `min` length (countries e)) shuffled)
  | _ =>
      shuffled ← shuffleArray (countries e);
      mret []
  end.

Definition setPool (e : QuizEngine) (pool : list Country) : QuizEngine := {|
  countries := countries e;
  countryPool := pool;
  score := score e;
  wrong := wrong e;
  streak := streak e;
  questionNumber := questionNumber e;
  totalQuestions := totalQuestions e;
  difficulty := difficulty e
|}.

Definition setLevel (e : QuizEngine) (level : string) : QuizEngine := {|
  countries := countries e;
  countryPool := countryPool e;
  score := score e;
  wrong := wrong e;
  streak := streak e;
  questionNumber := questionNumber e;
  totalQuestions := totalQuestions e;
  difficulty := level
|}.

(** [populateCountryPool()]: the engine afterwards and the events
    dispatched. *)
Definition populateCountryPool (e : QuizEngine)
  : Rand (QuizEngine * list Event) :=
  if bool_decide (length (countries e) = 0) then
    mret (setPool e [], [PoolUpdated []])
  else
    candidates ← candidateList e;
    shuffled ← shuffleArray candidates;
    let pool := take REST_COUNTRIES_SAMPLE_SIZE shuffled in
    mret (setPool e pool, [PoolUpdated pool]).

(** The values that a caller can pass for [level]. *)
Inductive JsValue :=
  | JsUndefined
  | JsNull
  | JsString (s : string).

(** [!level] *)
Definition falsy (v : JsValue) : bool :=
  match v with
  | JsString s => negb (Boolean s)
  | _ => true
  end.

(** The property key that [object[v]] looks up. *)
Definition toPropertyKey (v : JsValue) : string :=
  match v with
  | JsUndefined => "undefined"
  | JsNull => "null"
  | JsString s => s
  end.

(** [setDifficulty(level, reload)].  A [level] that passes the guard is a
    non-empty string, which is then stored in [this.difficulty]. *)
Definition setDifficulty (level : JsValue) (reload : bool) (e : QuizEngine)
  : Rand (QuizEngine * list Event) :=
  if falsy level || propertyFalsy (difficultySettings (toPropertyKey level))
  then mret (e, [])
  else
    let e1 := setLevel e (toPropertyKey level) in
    '(e2, evs) ← (if reload then populateCountryPool e1 else mret (e1, []));
    mret (e2, evs ++ [DifficultyChanged (difficulty e2)]).

Definition getDifficulty (e : QuizEngine) : string := difficulty e.

(** ** The difficulty helpers of the controller *)

Definition difficultyOrder : list string := ["easy"; "medium"; "hard"].

(** [order[i]] *)
Definition at_index (order : list string) (i : Z) : JsValue :=
  if bool_decide (i < 0)%Z then JsUndefined
  else match order !! Z.to_nat i with
       | Some s => JsString s
       | None => JsUndefined
       end.

Definition upgradeDifficulty (e : QuizEngine) : Rand (QuizEngine * list Event) :=
  let current := getDifficulty e in
  let order := difficultyOrder in
  let idx := indexOf current order in
  if bool_decide (idx = -1)%Z || bool_decide (idx >= Z.of_nat (length order) - 1)%Z
  then mret (e, [])
  else setDifficulty (at_index order (idx + 1)) false e.

Definition downgradeDifficulty (e : QuizEngine) : Rand (QuizEngine * list Event) :=
  let current := getDifficulty e in
  let order := difficultyOrder in
  let idx := indexOf current order in
  if bool_decide (idx <= 0)%Z then mret (e, [])
  else setDifficulty (at_index order (idx - 1)) false e.

(** ** Question sets *)

(** [desiredCount || REST_COUNTRIES_SAMPLE_SIZE] *)
Definition orSampleSize (desiredCount : nat) : nat :=
  match desiredCount with
  | 0 => REST_COUNTRIES_SAMPLE_SIZE
  | _ => desiredCount
  end.

Definition getCountriesForType (e : QuizEngine) (type : string)
    (desiredCount : nat) : Rand (list Country) :=
  basePool ←
    (if bool_decide (length (countryPool e) ≠ 0) then mret (countryPool e)
     else
       shuffled ← shuffleArray (countries e);
       mret (take (orSampleSize desiredCount `max` REST_COUNTRIES_SAMPLE_SIZE)
                  shuffled));
  let filteredBase := filter (λ c, hasDataForType c type = true) basePool in
  if bool_decide (0 < length filteredBase) then mret (uniqueByName filteredBase)
  else
    let extended := filter (λ c, hasDataForType c type = true) (countries e) in
    mret (uniqueByName (filteredBase ++ extended)).

Section question_sets.
Variable toLocaleString : Z → string.

(** The first [for] loop of [generateQuestionSet], over the rest of
    [shuffledAvailable]; the state is [questions] and [tried]. *)
Fixpoint availableLoop (fuel : nat) (type : string)
    (optionPool : list Country) (desiredCount : nat)
    (rest : list Country) (questions : list Question) (tried : gset string)
  : M (list Question * gset string) :=
  match rest with
  | [] => mret (questions, tried)
  | c :: rest' =>
      if bool_decide (length questions < desiredCount) then
        if bool_decide (name c ∈ tried) then
          availableLoop fuel type optionPool desiredCount rest' questions tried
        else
          let tried' := {[name c]} ∪ tried in
          q ← buildQuestionForType toLocaleString fuel type c optionPool;
          match q with
          | Some q' =>
              availableLoop fuel type optionPool desiredCount rest'
                (questions ++ [q']) tried'
          | None =>
              availableLoop fuel type optionPool desiredCount rest'
                questions tried'
          end
      else mret (questions, tried)
  end.

(** The second [for] loop, over the rest of [fallbackPool]. *)
Fixpoint fallbackPoolLoop (fuel : nat) (type : string)
    (optionPool : list Country) (desiredCount : nat)
    (rest : list Country) (questions : list Question) (tried : gset string)
  : M (list Question * gset string) :=
  match rest with
  | [] => mret (questions, tried)
  | c :: rest' =>
      if bool_decide (length questions < desiredCount) then
        if negb (hasDataForType c type) then
          fallbackPoolLoop fuel type optionPool desiredCount rest' questions tried
        else
          q ← buildQuestionForType toLocaleString fuel type c optionPool;
          match q with
          | Some q' =>
              fallbackPoolLoop fuel type optionPool desiredCount rest'
                (questions ++ [q']) ({[name c]} ∪ tried)
          | None =>
              fallbackPoolLoop fuel type optionPool desiredCount rest'
                questions tried
          end
      else mret (questions, tried)
  end.

(** [generateQuestionSet(type, desiredCount)] *)
Definition generateQuestionSet (fuel : nat) (e : QuizEngine) (type : string)
    (desiredCount : nat) : M (list Question) :=
  availableCountries ← liftR (getCountriesForType e type desiredCount);
  if bool_decide (length availableCountries = 0) then mret []
  else
    shuffledAvailable ← liftR (shuffleArray availableCountries);
    let optionPool := uniqueByName (availableCountries ++ countries e) in
    '(questions, tried) ←
      availableLoop fuel type optionPool desiredCount shuffledAvailable [] ∅;
    questions' ←
      (if bool_decide (length questions < desiredCount) then
         shuffled ← liftR (shuffleArray (countries e));
         let fallbackPool := filter (λ c, name c ∉ tried) shuffled in
         '(questions', _) ←
           fallbackPoolLoop fuel type optionPool desiredCount fallbackPool
             questions tried;
         mret questions'
       else mret questions);
    mret (take desiredCount questions').
End question_sets.

(** ** The score spans of the view

    The view keeps the two scores in the text of the elements with the ids
    ['score'] and ['incorrect'].  The document is modelled by the text
    contents of its elements, by id; texts are sequences of ASCII
    characters, and numbers are exact integers (scores stay far below
    2^53, where [String] and [parseInt] leave the integers). *)

(** [String(value)] for an integer is its decimal notation, [pretty]. *)
Definition numberToString (value : Z) : string := pretty value.

(** The ASCII members of the white space that [parseInt] skips. *)
Definition isWhiteSpace (c : ascii) : bool :=
  bool_decide (nat_of_ascii c ∈ [9; 10; 11; 12; 13; 32]).

Fixpoint trimStart (s : string) : string :=
  match s with
  | String c s' => if isWhiteSpace c then trimStart s' else s
  | EmptyString => EmptyString
  end.

Definition digitValue (c : ascii) : option Z :=
  let n := Z.of_nat (nat_of_ascii c) in
  if bool_decide (48 ≤ n ≤ 57)%Z then Some (n - 48)%Z else None.

(** The value of the longest prefix of decimal digits, read after [acc]. *)
Fixpoint digitsValue (acc : Z) (s : string) : Z :=
  match s with
  | String c s' =>
      match digitValue c with
      | Some d => digitsValue (10 * acc + d) s'
      | None => acc
      end
  | EmptyString => acc
  end.

(** The digits of [parseInt]: [None], that is [NaN], when there is none. *)
Definition parseDigits (s : string) : option Z :=
  match s with
  | String c _ =>
      match digitValue c with
      | Some _ => Some (digitsValue 0 s)
      | None => None
      end
  | EmptyString => None
  end.

(** [parseInt(text, 10)]: white space is skipped, a sign is read, then the
    digits; [None] stands for [NaN]. *)
Definition parseInt (text : string) : option Z :=
  match trimStart text with
  | String "-"%char s' => Z.opp <$> parseDigits s'
  | String "+"%char s' => parseDigits s'
  | s' => parseDigits s'
  end.

(** [setScoreValue(elementId, value)] on the texts of the document. *)
Definition setScoreValue (elementId : string) (value : Z)
    (dom : gmap string string) : gmap string string :=
  match dom !! elementId with
  | None => dom
  | Some _ => <[elementId := numberToString value]> dom
  end.

(** [getScoreValue(elementId)] *)
Definition getScoreValue (elementId : string) (dom : gmap string string) : Z :=
  match dom !! elementId with
  | None => 0
  | Some text => default 0%Z (parseInt text)
  end.

Definition incrementScore (dom : gmap string string) : gmap string string :=
  setScoreValue "score" (getScoreValue "score" dom + 1) dom.

Definition incrementWrongAnswer (dom : gmap string string)
  : gmap string string :=
  setScoreValue "incorrect" (getScoreValue "incorrect" dom + 1) dom.

(** ** The controller

    The state that the closure of [controller.js] keeps ([gameState], the
    two streaks, the engine) together with what its handlers leave behind
    outside of it: the score spans of the document and the callbacks given
    to [setTimeout] that have not run yet.  The other calls to the view
    write the texts and classes of the question, the feedback, the status
    message, the overlay and the buttons; they never come back into the
    state, and are left out. *)

Definition setCountries (e : QuizEngine) (fetched : list Country)
  : QuizEngine := {|
  countries := fetched;
  countryPool := countryPool e;
  score := score e;
  wrong := wrong e;
  streak := streak e;
  questionNumber := questionNumber e;
  totalQuestions := totalQuestions e;
  difficulty := difficulty e
|}.

Module Controller.

Record GameState := {
  currentGameType : option string;
  selectedCountryName : option string;
  questions : list Question;
  currentQuestionIndex : nat;
  hasAnswered : bool;
  totalQuestions : nat;
  isComplete : bool
}.

Record State := {
  gameState : GameState;
  correctStreak : nat;
  wrongStreak : nat;
  quizEngine : QuizEngine;
  document : gmap string string;
  timeouts : nat
}.

(** The state when [controller.js] has been loaded. *)
Definition loaded (e : QuizEngine) (dom : gmap string string) : State := {|
  gameState := {|
    currentGameType := None;
    selectedCountryName := None;
    questions := [];
    currentQuestionIndex := 0;
    hasAnswered := false;
    totalQuestions := 0;
    isComplete := false
  |};
  correctStreak := 0;
  wrongStreak := 0;
  quizEngine := e;
  document := dom;
  timeouts := 0
|}.

(** [e?.detail?.selectedIndex]: the view sends [Number(...)] of the index
    kept on the button, a number or [NaN]; [SelectedOther] stands for every
    value that is neither [NaN] nor strictly equal to an index (a missing
    detail, a fraction, a text). *)
Inductive SelectedIndex :=
  | Selected (i : Z)
  | SelectedNaN
  | SelectedOther.

(** What the handlers of the controller react to: the events of the view,
    a timer of [beginQuiz] that fires, and the end of the load that
    [quiz.init()] started, with the countries fetched. *)
Inductive Input :=
  | view_mode_selected (type : JsValue)
  | view_difficulty_changed (level : JsValue)
  | view_country_selected (name : JsValue)
  | view_start_quiz
  | view_answer_selected (selectedIndex : SelectedIndex)
  | view_next_question
  | timeout
  | countries_loaded (fetched : list Country).

(** [!!v] for [gameState.currentGameType] and [selectedCountryName], which
    hold [null] or a string. *)
Definition truthy (v : option string) : bool :=
  match v with
  | Some s => Boolean s
  | None => false
  end.

(** [String.prototype.toLowerCase] on the ASCII letters.  Its only use is
    the search for 'waiting' below, which no other character takes part
    in. *)
Definition lowerCase (c : ascii) : ascii :=
  let n := nat_of_ascii c in
  if bool_decide (65 ≤ n ≤ 90) then ascii_of_nat (n + 32) else c.
Fixpoint toLowerCase (s : string) : string :=
  match s with
  | EmptyString => EmptyString
  | String c s' => String (lowerCase c) (toLowerCase s')
  end.

(** [s.includes(part)] *)
Fixpoint includes (part s : string) : bool :=
  String.prefix part s
  || match s with
     | EmptyString => false
     | String _ s' => includes part s'
     end.

Definition setGameState (s : State) (gs : GameState) : State := {|
  gameState := gs;
  correctStreak := correctStreak s;
  wrongStreak := wrongStreak s;
  quizEngine := quizEngine s;
  document := document s;
  timeouts := timeouts s
|}.

Definition setQuizEngine (s : State) (e : QuizEngine) : State := {|
  gameState := gameState s;
  correctStreak := correctStreak s;
  wrongStreak := wrongStreak s;
  quizEngine := e;
  document := document s;
  timeouts := timeouts s
|}.

(** The handler of ['view:mode-selected']. *)
Definition modeSelected (type : JsValue) (s : State) : State :=
  match type with
  | JsString t =>
      if negb (Boolean t)
         || negb (bool_decide (t ∈ ["population"; "currency"; "languages"]))
      then s
      else setGameState s {|
        currentGameType := Some t;
        selectedCountryName := None;
        questions := [];
        currentQuestionIndex := 0;
        hasAnswered := false;
        totalQuestions := 0;
        isComplete := false
      |}
  | _ => s
  end.

(** The handler of ['view:difficulty-changed']. *)
Definition difficultyChanged (level : JsValue) (s : State) : Rand State :=
  if falsy level then mret s
  else
    '(e, _) ← setDifficulty level false (quizEngine s);
    mret (setQuizEngine s e).

(** The handler of ['view:country-selected']. *)
Definition countrySelected (name : JsValue) (s : State) : State :=
  let gs := gameState s in
  if negb (truthy (currentGameType gs)) then s
  else
    match name with
    | JsString n =>
        if negb (Boolean n) || includes "waiting" (toLowerCase n) then s
        else setGameState s {|
          currentGameType := currentGameType gs;
          selectedCountryName := Some n;
          questions := [];
          currentQuestionIndex := 0;
          hasAnswered := false;
          totalQuestions := 0;
          isComplete := false
        |}
    | _ => s
    end.

(** [beginQuiz()], up to the call of [setTimeout]. *)
Definition beginQuiz (s : State) : State :=
  let gs := gameState s in
  if negb (truthy (currentGameType gs)) then s
  else if negb (truthy (selectedCountryName gs)) then s
  else if bool_decide (length (countryPool (quizEngine s)) = 0) then s
  else {|
    gameState := gs;
    correctStreak := correctStreak s;
    wrongStreak := wrongStreak s;
    quizEngine := quizEngine s;
    document := document s;
    timeouts := timeouts s + 1
  |}.

(** [handlePlayAgain()] *)
Definition handlePlayAgain (s : State) : Rand State :=
  let gs := gameState s in
  '(e, _) ← populateCountryPool (quizEngine s);
  mret {|
    gameState := {|
      currentGameType := currentGameType gs;
      selectedCountryName := None;
      questions := [];
      currentQuestionIndex := 0;
      hasAnswered := false;
      totalQuestions := totalQuestions gs;
      isComplete := false
    |};
    correctStreak := correctStreak s;
    wrongStreak := wrongStreak s;
    quizEngine := e;
    document := document s;
    timeouts := timeouts s
  |}.

(** The handler of ['view:start-quiz']. *)
Definition startQuiz (s : State) : Rand State :=
  if isComplete (gameState s) then handlePlayAgain s
  else mret (beginQuiz s).

(** [Number.isNaN(selectedIndex)] *)
Definition isNaN (selectedIndex : SelectedIndex) : bool :=
  match selectedIndex with
  | SelectedNaN => true
  | _ => false
  end.

(** [selectedIndex !== correctIndex] *)
Definition differs (selectedIndex : SelectedIndex) (correctIndex : nat)
  : bool :=
  match selectedIndex with
  | Selected i => negb (bool_decide (i = Z.of_nat correctIndex))
  | _ => true
  end.

(** The handler of ['view:answer-selected']. *)
Definition answerSelected (selectedIndex : SelectedIndex) (s : State)
  : Rand State :=
  let gs := gameState s in
  if isComplete gs then mret s
  else
    match questions gs !! currentQuestionIndex gs with
    | None => mret s
    | Some q =>
        if isNaN selectedIndex || hasAnswered gs then mret s
        else
          let gs' := {|
            currentGameType := currentGameType gs;
            selectedCountryName := selectedCountryName gs;
            questions := questions gs;
            currentQuestionIndex := currentQuestionIndex gs;
            hasAnswered := true;
            totalQuestions := totalQuestions gs;
            isComplete := isComplete gs
          |} in
          if differs selectedIndex (correctIndex q) then
            let dom := incrementWrongAnswer (document s) in
            let wrongStreak' := wrongStreak s + 1 in
            if bool_decide (2 ≤ wrongStreak') then
              '(e, _) ← downgradeDifficulty (quizEngine s);
              mret {| gameState := gs'; correctStreak := 0; wrongStreak := 0;
                      quizEngine := e; document := dom;
                      timeouts := timeouts s |}
            else
              mret {| gameState := gs'; correctStreak := 0;
                      wrongStreak := wrongStreak';
                      quizEngine := quizEngine s; document := dom;
                      timeouts := timeouts s |}
          else
            let dom := incrementScore (document s) in
            let correctStreak' := correctStreak s + 1 in
            if bool_decide (3 ≤ correctStreak') then
              '(e, _) ← upgradeDifficulty (quizEngine s);
              mret {| gameState := gs'; correctStreak := 0; wrongStreak := 0;
                      quizEngine := e; document := dom;
                      timeouts := timeouts s |}
            else
              mret {| gameState := gs'; correctStreak := correctStreak';
                      wrongStreak := 0;
                      quizEngine := quizEngine s; document := dom;
                      timeouts := timeouts s |}
    end.

(** The handler of ['view:next-question']; on the last question it runs
    [finalizeQuiz()], which sets [isComplete]. *)
Definition nextQuestion (s : State) : State :=
  let gs := gameState s in
  if isComplete gs then beginQuiz s
  else if negb (hasAnswered gs) then s
  else
    let index := currentQuestionIndex gs + 1 in
    if bool_decide (totalQuestions gs ≤ index) then
      setGameState s {|
        currentGameType := currentGameType gs;
        selectedCountryName := selectedCountryName gs;
        questions := questions gs;
        currentQuestionIndex := index;
        hasAnswered := hasAnswered gs;
        totalQuestions := totalQuestions gs;
        isComplete := true
      |}
    else
      setGameState s {|
        currentGameType := currentGameType gs;
        selectedCountryName := selectedCountryName gs;
        questions := questions gs;
        currentQuestionIndex := index;
        hasAnswered := false;
        totalQuestions := totalQuestions gs;
        isComplete := isComplete gs
      |}.

(** The type that the callback of [beginQuiz] passes on; [null] matches no
    [case] of the engine, like the text that is not one of its types. *)
Definition typeArgument (currentGameType : option string) : string :=
  default "null" currentGameType.

Section handlers.
Variable toLocaleString : Z → string.
Variable fuel : nat.

(** The callback that [beginQuiz] gives to [setTimeout]. *)
Definition prepared (s : State) : M State :=
  let gs := gameState s in
  questions ←
    generateQuestionSet toLocaleString fuel (quizEngine s)
      (typeArgument (currentGameType gs)) 10;
  if bool_decide (length questions = 0) then mret s
  else mret {|
    gameState := {|
      currentGameType := currentGameType gs;
      selectedCountryName := selectedCountryName gs;
      questions := questions;
      currentQuestionIndex := 0;
      hasAnswered := false;
      totalQuestions := length questions;
      isComplete := false
    |};
    correctStreak := correctStreak s;
    wrongStreak := wrongStreak s;
    quizEngine := quizEngine s;
    document :=
      setScoreValue "incorrect" 0 (setScoreValue "score" 0 (document s));
    timeouts := timeouts s
  |}.

(** A timer fires: the oldest callback runs.  Without a pending callback
    nothing happens. *)
Definition timedOut (s : State) : M State :=
  match timeouts s with
  | 0 => mret s
  | S pending =>
      prepared {|
        gameState := gameState s;
        correctStreak := correctStreak s;
        wrongStreak := wrongStreak s;
        quizEngine := quizEngine s;
        document := document s;
        timeouts := pending
      |}
  end.

(** [init()] of the engine after the fetch: the countries are stored and
    the pool is drawn. *)
Definition countriesLoaded (fetched : list Country) (s : State) : Rand State :=
  let e := quizEngine s in
  '(e', _) ← populateCountryPool (setCountries e fetched);
  mret (setQuizEngine s e').

Definition handle (s : State) (input : Input) : M State :=
  match input with
  | view_mode_selected type => mret (modeSelected type s)
  | view_difficulty_changed level => liftR (difficultyChanged level s)
  | view_country_selected name => mret (countrySelected name s)
  | view_start_quiz => liftR (startQuiz s)
  | view_answer_selected selectedIndex => liftR (answerSelected selectedIndex s)
  | view_next_question => mret (nextQuestion s)
  | timeout => timedOut s
  | countries_loaded fetched => liftR (countriesLoaded fetched s)
  end.

(** The handlers run one after the other, one per input. *)
Fixpoint run (s : State) (inputs : list Input) : M State :=
  match inputs with
  | [] => mret s
  | input :: inputs' => s' ← handle s input; run s' inputs'
  end.
End handlers.

(** The score that an element shows. *)
Definition shown (elementId : string) (s : State) : Z :=
  getScoreValue elementId (document s).

(** *** What holds between two handlers *)

(** The streaks never reach the values at which the difficulty is adapted,
    and one of them is 0. *)
Definition streaksBounded (s : State) : Prop :=
  correctStreak s ≤ 2 ∧ wrongStreak s ≤ 1
  ∧ (correctStreak s = 0 ∨ wrongStreak s = 0).

(** Either no questions are held and nothing is answered or complete, or
    [totalQuestions] questions are held, ten at most, and the current one
    exists until the quiz is complete, when the index has run past the
    last question.  A timer is only pending once a type has been chosen. *)
Definition onAQuestion (s : State) : Prop :=
  let gs := gameState s in
  (0 < timeouts s → truthy (currentGameType gs) = true)
  ∧ match questions gs with
    | [] =>
        isComplete gs = false ∧ hasAnswered gs = false
        ∧ currentQuestionIndex gs = 0
    | _ :: _ =>
        totalQuestions gs = length (questions gs)
        ∧ totalQuestions gs ≤ 10
        ∧ if isComplete gs
          then currentQuestionIndex gs = totalQuestions gs
               ∧ hasAnswered gs = true
          else is_Some (questions gs !! currentQuestionIndex gs)
    end.

(** The number of questions of the quiz held that have been answered. *)
Definition answers (gs : GameState) : Z :=
  Z.of_nat (currentQuestionIndex gs)
  + (if hasAnswered gs && negb (isComplete gs) then 1 else 0).

Definition hasSpans (dom : gmap string string) : Prop :=
  is_Some (dom !! "score") ∧ is_Some (dom !! "incorrect").

(** While questions are held, the two spans add up to the number of
    answers given. *)
Definition accounted (s : State) : Prop :=
  questions (gameState s) ≠ [] →
  (0 ≤ shown "score" s)%Z ∧ (0 ≤ shown "incorrect" s)%Z
  ∧ (shown "score" s + shown "incorrect" s = answers (gameState s))%Z.

(** One question after the other is answered and left behind. *)
Definition play (selected : list SelectedIndex) : list Input :=
  selected ≫= λ selectedIndex,
    [view_answer_selected selectedIndex; view_next_question].

(** The answers among [selected] that are right, question by question. *)
Definition rightAnswers (qs : list Question) (selected : list SelectedIndex)
  : list (Question * SelectedIndex) :=
  filter (λ p, differs p.2 (correctIndex p.1) = false) (zip qs selected).

End Controller.

(** ** Sample data *)

Module Sample.
Definition mkCountry (n : string) (p : Z) (cur lang : list string)
  : Country :=
  {| name := n; population := p; currencies := cur; languages := lang;
     popularity := p |}.

(** Twelve loaded countries, by descending population.  Two have no
    currency and the last two carry the same name. *)
Definition loaded : list Country :=
  [ mkCountry "India" 1380004385 ["Indian rupee"] ["English"; "Hindi"];
    mkCountry "Brazil" 212559409 ["Brazilian real"] ["Portuguese"];
    mkCountry "Japan" 125836021 ["Japanese yen"] ["Japanese"];
    mkCountry "France" 67391582 ["Euro"] ["French"];
    mkCountry "Kenya" 53771300 ["Kenyan shilling"] ["English"; "Swahili"];
    mkCountry "Ghana" 31072945 ["Ghanaian cedi"] ["English"];
    mkCountry "Nepal" 29136808 ["Nepalese rupee"] ["Nepali"];
    mkCountry "Chile" 19116209 ["Chilean peso"] ["Spanish"];
    mkCountry "Antarctica" 1000 [] [];
    mkCountry "Bouvet Island" 900 [] ["Norwegian"];
    mkCountry "Saint Martin" 800 ["Euro"] ["French"];
    mkCountry "Saint Martin" 700 ["Netherlands Antillean guilder"]
      ["Dutch"] ].

(** The engine after [loadFromRestCountries]. *)
Definition afterLoad : QuizEngine := {|
  countries := loaded;
  countryPool := [];
  score := 0;
  wrong := 0;
  streak := 0;
  questionNumber := 0;
  totalQuestions := 10;
  difficulty := "easy"
|}.

(** Draws under which [shuffleArray] of twelve elements swaps every
    element with itself. *)
Definition identityDraws : Rng := [11; 10; 9; 8; 7; 6; 5; 4; 3; 2; 1].

(** The engine after [init]: the pool holds the first ten countries. *)
Definition afterInit : QuizEngine :=
  (populateCountryPool afterLoad identityDraws).1.1.

(** A locale that prints every number as the same text. *)
Definition anyLocale : Z → string := λ _, "n".
End Sample.

(** ** More sample data *)

Module Demo.
(** An engine whose loaded countries carry ten different names, all of them
    in the pool. *)
Definition tenCountries : QuizEngine := {|
  countries := take 10 Sample.loaded;
  countryPool := take 10 Sample.loaded;
  score := 0;
  wrong := 0;
  streak := 0;
  questionNumber := 0;
  totalQuestions := 10;
  difficulty := "easy"
|}.
End Demo.

(** ** A quiz to play *)

Module Play.
(** A document with the two score spans, as the page loads them. *)
Definition spans : gmap string string :=
  <["score" := "0"]> (<["incorrect" := "0"]> ∅).

(** A type and a country are chosen, the quiz is started and the timer
    fires. *)
Definition opening : list Controller.Input :=
  [Controller.view_mode_selected (JsString "currency");
   Controller.view_country_selected (JsString "India");
   Controller.view_start_quiz;
   Controller.timeout].

(** One selection for each of the eight questions. *)
Definition selected : list Controller.SelectedIndex :=
  [Controller.Selected 3; Controller.Selected 3; Controller.Selected 3;
   Controller.Selected 0; Controller.SelectedOther; Controller.Selected 3;
   Controller.Selected 1; Controller.Selected 3].

Definition inputs : list Controller.Input :=
  opening ++ Controller.play selected.

(** The state when the first question is shown. *)
Definition started : Controller.State :=
  let s := Controller.loaded Demo.tenCountries spans in
  match Controller.run Sample.anyLocale 8 s opening [] with
  | Some (s', _) => s'
  | None => s
  end.
End Play.

(** ** Predicates of the statements *)

(** Descending popularity, the order that the comparator of
    [populateCountryPool] asks for. *)
Definition morePopular (a b : Country) : Prop :=
  (popularity b ≤ popularity a)%Z.

(** The state of [collectUniqueValues]: [values] has no repetition and no
    empty string, and [seen] holds exactly the members of [values]. *)
Definition collected (st : gset string * list string) : Prop :=
  NoDup st.2 ∧ (∀ x, x ∈ st.1 ↔ x ∈ st.2) ∧ Forall (λ x, x ≠ "") st.2.

(** The shape of the options that the currency and language generators
    promise: four labels, all different, none empty, the correct one first,
    then the real distractors, as many of the candidates as fit in three
    places, and for the rest entries of the fallback list. *)
Definition fourLabels (correct : string) (candidates fallback : list string)
    (labels : list string) : Prop :=
  length labels = 4
  ∧ NoDup labels
  ∧ Forall (λ l, l ≠ "") labels
  ∧ head labels = Some correct
  ∧ ∃ real synthetic,
      labels = correct :: real ++ synthetic
      ∧ (∀ x, x ∈ real → x ∈ candidates)
      ∧ length real = 3 `min` length candidates
      ∧ (∀ x, x ∈ synthetic → x ∈ fallback).

Definition supportedTypes : list string :=
  ["population"; "currency"; "languages"].

(** The answer that a question of the given type has for a country. *)
Definition trueAnswer (type : string) (c : Country) : option OptionValue :=
  if bool_decide (type = "population") then Some (NumValue (population c))
  else if bool_decide (type = "currency") then StrValue <$> head (currencies c)
  else if bool_decide (type = "languages") then StrValue <$> head (languages c)
  else None.

(** A question of the given type about the country [c]: four options with
    pairwise different values, and [correctIndex] points at the only option
    whose value is the true answer for [c]. *)
Definition wellFormedQuestion (type : string) (c : Country) (q : Question)
  : Prop :=
  qtype q = type
  ∧ country q = name c
  ∧ hasDataForType c type = true
  ∧ length (options q) = 4
  ∧ NoDup (value <$> options q)
  ∧ ∃ answer,
      trueAnswer type c = Some answer
      ∧ (value <$> options q) !! correctIndex q = Some answer
      ∧ correctIndex q < 4
      ∧ ∀ i, (value <$> options q) !! i = Some answer → i = correctIndex q.

(** A question about one of the countries that the engine holds. *)
Definition questionOf (e : QuizEngine) (type : string) (q : Question) : Prop :=
  ∃ c, (c ∈ countryPool e ∨ c ∈ countries e) ∧ wellFormedQuestion type c q.

(** The questions that the controller holds are questions of the type
    chosen. *)
Definition heldQuestions (s : Controller.State) : Prop :=
  Forall (λ q, ∃ type c,
            Controller.currentGameType (Controller.gameState s) = Some type
            ∧ wellFormedQuestion type c q)
         (Controller.questions (Controller.gameState s)).

(** The synthetic candidate that the fallback loop of
    [generatePopulationOptions] tries at a given [multiplierIndex]. *)
Definition candidateAt (correctValue : Z) (multiplierIndex : nat) : Z :=
  Z.max 100000
    (roundTimes correctValue
       (default (1, 1)%Z
          (fallbackMultipliers !! (multiplierIndex mod length fallbackMultipliers)))).

(** * Properties *)

(** Closed decidable goals are settled by evaluation. *)
Ltac by_evaluation := apply (bool_decide_unpack _); vm_compute; exact I.

(** Linear arithmetic with division by constants. *)
Ltac div_lia := zify; Z.to_euclidean_division_equations; lia.

(** ** The two monads *)

Lemma Rand_bind_unfold {A B} (m : Rand A) (k : A → Rand B) g :
  (m ≫= k) g = k (m g).1 (m g).2.
Proof. unfold mbind, Rand_bind. by destruct (m g). Qed.

Lemma M_bind_unfold {A B} (m : M A) (k : A → M B) g :
  (m ≫= k) g = match m g with
               | Some (a, g') => k a g'
               | None => None
               end.
Proof. reflexivity. Qed.

Lemma M_bind_Some {A B} (m : M A) (k : A → M B) g b g' :
  (m ≫= k) g = Some (b, g') ↔
  ∃ a g1, m g = Some (a, g1) ∧ k a g1 = Some (b, g').
Proof.
  unfold mbind, M_bind. destruct (m g) as [[a g1]|]; split.
  - eauto.
  - by intros (? & ? & [= <- <-] & ?).
  - done.
  - by intros (? & ? & ? & ?).
Qed.

Lemma liftR_Some {A} (m : Rand A) g a g' :
  liftR m g = Some (a, g') ↔ m g = (a, g').
Proof. unfold liftR. split; [by intros [= ?] | by intros ->]. Qed.

Lemma M_ret_Some {A} (a b : A) g g' :
  (mret a : M A) g = Some (b, g') ↔ a = b ∧ g = g'.
Proof.
  unfold mret, M_ret. split; [by intros [= <- <-] | by intros [<- <-]].
Qed.

(** ** [shuffleArray] *)

Lemma swap_Permutation {A} (i j : nat) (a : list A) : swap i j a ≡ₚ a.
Proof.
  unfold swap.
  destruct (a !! i) as [x|] eqn:Hi; [|done].
  destruct (a !! j) as [y|] eqn:Hj; [|done].
  by apply Permutation_insert_swap.
Qed.

Lemma shuffleLoop_Permutation {A} (i : nat) (a : list A) g :
  (shuffleLoop i a g).1 ≡ₚ a.
Proof.
  revert a g. induction i as [|i IH]; intros a g; [done|].
  cbn [shuffleLoop]. rewrite Rand_bind_unfold, IH.
  apply swap_Permutation.
Qed.

Lemma shuffleArray_Permutation {A} (a : list A) g :
  (shuffleArray a g).1 ≡ₚ a.
Proof. apply shuffleLoop_Permutation. Qed.

Lemma shuffleArray_length {A} (a : list A) g :
  length (shuffleArray a g).1 = length a.
Proof. by rewrite shuffleArray_Permutation. Qed.

(** The loop on the heap rewrites the object at [l] as the loop on values
    rewrites its contents, and touches nothing else. *)
Lemma shuffleLoopAt_spec {A} (l : nat) (i : nat)
    (σ : gmap nat (list A)) (a : list A) g :
  σ !! l = Some a →
  Heap.shuffleLoopAt l i σ g =
    (<[l := (shuffleLoop i a g).1]> σ, (shuffleLoop i a g).2).
Proof.
  revert σ a g. induction i as [|i IH]; intros σ a g Hl.
  - cbn [Heap.shuffleLoopAt shuffleLoop]. unfold mret, Rand_ret.
    cbn [fst snd]. by rewrite insert_id.
  - cbn [Heap.shuffleLoopAt shuffleLoop]. rewrite !Rand_bind_unfold.
    set (j := (randomIndex (S i + 1) g).1).
    set (g1 := (randomIndex (S i + 1) g).2).
    unfold Heap.swapAt. rewrite Hl.
    rewrite (IH _ (swap (S i) j a)) by apply lookup_insert_eq.
    by rewrite insert_insert_eq.
Qed.

(** C8: [shuffleArray] returns a new array that is a permutation of its
    argument (same length, same elements with the same multiplicities) and
    leaves the argument, like every other object of the heap, as it
    was.  The contents of the new array are those computed by the value
    level [shuffleArray] that the rest of the development uses. *)
Theorem shuffleArray_permutes_a_copy {A} (array : nat)
    (σ : gmap nat (list A)) (a : list A) (g : Rng) :
  σ !! array = Some a →
  ∃ shuffled b σ' g',
    Heap.shuffleArray array σ g = (Some shuffled, σ', g')
    ∧ shuffleArray a g = (b, g')
    ∧ σ' !! shuffled = Some b
    ∧ b ≡ₚ a
    ∧ length b = length a
    ∧ shuffled ≠ array
    ∧ σ' !! array = Some a
    ∧ ∀ l, l ≠ shuffled → σ' !! l = σ !! l.
Proof.
  intros Ha.
  assert (Hfresh : Heap.fresh_loc σ ∉ dom σ) by apply is_fresh.
  assert (Hne : Heap.fresh_loc σ ≠ array).
  { intros Heq. rewrite Heq in Hfresh. apply Hfresh, elem_of_dom. eauto. }
  exists (Heap.fresh_loc σ), (shuffleArray a g).1,
    (<[Heap.fresh_loc σ := (shuffleArray a g).1]> σ), (shuffleArray a g).2.
  split_and!.
  - unfold Heap.shuffleArray. rewrite Ha, Rand_bind_unfold.
    rewrite (shuffleLoopAt_spec _ _ _ a) by apply lookup_insert_eq.
    by rewrite insert_insert_eq.
  - by destruct (shuffleArray a g).
  - apply lookup_insert_eq.
  - apply shuffleArray_Permutation.
  - apply shuffleArray_length.
  - done.
  - by rewrite lookup_insert_ne.
  - intros l Hl. by rewrite lookup_insert_ne.
Qed.

Lemma shuffleArray_permutes_a_copy_witness :
  ({[0 := [1; 2; 3]]} : gmap nat (list nat)) !! 0 = Some [1; 2; 3]
  ∧ ∃ shuffled b σ' g',
      Heap.shuffleArray 0 ({[0 := [1; 2; 3]]} : gmap nat (list nat)) [0; 1]
        = (Some shuffled, σ', g')
      ∧ shuffleArray [1; 2; 3] [0; 1] = (b, g')
      ∧ σ' !! shuffled = Some b
      ∧ b ≡ₚ [1; 2; 3]
      ∧ length b = length [1; 2; 3]
      ∧ shuffled ≠ 0
      ∧ σ' !! 0 = Some [1; 2; 3]
      ∧ ∀ l, l ≠ shuffled →
          σ' !! l = ({[0 := [1; 2; 3]]} : gmap nat (list nat)) !! l.
Proof.
  split; [reflexivity|].
  apply (shuffleArray_permutes_a_copy 0 {[0 := [1; 2; 3]]} [1; 2; 3] [0; 1]).
  reflexivity.
Defined.

(** ** [populateCountryPool] *)

Lemma insertByPopularity_Permutation a l :
  insertByPopularity a l ≡ₚ a :: l.
Proof.
  induction l as [|b l IH]; [done|]. cbn.
  case_bool_decide; [|done].
  rewrite IH. apply Permutation_swap.
Qed.

Lemma sortByPopularity_Permutation cs : sortByPopularity cs ≡ₚ cs.
Proof.
  induction cs as [|c cs IH]; [done|]. cbn.
  by rewrite insertByPopularity_Permutation, IH.
Qed.

Lemma insertByPopularity_sorted a l :
  StronglySorted morePopular l →
  StronglySorted morePopular (insertByPopularity a l).
Proof.
  induction 1 as [|b l Hs IH Hb]; cbn.
  - repeat constructor.
  - case_bool_decide as Hab.
    + constructor; [done|].
      rewrite insertByPopularity_Permutation.
      constructor; [unfold morePopular; lia | done].
    + constructor; [by constructor|].
      constructor; [unfold morePopular; lia|].
      eapply Forall_impl; [exact Hb|].
      unfold morePopular. intros c Hc. lia.
Qed.

Lemma sortByPopularity_sorted cs :
  StronglySorted morePopular (sortByPopularity cs).
Proof.
  induction cs as [|c cs IH]; cbn; [constructor|].
  by apply insertByPopularity_sorted.
Qed.

Lemma sorted_take_above_drop n (l : list Country) :
  StronglySorted morePopular l →
  ∀ c r, c ∈ take n l → r ∈ drop n l → morePopular c r.
Proof.
  intros Hs c r Hc Hr. rewrite <-(take_drop n l) in Hs.
  by eapply (StronglySorted_app_1_elem_of morePopular).
Qed.

Lemma candidateList_submseteq e g : (candidateList e g).1 ⊆+ countries e.
Proof.
  unfold candidateList.
  destruct (match difficultySettings (difficulty e) with
            | Absent => _ | p => p end) as [s| |].
  - destruct (Settings.popularOnly s).
    + cbn. etrans; [apply submseteq_take|].
      apply Permutation_submseteq, sortByPopularity_Permutation.
    + rewrite Rand_bind_unfold. cbn.
      etrans; [apply submseteq_take|].
      apply Permutation_submseteq, shuffleArray_Permutation.
  - rewrite Rand_bind_unfold. cbn. apply submseteq_nil_l.
  - rewrite Rand_bind_unfold. cbn. apply submseteq_nil_l.
Qed.

(** The pool that [populateCountryPool] stores: the first entries of the
    shuffled candidate list. *)
Lemma populateCountryPool_pool e g :
  countries e ≠ [] →
  countryPool (populateCountryPool e g).1.1 =
    take REST_COUNTRIES_SAMPLE_SIZE
      (shuffleArray (candidateList e g).1 (candidateList e g).2).1.
Proof.
  intros Hne. unfold populateCountryPool.
  rewrite bool_decide_false by (by destruct (countries e)).
  by rewrite !Rand_bind_unfold.
Qed.

(** C5: [populateCountryPool] stores in [countryPool] at most
    [REST_COUNTRIES_SAMPLE_SIZE] (10) entries drawn from [countries]
    without replacement: the pool is, up to order, a sublist of the loaded
    list, so every entry of the pool occurs in the loaded list and none is
    taken more often than it occurs there.  The loaded list itself is kept
    and the pool is announced by one pool-updated event.  This holds for
    every loaded list, the empty one included. *)
Theorem populateCountryPool_samples_without_replacement e g :
  let e' := (populateCountryPool e g).1.1 in
  countryPool e' ⊆+ countries e
  ∧ length (countryPool e') ≤ REST_COUNTRIES_SAMPLE_SIZE
  ∧ (∀ c, c ∈ countryPool e' → c ∈ countries e)
  ∧ countries e' = countries e
  ∧ difficulty e' = difficulty e
  ∧ (populateCountryPool e g).1.2 = [PoolUpdated (countryPool e')].
Proof.
  cbn zeta.
  assert (Hsub : countryPool (populateCountryPool e g).1.1 ⊆+ countries e).
  { unfold populateCountryPool. case_bool_decide.
    - cbn. apply submseteq_nil_l.
    - rewrite !Rand_bind_unfold. cbn.
      etrans; [apply submseteq_take|].
      etrans; [apply Permutation_submseteq, shuffleArray_Permutation|].
      apply candidateList_submseteq. }
  split_and!; [done| | | | |].
  - unfold populateCountryPool. case_bool_decide.
    + cbn. lia.
    + rewrite !Rand_bind_unfold. unfold mret, Rand_ret.
      cbn [fst snd countryPool setPool]. apply firstn_le_length.
  - intros c Hc. eapply elem_of_submseteq; eauto.
  - unfold populateCountryPool. case_bool_decide; [done|].
    by rewrite !Rand_bind_unfold.
  - unfold populateCountryPool. case_bool_decide; [done|].
    by rewrite !Rand_bind_unfold.
  - unfold populateCountryPool. case_bool_decide; [done|].
    by rewrite !Rand_bind_unfold.
Qed.

Lemma candidateList_easy e :
  difficulty e = "easy" →
  candidateList e = mret (take 30 (sortByPopularity (countries e))).
Proof. intros Hd. unfold candidateList. rewrite Hd. reflexivity. Qed.

Lemma candidateList_medium e :
  difficulty e = "medium" →
  candidateList e =
    (shuffled ← shuffleArray (countries e);
     mret (take (100 `min` length (countries e)) shuffled)).
Proof. intros Hd. unfold candidateList. rewrite Hd. reflexivity. Qed.

Lemma candidateList_hard e :
  difficulty e = "hard" →
  candidateList e =
    (shuffled ← shuffleArray (countries e);
     mret (take (200 `min` length (countries e)) shuffled)).
Proof. intros Hd. unfold candidateList. rewrite Hd. reflexivity. Qed.

Lemma shuffled_subset e g k :
  let shuffled := (shuffleArray (countries e) g).1 in
  shuffled ≡ₚ countries e
  ∧ length (take (k `min` length (countries e)) shuffled)
      = k `min` length (countries e).
Proof.
  cbn zeta. split; [apply shuffleArray_Permutation|].
  rewrite length_take, shuffleArray_length. lia.
Qed.

(** C6: [populateCountryPool] draws the pool from a candidate list that
    depends on the difficulty.  On 'easy' the candidates are the first 30
    entries of the loaded countries sorted by descending popularity (all of
    them when fewer than 30 are loaded): no country outside the candidates
    is more popular than one inside.  On 'medium' and 'hard' the candidates
    are the first [min(100, n)] and [min(200, n)] entries of a shuffle, that
    is of a random permutation, of the [n] loaded countries. *)
Theorem candidateList_by_difficulty e g :
  countries e ≠ [] →
  let n := length (countries e) in
  let candidates := (candidateList e g).1 in
  countryPool (populateCountryPool e g).1.1
    = take REST_COUNTRIES_SAMPLE_SIZE
        (shuffleArray candidates (candidateList e g).2).1
  ∧ (difficulty e = "easy" →
       candidates = take 30 (sortByPopularity (countries e))
       ∧ sortByPopularity (countries e) ≡ₚ countries e
       ∧ StronglySorted morePopular (sortByPopularity (countries e))
       ∧ length candidates = 30 `min` n
       ∧ ∀ c r, c ∈ candidates →
                r ∈ drop 30 (sortByPopularity (countries e)) →
                morePopular c r)
  ∧ (difficulty e = "medium" →
       ∃ shuffled, shuffled = (shuffleArray (countries e) g).1
         ∧ shuffled ≡ₚ countries e
         ∧ candidates = take (100 `min` n) shuffled
         ∧ length candidates = 100 `min` n)
  ∧ (difficulty e = "hard" →
       ∃ shuffled, shuffled = (shuffleArray (countries e) g).1
         ∧ shuffled ≡ₚ countries e
         ∧ candidates = take (200 `min` n) shuffled
         ∧ length candidates = 200 `min` n).
Proof.
  intros Hne. cbn zeta. split_and!.
  - by apply populateCountryPool_pool.
  - intros Hd. rewrite (candidateList_easy e Hd).
    unfold mret, Rand_ret. cbn [fst snd]. split_and!.
    + done.
    + apply sortByPopularity_Permutation.
    + apply sortByPopularity_sorted.
    + by rewrite length_take, sortByPopularity_Permutation.
    + intros c r. apply sorted_take_above_drop, sortByPopularity_sorted.
  - intros Hd. rewrite (candidateList_medium e Hd), Rand_bind_unfold.
    unfold mret, Rand_ret. cbn [fst snd].
    destruct (shuffled_subset e g 100) as [Hp Hl]. eauto.
  - intros Hd. rewrite (candidateList_hard e Hd), Rand_bind_unfold.
    unfold mret, Rand_ret. cbn [fst snd].
    destruct (shuffled_subset e g 200) as [Hp Hl]. eauto.
Qed.

(** ** Difficulty *)


Lemma setDifficulty_accepted s e g :
  s ∈ difficultyOrder →
  setDifficulty (JsString s) false e g
    = (setLevel e s, [DifficultyChanged s], g).
Proof.
  unfold difficultyOrder. rewrite !elem_of_cons, elem_of_nil.
  intros [-> | [-> | [-> | []]]]; reflexivity.
Qed.

(** C9, at [level = 'constructor']: the level is none of 'easy', 'medium'
    and 'hard', yet [difficultySettings['constructor']] is the constructor
    inherited from [Object.prototype], which is truthy, so the guard lets
    it pass.  Without reload the difficulty becomes ['constructor'] and a
    difficulty-changed event is dispatched; with reload the pool is
    rebuilt as well, from an empty candidate list, and a pool-updated event
    precedes the difficulty-changed one. *)
Theorem setDifficulty_constructor_is_not_ignored e g :
  setDifficulty (JsString "constructor") false e g
    = (setLevel e "constructor", [DifficultyChanged "constructor"], g)
  ∧ difficulty (setDifficulty (JsString "constructor") true e g).1.1
      = "constructor"
  ∧ countryPool (setDifficulty (JsString "constructor") true e g).1.1 = []
  ∧ (setDifficulty (JsString "constructor") true e g).1.2
      = [PoolUpdated []; DifficultyChanged "constructor"].
Proof.
  split; [reflexivity|].
  unfold setDifficulty.
  change (falsy (JsString "constructor")
          || propertyFalsy (difficultySettings
                              (toPropertyKey (JsString "constructor"))))
    with false.
  cbn iota. rewrite Rand_bind_unfold.
  change (toPropertyKey (JsString "constructor")) with "constructor".
  assert (Hp : (populateCountryPool (setLevel e "constructor") g).1
               = (setPool (setLevel e "constructor") [], [PoolUpdated []])).
  { unfold populateCountryPool. case_bool_decide; [done|].
    rewrite !Rand_bind_unfold.
    assert (Hc : (candidateList (setLevel e "constructor") g).1 = []).
    { unfold candidateList.
      change (difficulty (setLevel e "constructor")) with "constructor".
      change (difficultySettings "constructor") with (@Inherited Settings.t).
      cbn iota. by rewrite Rand_bind_unfold. }
    rewrite Hc. reflexivity. }
  destruct (populateCountryPool (setLevel e "constructor") g) as [[e2 evs] g2].
  cbn [fst] in Hp. injection Hp as -> ->. done.
Qed.

Lemma upgradeDifficulty_cases e g :
  upgradeDifficulty e g =
    if bool_decide (difficulty e = "easy")
    then (setLevel e "medium", [DifficultyChanged "medium"], g)
    else if bool_decide (difficulty e = "medium")
    then (setLevel e "hard", [DifficultyChanged "hard"], g)
    else (e, [], g).
Proof.
  unfold upgradeDifficulty, getDifficulty, difficultyOrder.
  cbn [indexOf length].
  repeat case_bool_decide; subst; try done; try lia.
Qed.

Lemma indexOf_difficultyOrder d :
  indexOf d difficultyOrder =
    if bool_decide (d = "easy") then 0%Z
    else if bool_decide (d = "medium") then 1%Z
    else if bool_decide (d = "hard") then 2%Z
    else (-1)%Z.
Proof.
  unfold difficultyOrder. cbn [indexOf].
  repeat case_bool_decide; try congruence; reflexivity.
Qed.

Lemma downgradeDifficulty_cases e g :
  downgradeDifficulty e g =
    if bool_decide (difficulty e = "hard")
    then (setLevel e "medium", [DifficultyChanged "medium"], g)
    else if bool_decide (difficulty e = "medium")
    then (setLevel e "easy", [DifficultyChanged "easy"], g)
    else (e, [], g).
Proof.
  unfold downgradeDifficulty, getDifficulty.
  rewrite indexOf_difficultyOrder.
  repeat case_bool_decide; try congruence; try lia; reflexivity.
Qed.

(** What holds of the two controller helpers: from a difficulty among the
    three levels they move to the neighbouring level, or stay at the top
    and at the bottom; from any other difficulty they do nothing. *)

(** X10: [upgradeDifficulty] keeps a difficulty among the three levels
    there, moves it up by one place of [difficultyOrder] or not at all, and
    never past 'hard'. *)
Lemma upgradeDifficulty_step e g :
  let d := difficulty e in
  let d' := difficulty (upgradeDifficulty e g).1.1 in
  (d ∈ difficultyOrder → d' ∈ difficultyOrder)
  ∧ (indexOf d' difficultyOrder = indexOf d difficultyOrder
     ∨ indexOf d' difficultyOrder = indexOf d difficultyOrder + 1)%Z
  ∧ (indexOf d' difficultyOrder ≤ 2)%Z.
Proof.
  cbn zeta. rewrite upgradeDifficulty_cases.
  repeat case_bool_decide; cbn [fst difficulty setLevel];
    rewrite ?indexOf_difficultyOrder;
    repeat case_bool_decide; try congruence;
    (split_and!; [| lia | lia]);
    unfold difficultyOrder; rewrite ?elem_of_cons, ?elem_of_nil; tauto.
Qed.

(** X12: [downgradeDifficulty] keeps a difficulty among the three levels
    there, moves it down by one place of [difficultyOrder] or not at all,
    and never below 'easy'. *)
Lemma downgradeDifficulty_step e g :
  let d := difficulty e in
  let d' := difficulty (downgradeDifficulty e g).1.1 in
  (d ∈ difficultyOrder → d' ∈ difficultyOrder)
  ∧ (indexOf d' difficultyOrder = indexOf d difficultyOrder
     ∨ indexOf d' difficultyOrder = indexOf d difficultyOrder - 1)%Z
  ∧ (d ∈ difficultyOrder → 0 ≤ indexOf d' difficultyOrder)%Z.
Proof.
  cbn zeta. rewrite downgradeDifficulty_cases.
  repeat case_bool_decide; cbn [fst difficulty setLevel];
    rewrite ?indexOf_difficultyOrder;
    repeat case_bool_decide; try congruence;
    (split_and!; [| lia |]);
    unfold difficultyOrder; rewrite ?elem_of_cons, ?elem_of_nil;
    first [tauto | intros; lia].
Qed.

Lemma populateCountryPool_difficulty e g :
  difficulty (populateCountryPool e g).1.1 = difficulty e.
Proof.
  unfold populateCountryPool. case_bool_decide; [done|].
  by rewrite !Rand_bind_unfold.
Qed.

Lemma difficultySettings_Own key s :
  difficultySettings key = Own s → key ∈ difficultyOrder.
Proof.
  unfold difficultySettings, difficultyOrder. rewrite !elem_of_cons.
  repeat case_bool_decide; try done; auto.
Qed.

(** X9: apart from the inherited names, [setDifficulty] keeps the
    difficulty among the three levels, with and without reload. *)
Lemma setDifficulty_keeps_level level reload e g :
  toPropertyKey level ∉ objectPrototypeKeys →
  difficulty e ∈ difficultyOrder →
  difficulty (setDifficulty level reload e g).1.1 ∈ difficultyOrder.
Proof.
  intros Hkey Hd. unfold setDifficulty.
  destruct (falsy level); [done|]. cbn [orb].
  destruct (difficultySettings (toPropertyKey level)) as [s| |] eqn:Hs;
    cbn [propertyFalsy]; [| |done].
  - apply difficultySettings_Own in Hs.
    rewrite Rand_bind_unfold. destruct reload.
    + pose proof (populateCountryPool_difficulty
                    (setLevel e (toPropertyKey level)) g) as Hp.
      destruct (populateCountryPool _ g) as [[e2 evs] g2].
      cbn [fst snd] in *. unfold mret, Rand_ret. cbn [fst]. by rewrite Hp.
    + done.
  - exfalso. apply Hkey. revert Hs. unfold difficultySettings.
    repeat case_bool_decide; done.
Qed.

(** C10, at [setDifficulty('constructor', false)] on a new engine: the
    difficulty starts as 'easy' and ends as 'constructor', which is none of
    the three levels; from there [upgradeDifficulty] and
    [downgradeDifficulty] change nothing, so the controller does not bring
    the engine back to a level either. *)
Theorem difficulty_can_leave_the_levels g :
  let e := (setDifficulty (JsString "constructor") false newQuizEngine g).1.1 in
  difficulty newQuizEngine = "easy"
  ∧ difficulty e = "constructor"
  ∧ (difficulty e ∉ difficultyOrder)
  ∧ upgradeDifficulty e g = (e, [], g)
  ∧ downgradeDifficulty e g = (e, [], g).
Proof.
  cbn zeta. split_and!; try reflexivity.
  change (difficulty (setDifficulty (JsString "constructor") false
                        newQuizEngine g).1.1) with "constructor".
  unfold difficultyOrder. rewrite !elem_of_cons, elem_of_nil.
  intros [? | [? | [? | []]]]; discriminate.
Qed.

(** ** [generatePopulationOptions] *)

(** Every synthetic candidate for a correct value of 50000 is clamped to
    100000. *)
Lemma fallback_candidate_50000 mi :
  Z.max 100000
    (roundTimes 50000
       (default (1, 1)%Z
          (fallbackMultipliers !! (mi mod length fallbackMultipliers))))
  = 100000%Z.
Proof.
  assert (Hlt : mi mod length fallbackMultipliers < 5).
  { apply Nat.mod_upper_bound. done. }
  destruct (mi mod length fallbackMultipliers) as [|[|[|[|[|k]]]]];
    [reflexivity.. | lia].
Qed.

(** Once 100000 is among the distractors the loop makes no progress. *)
Lemma fallbackLoop_50000_stuck fuel mi :
  fallbackLoop fuel 50000 [100000%Z] mi = None.
Proof.
  revert mi. induction fuel as [|fuel IH]; intros mi; [done|].
  cbn [fallbackLoop]. rewrite bool_decide_true by (cbn; lia).
  rewrite fallback_candidate_50000.
  rewrite bool_decide_true by by_evaluation. apply IH.
Qed.

(** C2, at [correctValue = 50000] and an empty pool: whatever the fuel,
    [generatePopulationOptions] does not return.  No real candidate
    exists, the first synthetic candidate is [max(100000, 27500) = 100000]
    and is accepted, and all later ones are 100000 again
    ([Math.round(50000 * m) <= 90000] for each of the five multipliers) and
    are rejected as duplicates, so [distractors.length] stays at 1 and the
    loop [while (distractors.length < 3)] never ends. *)
Theorem generatePopulationOptions_50000_never_returns fuel countryName g :
  generatePopulationOptions fuel 50000 [] countryName g = None.
Proof.
  unfold generatePopulationOptions.
  rewrite M_bind_unfold.
  cbn [filter list_filter fmap list_fmap arrayFromSet setFromGo length
       pickLoop liftR].
  unfold mret at 1, Rand_ret at 1. rewrite M_bind_unfold.
  destruct fuel as [|fuel]; [done|].
  unfold liftO. cbn [fallbackLoop].
  rewrite bool_decide_true by (cbn; lia).
  rewrite fallback_candidate_50000.
  rewrite bool_decide_false by by_evaluation.
  change ([] ++ [100000%Z]) with [100000%Z].
  by rewrite fallbackLoop_50000_stuck.
Qed.

(** ** Unsupported question types *)

Lemma hasDataForType_unsupported c type :
  type ∉ supportedTypes → hasDataForType c type = false.
Proof.
  unfold supportedTypes. rewrite !not_elem_of_cons. intros (? & ? & ? & _).
  unfold hasDataForType. by rewrite !bool_decide_false.
Qed.

Lemma filter_hasData_unsupported type (cs : list Country) :
  type ∉ supportedTypes →
  filter (λ c, hasDataForType c type = true) cs = [].
Proof.
  intros Ht. induction cs as [|c cs IH]; [done|].
  rewrite filter_cons_False; [done|].
  by rewrite hasDataForType_unsupported.
Qed.

Lemma getCountriesForType_unsupported e type desiredCount g :
  type ∉ supportedTypes →
  (getCountriesForType e type desiredCount g).1 = [].
Proof.
  intros Ht. unfold getCountriesForType.
  rewrite Rand_bind_unfold.
  rewrite !filter_hasData_unsupported by done.
  reflexivity.
Qed.

(** C7: for a type other than 'population', 'currency' and 'languages',
    [generateQuestionSet] returns, whatever the engine holds, the desired
    count and the fuel, and what it returns is the empty list. *)
Theorem generateQuestionSet_unsupported_type toLocaleString fuel e type
    desiredCount g :
  type ∉ supportedTypes →
  ∃ g', generateQuestionSet toLocaleString fuel e type desiredCount g
        = Some ([], g').
Proof.
  intros Ht. unfold generateQuestionSet.
  rewrite M_bind_unfold. unfold liftR at 1.
  pose proof (getCountriesForType_unsupported e type desiredCount g Ht) as Hc.
  destruct (getCountriesForType e type desiredCount g) as [cs g1].
  cbn [fst] in Hc. subst cs.
  rewrite bool_decide_true by done. by eexists.
Qed.

(** ** Currency and language options *)

Lemma randomIndex_lt n g : 0 < n → (randomIndex n g).1 < n.
Proof.
  intros Hn. unfold randomIndex. destruct g as [|r g]; cbn [fst]; [done|].
  destruct n as [|n]; [lia|]. apply Nat.mod_upper_bound. lia.
Qed.

Lemma Boolean_true s : Boolean s = true ↔ s ≠ "".
Proof.
  unfold Boolean. case_bool_decide; cbn; split; congruence.
Qed.

Lemma collectItems_collected items st :
  collected st → collected (collectItems items st).
Proof.
  revert st. induction items as [|item items IH]; intros st Hst; [done|].
  cbn [collectItems].
  destruct (negb (Boolean item) || bool_decide (item ∈ st.1)) eqn:Hskip;
    [by apply IH|].
  apply orb_false_iff in Hskip as [Hb Hs].
  apply negb_false_iff, Boolean_true in Hb.
  apply bool_decide_eq_false in Hs.
  destruct Hst as (Hnd & Hseen & Hne).
  apply IH. split_and!; cbn [fst snd].
  - apply NoDup_app. split_and!; [done| |apply NoDup_singleton].
    intros x Hx ->%list_elem_of_singleton. by apply Hs, Hseen.
  - intros x. rewrite elem_of_union, elem_of_singleton, elem_of_app,
      list_elem_of_singleton, Hseen. tauto.
  - apply Forall_app. split; [done|]. by apply Forall_singleton.
Qed.

Lemma collectCountries_collected pool key excludeCountryName st :
  collected st → collected (collectCountries pool key excludeCountryName st).
Proof.
  revert st. induction pool as [|c pool IH]; intros st Hst; [done|].
  cbn [collectCountries]. case_bool_decide; [by apply IH|].
  by apply IH, collectItems_collected.
Qed.

Lemma collectUniqueValues_spec pool key excludeCountryName :
  NoDup (collectUniqueValues pool key excludeCountryName)
  ∧ Forall (λ x, x ≠ "") (collectUniqueValues pool key excludeCountryName).
Proof.
  unfold collectUniqueValues.
  destruct (collectCountries_collected pool key excludeCountryName (∅, []))
    as (Hnd & _ & Hne); [|done].
  split_and!; cbn [fst snd]; [constructor | | constructor].
  intros x. rewrite elem_of_empty, elem_of_nil. tauto.
Qed.

(** The picking loop of the currency and language generators: from
    candidates without repetition that are not yet among the distractors it
    appends picked candidates until three distractors are there or the
    candidates are used up. *)
Lemma pickLoop_labels n (candidates distractors : list string) g :
  NoDup candidates → NoDup distractors →
  (∀ x, x ∈ candidates → x ∉ distractors) →
  length candidates ≤ n → length distractors ≤ 3 →
  ∃ picked,
    (pickLoop (λ candidate ds, negb (bool_decide (candidate ∈ ds)))
       n candidates distractors g).1 = distractors ++ picked
    ∧ NoDup (distractors ++ picked)
    ∧ (∀ x, x ∈ picked → x ∈ candidates)
    ∧ length (distractors ++ picked)
        = 3 `min` (length distractors + length candidates).
Proof.
  revert candidates distractors g.
  induction n as [|n IH]; intros cs ds g Hcs Hds Hdisj Hn Hlen.
  - exists []. rewrite app_nil_r. cbn [pickLoop].
    split_and!; [done | done | by intros x ?%elem_of_nil | lia].
  - cbn [pickLoop].
    destruct (bool_decide (0 < length cs) && bool_decide (length ds < 3))
      eqn:Hgo.
    + apply andb_true_iff in Hgo as [Hc%bool_decide_eq_true Hd%bool_decide_eq_true].
      rewrite Rand_bind_unfold.
      pose proof (randomIndex_lt (length cs) g Hc) as Hi.
      set (index := (randomIndex (length cs) g).1) in *.
      destruct (lookup_lt_is_Some_2 cs index Hi) as [c Hlook].
      rewrite Hlook.
      assert (Hin : c ∈ cs) by (by eapply list_elem_of_lookup_2).
      rewrite bool_decide_false by by apply Hdisj. cbn [negb].
      pose proof (delete_Permutation cs index c Hlook) as Hperm.
      assert (Hnd' : NoDup (c :: delete index cs)) by by rewrite <-Hperm.
      apply NoDup_cons in Hnd' as [Hnotin Hnd'].
      destruct (IH (delete index cs) (ds ++ [c])
                  (randomIndex (length cs) g).2) as (picked & Hr & Hnd & Hsub & Hl).
      * done.
      * apply NoDup_app. split_and!; [done| |apply NoDup_singleton].
        intros x Hx ->%list_elem_of_singleton. by apply (Hdisj c).
      * intros x Hx. rewrite elem_of_app, list_elem_of_singleton.
        intros [Hxd | ->]; [|done].
        apply (Hdisj x); [|done]. rewrite Hperm. by right.
      * rewrite length_delete by eauto. lia.
      * rewrite length_app. cbn [length]. lia.
      * exists (c :: picked). rewrite Hr, <-!app_assoc. cbn [app].
        rewrite <-app_assoc in Hnd, Hl. cbn [app] in Hnd, Hl.
        split_and!; [done | done | |].
        -- intros x [-> | Hx]%elem_of_cons; [done|].
           rewrite Hperm. right. by apply Hsub.
        -- rewrite Hl, length_app, length_delete by eauto. cbn [length]. lia.
    + exists []. rewrite app_nil_r.
      split_and!; [done | done | by intros x ?%elem_of_nil |].
      apply andb_false_iff in Hgo as [Hc%bool_decide_eq_false | Hd%bool_decide_eq_false];
        lia.
Qed.

Lemma filter_agree {A} (P Q : A → Prop) `{!∀ x, Decision (P x)}
    `{!∀ x, Decision (Q x)} (l : list A) :
  (∀ x, x ∈ l → P x ↔ Q x) → filter P l = filter Q l.
Proof.
  induction l as [|x l IH]; intros Hpq; [done|].
  rewrite !filter_cons.
  assert (Hx : P x ↔ Q x) by (apply Hpq; left).
  rewrite IH by (intros y Hy; apply Hpq; by right).
  destruct (decide (P x)), (decide (Q x)); tauto.
Qed.

(** How many entries of a fallback list remain usable. *)
Lemma usable_fallback (fallback : list string) correct (ds : list string) :
  NoDup fallback →
  length fallback
    ≤ length (filter (λ x, x ≠ correct ∧ x ∉ ds) fallback) + 1 + length ds.
Proof.
  intros Hnd.
  pose proof (filter_app_complement (λ x, x ≠ correct ∧ x ∉ ds) fallback) as Hp.
  apply Permutation_length in Hp. rewrite length_app in Hp.
  assert (Hsub : filter (λ x, ¬ (x ≠ correct ∧ x ∉ ds)) fallback
                   ⊆+ correct :: ds).
  { apply NoDup_submseteq; [by apply NoDup_filter|].
    intros x [Hx _]%list_elem_of_filter.
    destruct (decide (x = correct)) as [->|Hne]; [by left|].
    right. destruct (decide (x ∈ ds)); [done|]. exfalso. by apply Hx. }
  apply submseteq_length in Hsub. cbn [length] in Hsub. lia.
Qed.

Lemma fillFromFallback_spec fallback correct (ds : list string) :
  NoDup fallback → NoDup ds → correct ∉ ds → length ds ≤ 3 →
  ∃ added,
    fillFromFallback fallback correct ds = ds ++ added
    ∧ NoDup (ds ++ added)
    ∧ (correct ∉ ds ++ added)
    ∧ (∀ x, x ∈ added → x ∈ fallback)
    ∧ length (ds ++ added)
        = 3 `min` (length ds
                   + length (filter (λ x, x ≠ correct ∧ x ∉ ds) fallback)).
Proof.
  revert ds. induction fallback as [|x fb IH]; intros ds Hfb Hds Hc Hlen.
  - exists []. rewrite app_nil_r. cbn [fillFromFallback].
    split_and!; [done | done | done | by intros ? ?%elem_of_nil |].
    rewrite filter_nil. cbn [length]. lia.
  - cbn [fillFromFallback]. apply NoDup_cons in Hfb as [Hx Hfb].
    case_bool_decide as H3.
    { exists []. rewrite app_nil_r.
      split_and!; [done | done | done | by intros ? ?%elem_of_nil | lia]. }
    destruct (bool_decide (x ≠ correct) && negb (bool_decide (x ∈ ds)))
      eqn:Hpush.
    + apply andb_true_iff in Hpush as [Hne%bool_decide_eq_true Hnin].
      apply negb_true_iff, bool_decide_eq_false in Hnin.
      destruct (IH (ds ++ [x])) as (added & Hr & Hnd & Hcor & Hsub & Hl).
      * done.
      * apply NoDup_app. split_and!; [done| |apply NoDup_singleton].
        by intros y Hy ->%list_elem_of_singleton.
      * rewrite elem_of_app, list_elem_of_singleton. intros [?|?]; congruence.
      * rewrite length_app. cbn [length]. lia.
      * exists (x :: added). rewrite <-app_assoc in Hr, Hnd, Hcor, Hl.
        cbn [app] in Hr, Hnd, Hcor, Hl.
        split_and!; [done | done | done | |].
        -- intros y [-> | Hy]%elem_of_cons; [left | right; by apply Hsub].
        -- rewrite Hl, length_app. cbn [length].
           rewrite filter_cons_True by done. cbn [length].
           rewrite (filter_agree (λ y, y ≠ correct ∧ y ∉ ds ++ [x])
                      (λ y, y ≠ correct ∧ y ∉ ds) fb); [lia|].
           intros y Hy. rewrite elem_of_app, list_elem_of_singleton.
           assert (y ≠ x) by congruence. tauto.
    + destruct (IH ds) as (added & Hr & Hnd & Hcor & Hsub & Hl); try done.
      exists added. split_and!; [done | done | done | |].
      * intros y Hy. right. by apply Hsub.
      * rewrite Hl. rewrite (filter_cons_False _ x); [done|].
        apply andb_false_iff in Hpush
          as [Hne%bool_decide_eq_false | Hin%negb_false_iff%bool_decide_eq_true];
          tauto.
Qed.

Lemma Forall_filter_kept {A} (P Q : A → Prop) `{!∀ x, Decision (P x)}
    (l : list A) :
  Forall Q l → Forall Q (filter P l).
Proof.
  rewrite !Forall_forall. intros HQ x [_ Hx]%list_elem_of_filter. auto.
Qed.

Lemma labelOptions_spec fallback correct (candidates : list string) g :
  NoDup fallback → 4 ≤ length fallback → Forall (λ l, l ≠ "") fallback →
  NoDup candidates → Forall (λ l, l ≠ "") candidates →
  correct ∉ candidates → correct ≠ "" →
  fourLabels correct candidates fallback
    (take 4 (correct
               :: fillFromFallback fallback correct
                    (pickLoop (λ candidate ds, negb (bool_decide (candidate ∈ ds)))
                       (length candidates) candidates [] g).1)).
Proof.
  intros Hfb Hfb4 Hfbne Hcs Hcsne Hcor Hne.
  destruct (pickLoop_labels (length candidates) candidates [] g)
    as (real & Hr & Hnd & Hsub & Hl);
    [done | constructor | by intros ? _ ?%elem_of_nil | done | cbn; lia |].
  cbn [app length] in Hr, Hnd, Hl. rewrite Hr.
  assert (Hcr : correct ∉ real) by (intros ?%Hsub; done).
  assert (Hl3 : length real ≤ 3) by lia.
  destruct (fillFromFallback_spec fallback correct real)
    as (added & Hf & Hnd' & Hcor' & Hsub' & Hl'); [done..|].
  pose proof (usable_fallback fallback correct real Hfb) as Hcount.
  assert (Hlen : length (real ++ added) = 3) by lia.
  rewrite Hf. rewrite take_ge by (cbn [length]; lia).
  unfold fourLabels. split_and!.
  - cbn [length]. lia.
  - by apply NoDup_cons.
  - apply Forall_cons. split; [done|]. apply Forall_app. split.
    + apply Forall_forall. intros x Hx%Hsub.
      by eapply (proj1 (Forall_forall _ _) Hcsne).
    + apply Forall_forall. intros x Hx%Hsub'.
      by eapply (proj1 (Forall_forall _ _) Hfbne).
  - done.
  - exists real, added. split_and!; [done | done | lia | done].
Qed.

(** The labels that the builders pass as correct are not empty. *)
Lemma correct_label_nonempty c :
  (hasDataForType c "currency" = true →
     default "" (head (currencies c)) ≠ "")
  ∧ (hasDataForType c "languages" = true →
       default "" (head (languages c)) ≠ "").
Proof.
  split.
  - change (hasDataForType c "currency")
      with (match currencies c with [] => false | x :: _ => Boolean x end).
    destruct (currencies c); [done|]. by intros ?%Boolean_true.
  - change (hasDataForType c "languages")
      with (match languages c with [] => false | x :: _ => Boolean x end).
    destruct (languages c); [done|]. by intros ?%Boolean_true.
Qed.

(** C4: for a correct currency (a correct language), that is a non-empty
    string as [hasDataForType] demands of [currencies[0]]
    ([languages[0]]), and for every pool, the empty one included,
    [generateCurrencyOptions] ([generateLanguageOptions]) returns exactly
    four labels that are pairwise distinct and non-empty; the first is the
    correct one, then come the real distractors, [min(3, k)] of the [k]
    values collected from the pool, and the remaining places are filled
    from the hard-coded fallback list. *)
Theorem label_options_are_four_distinct correct pool countryName g :
  correct ≠ "" →
  fourLabels correct
    (filter (λ currency, currency ≠ correct)
            (collectUniqueValues pool "currencies" countryName))
    fallbackCurrencies
    (generateCurrencyOptions correct pool countryName g).1
  ∧ fourLabels correct
      (filter (λ language, language ≠ correct)
              (collectUniqueValues pool "languages" countryName))
      fallbackLanguages
      (generateLanguageOptions correct pool countryName g).1.
Proof.
  intros Hne. split.
  - unfold generateCurrencyOptions. rewrite Rand_bind_unfold.
    destruct (collectUniqueValues_spec pool "currencies" countryName)
      as [Hnd Hnonempty].
    apply labelOptions_spec; try done.
    + by_evaluation.
    + cbn. lia.
    + by_evaluation.
    + by apply NoDup_filter.
    + by apply Forall_filter_kept.
    + intros [Hc _]%list_elem_of_filter. done.
  - unfold generateLanguageOptions. rewrite Rand_bind_unfold.
    destruct (collectUniqueValues_spec pool "languages" countryName)
      as [Hnd Hnonempty].
    apply labelOptions_spec; try done.
    + by_evaluation.
    + cbn. lia.
    + by_evaluation.
    + by apply NoDup_filter.
    + by apply Forall_filter_kept.
    + intros [Hc _]%list_elem_of_filter. done.
Qed.

(** ** Questions *)

Lemma setFromGo_spec `{EqDecision A} (seen xs : list A) :
  NoDup (setFromGo seen xs)
  ∧ ∀ x, x ∈ setFromGo seen xs ↔ x ∈ xs ∧ x ∉ seen.
Proof.
  revert seen. induction xs as [|y xs IH]; intros seen.
  - cbn. split; [constructor|]. intros x. rewrite elem_of_nil. tauto.
  - cbn [setFromGo]. case_bool_decide as Hy.
    + destruct (IH seen) as [Hnd Hin]. split; [done|].
      intros x. rewrite Hin, elem_of_cons.
      split; [tauto|]. intros [[-> | Hx] Hs]; tauto.
    + destruct (IH (y :: seen)) as [Hnd Hin]. split.
      * apply NoDup_cons. split; [|done].
        rewrite Hin, elem_of_cons. tauto.
      * intros x. rewrite !elem_of_cons, Hin, elem_of_cons.
        destruct (decide (x = y)) as [->|Hne]; tauto.
Qed.

Lemma arrayFromSet_NoDup `{EqDecision A} (xs : list A) :
  NoDup (arrayFromSet xs).
Proof. apply setFromGo_spec. Qed.

Lemma arrayFromSet_elem_of `{EqDecision A} (xs : list A) x :
  x ∈ arrayFromSet xs ↔ x ∈ xs.
Proof.
  unfold arrayFromSet. rewrite (proj2 (setFromGo_spec [] xs)), elem_of_nil.
  tauto.
Qed.

Lemma uniqueTruthy_NoDup array : NoDup (uniqueTruthy array).
Proof.
  unfold uniqueTruthy. apply NoDup_fmap_2_strong.
  - intros [i x] [j y] [[_ Hi] _]%list_elem_of_filter
      [[_ Hj] _]%list_elem_of_filter Heq.
    cbn in *. subst y. f_equal. lia.
  - apply NoDup_filter, NoDup_alt. intros i j [k x] Hi Hj.
    apply list_lookup_imap_Some in Hi as (y & _ & [= -> ->]).
    apply list_lookup_imap_Some in Hj as (z & _ & [= -> ->]). done.
Qed.

Lemma findIndex_Some v opts i :
  findIndex v opts = Some i → (value <$> opts) !! i = Some v.
Proof.
  unfold findIndex. destruct (list_find _ opts) as [[j o]|] eqn:Hf; [|done].
  intros [= <-]. apply list_find_Some in Hf as (Hl & Hv & _).
  by rewrite list_lookup_fmap, Hl, <-Hv.
Qed.

(** The last steps that the three question builders share: the option
    objects are shuffled and the correct one is looked up. *)
Lemma shuffled_options objs v g i :
  NoDup (value <$> objs) → length objs = 4 →
  findIndex v (shuffleArray objs g).1 = Some i →
  length (shuffleArray objs g).1 = 4
  ∧ NoDup (value <$> (shuffleArray objs g).1)
  ∧ (value <$> (shuffleArray objs g).1) !! i = Some v
  ∧ i < 4
  ∧ ∀ j, (value <$> (shuffleArray objs g).1) !! j = Some v → j = i.
Proof.
  intros Hnd Hlen Hf.
  pose proof (shuffleArray_Permutation objs g) as Hp.
  assert (Hnd' : NoDup (value <$> (shuffleArray objs g).1)) by by rewrite Hp.
  apply findIndex_Some in Hf.
  split_and!.
  - by rewrite Hp.
  - done.
  - done.
  - apply lookup_lt_Some in Hf. rewrite length_fmap, Hp in Hf. lia.
  - intros j Hj. by eapply NoDup_lookup.
Qed.

Global Instance NumValue_inj : Inj (=) (=) NumValue.
Proof. by intros ?? [= ?]. Qed.
Global Instance StrValue_inj : Inj (=) (=) StrValue.
Proof. by intros ?? [= ?]. Qed.

Lemma take4_full {A} (l : list A) :
  ¬ length (take 4 l) < 4 → length (take 4 l) = 4.
Proof. rewrite length_take. lia. Qed.

Lemma hasDataForType_population c :
  hasDataForType c "population" = bool_decide (0 < population c)%Z.
Proof. reflexivity. Qed.

Lemma hasDataForType_currency c :
  hasDataForType c "currency" = match currencies c with
                                | [] => false
                                | first :: _ => Boolean first
                                end.
Proof. reflexivity. Qed.

Lemma hasDataForType_languages c :
  hasDataForType c "languages" = match languages c with
                                 | [] => false
                                 | first :: _ => Boolean first
                                 end.
Proof. reflexivity. Qed.

Lemma trueAnswer_currency c :
  trueAnswer "currency" c = StrValue <$> head (currencies c).
Proof. reflexivity. Qed.

Lemma trueAnswer_languages c :
  trueAnswer "languages" c = StrValue <$> head (languages c).
Proof. reflexivity. Qed.

Lemma buildPopulationQuestion_spec toLocaleString fuel c pool g q g' :
  buildPopulationQuestion toLocaleString fuel c pool g = Some (Some q, g') →
  wellFormedQuestion "population" c q.
Proof.
  unfold buildPopulationQuestion.
  destruct (hasDataForType c "population") eqn:Hdata; cbn [negb];
    [|intros [[=] _]%M_ret_Some].
  intros (raw & g1 & _ & Hrest)%M_bind_Some. revert Hrest.
  set (uniqueOptions := take 4 (arrayFromSet raw)).
  destruct (negb (bool_decide (population c ∈ uniqueOptions))
            || bool_decide (length uniqueOptions < 4)) eqn:Hcheck;
    [intros [[=] _]%M_ret_Some|].
  apply orb_false_iff in Hcheck as [_ Hlen%bool_decide_eq_false].
  apply take4_full in Hlen.
  intros (shuffled & g2 & Hsh%liftR_Some & Hrest)%M_bind_Some. revert Hrest.
  destruct (findIndex _ shuffled) as [i|] eqn:Hfind;
    [|intros [[=] _]%M_ret_Some].
  intros [[= <-] _]%M_ret_Some.
  assert (Hs : shuffled = (shuffleArray
    ((λ v, {| label := formatPopulation toLocaleString v;
              value := NumValue v |}) <$> uniqueOptions) g1).1)
    by by rewrite Hsh.
  rewrite Hs in Hfind.
  apply shuffled_options in Hfind as (H4 & Hnd & Hi & Hlt & Huniq).
  - unfold wellFormedQuestion. cbn [qtype country options correctIndex].
    rewrite Hs. split_and!; [done..|].
    exists (NumValue (population c)). split_and!; done.
  - rewrite <-list_fmap_compose. apply (NoDup_fmap_2 NumValue).
    eapply sublist_NoDup; [apply arrayFromSet_NoDup | apply sublist_take].
  - by rewrite length_fmap.
Qed.

(** The currency and the language builder differ in the field they read
    and in the texts; what follows the choice of the correct label is the
    same. *)
Lemma label_question_spec (labels : list string) correct g i :
  (negb (bool_decide (correct ∈ uniqueTruthy labels))
   || bool_decide (length (uniqueTruthy labels) < 4)) = false →
  let objs := (λ l, {| label := l; value := StrValue l |})
                <$> take 4 (uniqueTruthy labels) in
  findIndex (StrValue correct) (shuffleArray objs g).1 = Some i →
  length (shuffleArray objs g).1 = 4
  ∧ NoDup (value <$> (shuffleArray objs g).1)
  ∧ (value <$> (shuffleArray objs g).1) !! i = Some (StrValue correct)
  ∧ i < 4
  ∧ ∀ j, (value <$> (shuffleArray objs g).1) !! j = Some (StrValue correct)
         → j = i.
Proof.
  intros [_ Hlen%bool_decide_eq_false]%orb_false_iff objs Hfind.
  apply shuffled_options; [| |done]; unfold objs.
  - rewrite <-list_fmap_compose. apply (NoDup_fmap_2 StrValue).
    eapply sublist_NoDup; [apply uniqueTruthy_NoDup | apply sublist_take].
  - rewrite length_fmap, length_take. lia.
Qed.

Lemma buildCurrencyQuestion_spec c pool g q :
  (buildCurrencyQuestion c pool g).1 = Some q →
  wellFormedQuestion "currency" c q.
Proof.
  unfold buildCurrencyQuestion.
  destruct (hasDataForType c "currency") eqn:Hdata; cbn [negb]; [|done].
  rewrite Rand_bind_unfold.
  set (correct := default "" (head (currencies c))).
  set (labels := (generateCurrencyOptions correct pool (name c) g).1).
  set (g1 := (generateCurrencyOptions correct pool (name c) g).2).
  destruct (negb (bool_decide (correct ∈ uniqueTruthy labels))
            || bool_decide (length (uniqueTruthy labels) < 4)) eqn:Hcheck;
    [done|].
  rewrite Rand_bind_unfold.
  destruct (findIndex _ _) as [i|] eqn:Hfind; [|done].
  unfold mret, Rand_ret. cbn [fst]. intros [= <-].
  apply (label_question_spec labels correct g1 i Hcheck)
    in Hfind as (H4 & Hnd & Hi & Hlt & Huniq).
  unfold wellFormedQuestion. cbn [qtype country options correctIndex].
  split_and!; try done.
  exists (StrValue correct). split_and!; try done.
  unfold correct. rewrite trueAnswer_currency.
  rewrite hasDataForType_currency in Hdata. by destruct (currencies c).
Qed.

Lemma buildLanguagesQuestion_spec c pool g q :
  (buildLanguagesQuestion c pool g).1 = Some q →
  wellFormedQuestion "languages" c q.
Proof.
  unfold buildLanguagesQuestion.
  destruct (hasDataForType c "languages") eqn:Hdata; cbn [negb]; [|done].
  rewrite Rand_bind_unfold.
  set (correct := default "" (head (languages c))).
  set (labels := (generateLanguageOptions correct pool (name c) g).1).
  set (g1 := (generateLanguageOptions correct pool (name c) g).2).
  destruct (negb (bool_decide (correct ∈ uniqueTruthy labels))
            || bool_decide (length (uniqueTruthy labels) < 4)) eqn:Hcheck;
    [done|].
  rewrite Rand_bind_unfold.
  destruct (findIndex _ _) as [i|] eqn:Hfind; [|done].
  unfold mret, Rand_ret. cbn [fst]. intros [= <-].
  apply (label_question_spec labels correct g1 i Hcheck)
    in Hfind as (H4 & Hnd & Hi & Hlt & Huniq).
  unfold wellFormedQuestion. cbn [qtype country options correctIndex].
  split_and!; try done.
  exists (StrValue correct). split_and!; try done.
  unfold correct. rewrite trueAnswer_languages.
  rewrite hasDataForType_languages in Hdata. by destruct (languages c).
Qed.

Lemma buildQuestionForType_spec toLocaleString fuel type c pool g q g' :
  buildQuestionForType toLocaleString fuel type c pool g = Some (Some q, g') →
  wellFormedQuestion type c q.
Proof.
  unfold buildQuestionForType.
  case_bool_decide as Hp; [subst; apply buildPopulationQuestion_spec|].
  case_bool_decide as Hc.
  { subst. intros Hb%liftR_Some. apply (buildCurrencyQuestion_spec c pool g).
    by rewrite Hb. }
  case_bool_decide as Hl.
  { subst. intros Hb%liftR_Some. apply (buildLanguagesQuestion_spec c pool g).
    by rewrite Hb. }
  intros [[=] _]%M_ret_Some.
Qed.

(** ** Question sets *)

Lemma uniqueByNameGo_sublist seen cs : uniqueByNameGo seen cs `sublist_of` cs.
Proof.
  revert seen. induction cs as [|c cs IH]; intros seen; [done|].
  cbn [uniqueByNameGo].
  destruct (negb (Boolean (name c))); [by apply sublist_cons|].
  case_bool_decide; [by apply sublist_cons | by apply sublist_skip].
Qed.

Lemma uniqueByName_elem_of c cs : c ∈ uniqueByName cs → c ∈ cs.
Proof. intros Hc. eapply elem_of_sublist, uniqueByNameGo_sublist. done. Qed.

Lemma elem_of_take_1 {A} (x : A) n (l : list A) : x ∈ take n l → x ∈ l.
Proof. intros Hx. eapply elem_of_sublist, sublist_take. done. Qed.

(** The last step of [getCountriesForType], from a base pool. *)
Lemma availableFrom_elem_of (basePool loaded : list Country) type c :
  c ∈ (if bool_decide (0 < length (filter (λ c, hasDataForType c type = true)
                                          basePool))
       then uniqueByName (filter (λ c, hasDataForType c type = true) basePool)
       else uniqueByName
              (filter (λ c, hasDataForType c type = true) basePool
               ++ filter (λ c, hasDataForType c type = true) loaded)) →
  (c ∈ basePool ∨ c ∈ loaded) ∧ hasDataForType c type = true.
Proof.
  case_bool_decide.
  - intros [Hd Hc]%uniqueByName_elem_of%list_elem_of_filter. auto.
  - intros [Hc | Hc]%uniqueByName_elem_of%elem_of_app;
      apply list_elem_of_filter in Hc as [Hd Hc]; auto.
Qed.

Lemma getCountriesForType_elem_of e type desiredCount g c :
  c ∈ (getCountriesForType e type desiredCount g).1 →
  (c ∈ countryPool e ∨ c ∈ countries e) ∧ hasDataForType c type = true.
Proof.
  unfold getCountriesForType. rewrite Rand_bind_unfold.
  destruct (bool_decide (length (countryPool e) ≠ 0)).
  - unfold mret, Rand_ret. cbn [fst snd]. intros Hc.
    apply (availableFrom_elem_of (countryPool e) (countries e)).
    revert Hc. by case_bool_decide.
  - rewrite Rand_bind_unfold. unfold mret, Rand_ret.
    cbn [fst snd]. intros Hc.
    match type of Hc with
    | context [take ?n ?l] =>
        destruct (availableFrom_elem_of (take n l) (countries e) type c)
          as [[Hb | Hb] Hd]
    end.
    + revert Hc. by case_bool_decide.
    + split; [|done]. right. apply elem_of_take_1 in Hb.
      by rewrite shuffleArray_Permutation in Hb.
    + auto.
Qed.

Section question_set_properties.
Variable toLocaleString : Z → string.
Variables (fuel : nat) (type : string) (optionPool : list Country)
          (desiredCount : nat).

(** Both loops only ever add questions that [buildQuestionForType] made
    for the country at hand. *)
Lemma availableLoop_questions (P : Question → Prop) rest :
  ∀ questions tried g qs tried' g',
    (∀ c q, c ∈ rest → wellFormedQuestion type c q → P q) →
    Forall P questions →
    availableLoop toLocaleString fuel type optionPool desiredCount
      rest questions tried g = Some ((qs, tried'), g') →
    Forall P qs.
Proof.
  induction rest as [|c rest IH]; intros questions tried g qs tried' g' HP Hq.
  - by intros [[= <- _] _]%M_ret_Some.
  - cbn [availableLoop].
    assert (HP' : ∀ c' q, c' ∈ rest → wellFormedQuestion type c' q → P q).
    { intros c' q Hc'. apply HP. by right. }
    case_bool_decide; [|by intros [[= <- _] _]%M_ret_Some].
    case_bool_decide; [by apply IH|].
    intros ([q|] & g1 & Hb & Hrest)%M_bind_Some.
    + eapply IH; [done | | exact Hrest].
      apply Forall_app. split; [done|]. apply Forall_singleton.
      apply (HP c); [by left|]. by eapply buildQuestionForType_spec.
    + by eapply IH.
Qed.

Lemma fallbackPoolLoop_questions (P : Question → Prop) rest :
  ∀ questions tried g qs tried' g',
    (∀ c q, c ∈ rest → wellFormedQuestion type c q → P q) →
    Forall P questions →
    fallbackPoolLoop toLocaleString fuel type optionPool desiredCount
      rest questions tried g = Some ((qs, tried'), g') →
    Forall P qs.
Proof.
  induction rest as [|c rest IH]; intros questions tried g qs tried' g' HP Hq.
  - by intros [[= <- _] _]%M_ret_Some.
  - cbn [fallbackPoolLoop].
    assert (HP' : ∀ c' q, c' ∈ rest → wellFormedQuestion type c' q → P q).
    { intros c' q Hc'. apply HP. by right. }
    case_bool_decide; [|by intros [[= <- _] _]%M_ret_Some].
    destruct (negb (hasDataForType c type)); [by apply IH|].
    intros ([q|] & g1 & Hb & Hrest)%M_bind_Some.
    + eapply IH; [done | | exact Hrest].
      apply Forall_app. split; [done|]. apply Forall_singleton.
      apply (HP c); [by left|]. by eapply buildQuestionForType_spec.
    + by eapply IH.
Qed.
End question_set_properties.

(** C1: every question that [generateQuestionSet] returns is about a
    country of the engine that has data for the type; its options are four
    with pairwise different values, exactly one of them has the true answer
    of that country as its value (the population, the first currency or the
    first language), and [correctIndex], below 4, is the index of that
    option. *)
Theorem generateQuestionSet_questions_well_formed toLocaleString fuel e type
    desiredCount g qs g' :
  generateQuestionSet toLocaleString fuel e type desiredCount g
    = Some (qs, g') →
  Forall (questionOf e type) qs.
Proof.
  unfold generateQuestionSet.
  intros (available & g1 & Hav%liftR_Some & Hrest)%M_bind_Some. revert Hrest.
  case_bool_decide as Hempty; [by intros [<- _]%M_ret_Some|].
  intros (shuffled & g2 & Hsh%liftR_Some & Hrest)%M_bind_Some.
  apply M_bind_Some in Hrest as ([questions tried] & g3 & Hloop & Hrest).
  apply M_bind_Some in Hrest as (questions' & g4 & Hsecond & Hret).
  apply M_ret_Some in Hret as [<- _].
  apply Forall_take.
  assert (Hsrc : ∀ c, c ∈ available →
            (c ∈ countryPool e ∨ c ∈ countries e)).
  { intros c Hc. eapply getCountriesForType_elem_of. by rewrite Hav. }
  assert (Hfirst : Forall (questionOf e type) questions).
  { eapply availableLoop_questions; [| |exact Hloop]; [|constructor].
    intros c q Hc Hq. exists c. split; [|done]. apply Hsrc.
    assert (Hs : shuffled = (shuffleArray available g1).1) by by rewrite Hsh.
    by rewrite Hs, shuffleArray_Permutation in Hc. }
  revert Hsecond. case_bool_decide; [|by intros [<- _]%M_ret_Some].
  intros (reshuffled & g5 & Hsh2%liftR_Some & Hrest)%M_bind_Some.
  apply M_bind_Some in Hrest as ([questions2 tried2] & g6 & Hloop2 & Hret).
  apply M_ret_Some in Hret as [<- _].
  eapply fallbackPoolLoop_questions; [|exact Hfirst|exact Hloop2].
  intros c q [_ Hc]%list_elem_of_filter Hq. exists c. split; [|done]. right.
  assert (Hs : reshuffled = (shuffleArray (countries e) g3).1)
    by by rewrite Hsh2.
  by rewrite Hs, shuffleArray_Permutation in Hc.
Qed.

(** *** Repeated countries *)

Section distinct_countries.
Variable toLocaleString : Z → string.
Variables (fuel : nat) (type : string) (optionPool : list Country)
          (desiredCount : nat).

Lemma built_question_country c g q g' :
  buildQuestionForType toLocaleString fuel type c optionPool g
    = Some (Some q, g') →
  country q = name c.
Proof. intros (_ & Hc & _)%buildQuestionForType_spec. done. Qed.

Lemma countries_snoc (questions : list Question) q (tried : gset string) c :
  NoDup (country <$> questions) →
  (∀ q', q' ∈ questions → country q' ∈ tried) →
  name c ∉ tried → country q = name c →
  NoDup (country <$> questions ++ [q])
  ∧ ∀ q', q' ∈ questions ++ [q] → country q' ∈ {[name c]} ∪ tried.
Proof.
  intros Hnd Htried Hc Hq. split.
  - rewrite fmap_app. apply NoDup_app. split_and!; [done| |apply NoDup_singleton].
    intros x (q' & -> & Hq')%list_elem_of_fmap Hx.
    apply list_elem_of_singleton in Hx.
    apply Hc. rewrite <-Hq, <-Hx. by apply Htried.
  - intros q' [Hq' | ->%list_elem_of_singleton]%elem_of_app.
    + apply elem_of_union_r. by apply Htried.
    + apply elem_of_union_l, elem_of_singleton. done.
Qed.

(** The first loop asks [tried] before it builds a question, so it never
    adds a second question about a name. *)
Lemma availableLoop_distinct rest :
  ∀ questions tried g qs tried' g',
    NoDup (country <$> questions) →
    (∀ q, q ∈ questions → country q ∈ tried) →
    availableLoop toLocaleString fuel type optionPool desiredCount
      rest questions tried g = Some ((qs, tried'), g') →
    NoDup (country <$> qs) ∧ (∀ q, q ∈ qs → country q ∈ tried').
Proof.
  induction rest as [|c rest IH]; intros questions tried g qs tried' g' Hnd Ht.
  - by intros [[= <- <-] _]%M_ret_Some.
  - cbn [availableLoop].
    case_bool_decide; [|by intros [[= <- <-] _]%M_ret_Some].
    case_bool_decide as Hc; [by apply IH|].
    intros ([q|] & g1 & Hb & Hrest)%M_bind_Some.
    + apply built_question_country in Hb.
      destruct (countries_snoc questions q tried c) as [Hnd' Ht']; try done.
      by eapply IH.
    + eapply IH; [done | | exact Hrest].
      intros q Hq. apply elem_of_union_r. by apply Ht.
Qed.

(** The second loop does not ask [tried]; it relies on the names of the
    fallback pool being different from one another. *)
Lemma fallbackPoolLoop_distinct rest :
  ∀ questions tried g qs tried' g',
    NoDup (country <$> questions) →
    (∀ q, q ∈ questions → country q ∈ tried) →
    NoDup (name <$> rest) →
    (∀ c, c ∈ rest → name c ∉ tried) →
    fallbackPoolLoop toLocaleString fuel type optionPool desiredCount
      rest questions tried g = Some ((qs, tried'), g') →
    NoDup (country <$> qs).
Proof.
  induction rest as [|c rest IH];
    intros questions tried g qs tried' g' Hnd Ht Hrest Hfresh.
  - by intros [[= <- <-] _]%M_ret_Some.
  - cbn [fallbackPoolLoop]. rewrite fmap_cons in Hrest.
    apply NoDup_cons in Hrest as [Hc Hrest].
    assert (Hfresh' : ∀ c', c' ∈ rest → name c' ∉ tried).
    { intros c' Hc'. apply Hfresh. by right. }
    case_bool_decide; [|by intros [[= <- <-] _]%M_ret_Some].
    destruct (negb (hasDataForType c type)); [by apply IH|].
    intros ([q|] & g1 & Hb & Hloop)%M_bind_Some.
    + apply built_question_country in Hb.
      destruct (countries_snoc questions q tried c) as [Hnd' Ht'];
        [done | done | apply Hfresh; by left | done |].
      eapply IH; [done | done | done | | exact Hloop].
      intros c' Hc'. rewrite elem_of_union, elem_of_singleton.
      intros [Heq | Hin]; [|by eapply Hfresh'].
      apply Hc. rewrite <-Heq. by apply list_elem_of_fmap_2.
    + by eapply IH.
Qed.
End distinct_countries.

Lemma generateQuestionSet_length toLocaleString fuel e type desiredCount
    g qs g' :
  generateQuestionSet toLocaleString fuel e type desiredCount g
    = Some (qs, g') →
  length qs ≤ desiredCount.
Proof.
  unfold generateQuestionSet.
  intros (available & g1 & _ & Hrest)%M_bind_Some. revert Hrest.
  case_bool_decide; [intros [<- _]%M_ret_Some; cbn; lia|].
  intros (shuffled & g2 & _ & Hrest)%M_bind_Some.
  apply M_bind_Some in Hrest as ([questions tried] & g3 & _ & Hrest).
  apply M_bind_Some in Hrest as (questions' & g4 & _ & Hret).
  apply M_ret_Some in Hret as [<- _]. apply firstn_le_length.
Qed.

(** X13: a question set never has more than [desiredCount] questions, and
    when the names of the loaded countries are pairwise different, no two
    of its questions are about the same country. *)
Lemma generateQuestionSet_distinct toLocaleString fuel e type desiredCount
    g qs g' :
  NoDup (name <$> countries e) →
  generateQuestionSet toLocaleString fuel e type desiredCount g
    = Some (qs, g') →
  length qs ≤ desiredCount ∧ NoDup (country <$> qs).
Proof.
  intros Hnames Hgen. split; [by eapply generateQuestionSet_length|].
  revert Hgen. unfold generateQuestionSet.
  intros (available & g1 & _ & Hrest)%M_bind_Some. revert Hrest.
  case_bool_decide; [intros [<- _]%M_ret_Some; constructor|].
  intros (shuffled & g2 & _ & Hrest)%M_bind_Some.
  apply M_bind_Some in Hrest as ([questions tried] & g3 & Hloop & Hrest).
  apply M_bind_Some in Hrest as (questions' & g4 & Hsecond & Hret).
  apply M_ret_Some in Hret as [<- _].
  apply availableLoop_distinct in Hloop as [Hnd Ht];
    [|constructor|by intros q ?%elem_of_nil].
  assert (Hnd' : NoDup (country <$> questions')).
  { revert Hsecond. case_bool_decide; [|by intros [<- _]%M_ret_Some].
    intros (reshuffled & g5 & Hsh%liftR_Some & Hrest)%M_bind_Some.
    apply M_bind_Some in Hrest as ([questions2 tried2] & g6 & Hloop2 & Hret).
    apply M_ret_Some in Hret as [<- _].
    eapply fallbackPoolLoop_distinct; [exact Hnd | exact Ht | | | exact Hloop2].
    - eapply sublist_NoDup; [|apply fmap_sublist, sublist_filter].
      assert (Hs : reshuffled = (shuffleArray (countries e) g3).1)
        by by rewrite Hsh.
      by rewrite Hs, shuffleArray_Permutation.
    - by intros c [Hc _]%list_elem_of_filter. }
  eapply sublist_NoDup; [exact Hnd'|]. apply fmap_sublist, sublist_take.
Qed.

(** C3, at an engine that has loaded twelve countries of which the last
    two are both named 'Saint Martin', has sampled the first ten into its
    pool, and is asked for ten currency questions: the first loop makes
    the eight questions that the pool allows (two of its countries have no
    currency), and the second loop, which walks the untried countries
    without consulting [tried] again, makes one question for each of the
    two entries named 'Saint Martin'.  The set has ten questions, the
    desired count, and two of them are about the same country. *)
Theorem generateQuestionSet_repeats_a_country :
  name <$> countryPool Sample.afterInit
    = ["India"; "Brazil"; "Japan"; "France"; "Kenya"; "Ghana"; "Nepal";
       "Chile"; "Antarctica"; "Bouvet Island"]
  ∧ ∃ qs g',
      generateQuestionSet Sample.anyLocale 0 Sample.afterInit "currency" 10 []
        = Some (qs, g')
      ∧ country <$> qs
          = ["Brazil"; "Japan"; "France"; "Kenya"; "Ghana"; "Nepal"; "Chile";
             "India"; "Saint Martin"; "Saint Martin"]
      ∧ length qs = 10
      ∧ ¬ NoDup (country <$> qs).
Proof.
  split; [by vm_compute|].
  destruct (generateQuestionSet Sample.anyLocale 0 Sample.afterInit
              "currency" 10 []) as [[qs g']|] eqn:Hgen;
    vm_compute in Hgen; [|discriminate].
  injection Hgen as <- <-. eexists _, _. split; [reflexivity|].
  split_and!; [by vm_compute | by vm_compute | by_evaluation].
Qed.

(** ** Instances *)

Lemma generateQuestionSet_questions_well_formed_witness :
  ∃ qs g',
    generateQuestionSet Sample.anyLocale 8 Sample.afterInit "population" 10 []
      = Some (qs, g')
    ∧ length qs = 10
    ∧ Forall (questionOf Sample.afterInit "population") qs.
Proof.
  destruct (generateQuestionSet Sample.anyLocale 8 Sample.afterInit
              "population" 10 []) as [[qs g']|] eqn:Hgen.
  - exists qs, g'. split; [reflexivity|].
    pose proof (generateQuestionSet_questions_well_formed
                  _ _ _ _ _ _ _ _ Hgen) as Hall.
    split; [|exact Hall].
    vm_compute in Hgen. injection Hgen as <- <-. reflexivity.
  - vm_compute in Hgen. discriminate.
Defined.

Lemma label_options_are_four_distinct_witness :
  "Euro" ≠ ""
  ∧ fourLabels "Euro"
      (filter (λ currency, currency ≠ "Euro")
              (collectUniqueValues [] "currencies" "France"))
      fallbackCurrencies
      (generateCurrencyOptions "Euro" [] "France" []).1
  ∧ fourLabels "Euro"
      (filter (λ language, language ≠ "Euro")
              (collectUniqueValues [] "languages" "France"))
      fallbackLanguages
      (generateLanguageOptions "Euro" [] "France" []).1.
Proof.
  split; [discriminate|].
  apply (label_options_are_four_distinct "Euro" [] "France" []).
  discriminate.
Defined.

Lemma candidateList_by_difficulty_witness :
  countries Sample.afterLoad ≠ []
  ∧ (candidateList Sample.afterLoad Sample.identityDraws).1
      = take 30 (sortByPopularity Sample.loaded)
  ∧ countryPool (populateCountryPool Sample.afterLoad Sample.identityDraws).1.1
      = take REST_COUNTRIES_SAMPLE_SIZE
          (shuffleArray
             (candidateList Sample.afterLoad Sample.identityDraws).1
             (candidateList Sample.afterLoad Sample.identityDraws).2).1.
Proof.
  assert (Hne : countries Sample.afterLoad ≠ []) by discriminate.
  destruct (candidateList_by_difficulty Sample.afterLoad Sample.identityDraws
              Hne) as (Hpool & Heasy & _).
  split; [exact Hne|]. split; [|exact Hpool].
  apply Heasy. reflexivity.
Defined.

Lemma generateQuestionSet_unsupported_type_witness :
  ("capital" ∉ supportedTypes)
  ∧ ∃ g', generateQuestionSet Sample.anyLocale 8 Sample.afterInit
            "capital" 10 [] = Some ([], g').
Proof.
  assert (Hne : "capital" ∉ supportedTypes) by by_evaluation.
  split; [exact Hne|].
  apply (generateQuestionSet_unsupported_type Sample.anyLocale 8
           Sample.afterInit "capital" 10 [] Hne).
Defined.

(** ** When [generatePopulationOptions] returns *)

Lemma fallbackLoop_step fuel cv ds mi :
  length ds < 3 →
  fallbackLoop (S fuel) cv ds mi =
    fallbackLoop fuel cv
      (if bool_decide (candidateAt cv mi ∈ cv :: ds)
       then ds else ds ++ [candidateAt cv mi])
      (mi + 1).
Proof. intros Hlen. cbn [fallbackLoop]. by rewrite bool_decide_true. Qed.

Lemma fallbackLoop_done fuel cv ds mi :
  ¬ length ds < 3 → fallbackLoop fuel cv ds mi = Some ds.
Proof. intros Hlen. destruct fuel; cbn [fallbackLoop]; by rewrite bool_decide_false. Qed.

Lemma candidateAt_mod cv mi : candidateAt cv mi = candidateAt cv (mi mod 5).
Proof.
  unfold candidateAt. change (length fallbackMultipliers) with 5.
  by rewrite Nat.Div0.mod_mod.
Qed.

(** The five candidates of a cycle. *)
Lemma candidateAt_cycle cv :
  candidateAt cv 0 = Z.max 100000 ((2 * cv * 55 + 100) / 200)
  ∧ candidateAt cv 1 = Z.max 100000 ((2 * cv * 75 + 100) / 200)
  ∧ candidateAt cv 2 = Z.max 100000 ((2 * cv * 12 + 10) / 20)
  ∧ candidateAt cv 3 = Z.max 100000 ((2 * cv * 14 + 10) / 20)
  ∧ candidateAt cv 4 = Z.max 100000 ((2 * cv * 18 + 10) / 20).
Proof. split_and!; reflexivity. Qed.

(** Up to a correct value of 71428 the first four multipliers are all
    clamped to 100000: the loop has at most two values to offer. *)
Lemma candidateAt_small cv mi :
  (0 < cv ≤ 71428)%Z →
  candidateAt cv mi ∈ [100000%Z; candidateAt cv 4].
Proof.
  intros Hcv. rewrite candidateAt_mod.
  destruct (candidateAt_cycle cv) as (H0 & H1 & H2 & H3 & _).
  assert (Hlt : mi mod 5 < 5) by (apply Nat.mod_upper_bound; lia).
  rewrite !elem_of_cons.
  destruct (mi mod 5) as [|[|[|[|[|k]]]]]; [| | | |by auto|lia]; left.
  - rewrite H0. div_lia.
  - rewrite H1. div_lia.
  - rewrite H2. div_lia.
  - rewrite H3. div_lia.
Qed.

Lemma fallbackLoop_never_returns cv fuel :
  (0 < cv ≤ 71428)%Z →
  ∀ ds mi,
    NoDup ds → (∀ x, x ∈ ds → x ∈ [100000%Z; candidateAt cv 4]) →
    fallbackLoop fuel cv ds mi = None.
Proof.
  intros Hcv. induction fuel as [|fuel IH]; intros ds mi Hnd Hin.
  - assert (Hlen : length ds < 3).
    { apply (NoDup_submseteq _ _ Hnd), submseteq_length in Hin.
      cbn [length] in Hin. lia. }
    cbn [fallbackLoop]. by rewrite bool_decide_true.
  - assert (Hlen : length ds < 3).
    { apply (NoDup_submseteq _ _ Hnd), submseteq_length in Hin.
      cbn [length] in Hin. lia. }
    rewrite fallbackLoop_step by done. case_bool_decide as Hc.
    + by apply IH.
    + apply IH.
      * apply NoDup_app. split_and!; [done| |apply NoDup_singleton].
        intros x Hx ->%list_elem_of_singleton. apply Hc. by right.
      * intros x [Hx | ->%list_elem_of_singleton]%elem_of_app; [by apply Hin|].
        by apply candidateAt_small.
Qed.

(** With no real candidate in the pool (no other country with a positive
    population) and a correct value of at most 71428,
    [generatePopulationOptions] does not return. *)
Lemma generatePopulationOptions_never_returns cv fuel pool countryName g :
  (0 < cv ≤ 71428)%Z →
  (∀ item, item ∈ pool →
     name item = countryName ∨ hasDataForType item "population" = false) →
  generatePopulationOptions fuel cv pool countryName g = None.
Proof.
  intros Hcv Hpool. unfold generatePopulationOptions.
  assert (Hnone : filter (λ item, name item ≠ countryName
                            ∧ hasDataForType item "population" = true) pool
                  = []).
  { induction pool as [|item pool IH]; [done|].
    rewrite filter_cons_False.
    - apply IH. intros item' Hin. apply Hpool. by right.
    - intros [Hname Hdata]. destruct (Hpool item) as [? | ?];
        [by left | done | congruence]. }
  rewrite Hnone. rewrite M_bind_unfold.
  cbn [fmap list_fmap arrayFromSet setFromGo length pickLoop liftR].
  unfold mret at 1, Rand_ret at 1. rewrite M_bind_unfold.
  unfold liftO.
  rewrite (fallbackLoop_never_returns cv fuel Hcv []); [done|constructor|].
  by intros x ?%elem_of_nil.
Qed.

(** The picking loop of [generatePopulationOptions]: the distractors stay
    pairwise different, different from the correct value and at most
    three. *)
Lemma pickLoop_population cv n (candidates distractors : list Z) g :
  NoDup candidates → NoDup distractors →
  (∀ x, x ∈ candidates → x ∉ distractors) →
  cv ∉ distractors → length candidates ≤ n → length distractors ≤ 3 →
  ∃ picked,
    (pickLoop (λ candidate _, bool_decide (candidate ≠ cv))
       n candidates distractors g).1 = distractors ++ picked
    ∧ NoDup (distractors ++ picked)
    ∧ (cv ∉ distractors ++ picked)
    ∧ (∀ x, x ∈ picked → x ∈ candidates)
    ∧ length (distractors ++ picked) ≤ 3.
Proof.
  revert candidates distractors g.
  induction n as [|n IH]; intros cs ds g Hcs Hds Hdisj Hcv Hn Hlen.
  - exists []. rewrite app_nil_r. cbn [pickLoop].
    split_and!; [done | done | done | by intros x ?%elem_of_nil | done].
  - cbn [pickLoop].
    destruct (bool_decide (0 < length cs) && bool_decide (length ds < 3))
      eqn:Hgo.
    + apply andb_true_iff in Hgo as [Hc%bool_decide_eq_true Hd%bool_decide_eq_true].
      rewrite Rand_bind_unfold.
      pose proof (randomIndex_lt (length cs) g Hc) as Hi.
      set (index := (randomIndex (length cs) g).1) in *.
      destruct (lookup_lt_is_Some_2 cs index Hi) as [c Hlook].
      rewrite Hlook.
      assert (Hin : c ∈ cs) by (by eapply list_elem_of_lookup_2).
      pose proof (delete_Permutation cs index c Hlook) as Hperm.
      assert (Hnd' : NoDup (c :: delete index cs)) by by rewrite <-Hperm.
      apply NoDup_cons in Hnd' as [Hnotin Hnd'].
      assert (Hsub : ∀ x, x ∈ delete index cs → x ∈ cs).
      { intros x Hx. rewrite Hperm. by right. }
      assert (Hlen' : length (delete index cs) ≤ n).
      { rewrite length_delete by eauto. lia. }
      case_bool_decide as Hne.
      * destruct (IH (delete index cs) (ds ++ [c])
                    (randomIndex (length cs) g).2)
          as (picked & Hr & Hnd & Hcv' & Hsub' & Hl).
        -- done.
        -- apply NoDup_app. split_and!; [done| |apply NoDup_singleton].
           intros x Hx ->%list_elem_of_singleton. by apply (Hdisj c).
        -- intros x Hx. rewrite elem_of_app, list_elem_of_singleton.
           intros [Hxd | ->]; [|done]. by apply (Hdisj x); [apply Hsub|].
        -- rewrite elem_of_app, list_elem_of_singleton. intros [?|?]; congruence.
        -- done.
        -- rewrite length_app. cbn [length]. lia.
        -- exists (c :: picked). rewrite Hr, <-!app_assoc. cbn [app].
           rewrite <-app_assoc in Hnd, Hcv', Hl. cbn [app] in Hnd, Hcv', Hl.
           split_and!; [done | done | done | | done].
           intros x [-> | Hx]%elem_of_cons; [done|]. by apply Hsub, Hsub'.
      * destruct (IH (delete index cs) ds (randomIndex (length cs) g).2)
          as (picked & Hr & Hnd & Hcv' & Hsub' & Hl); try done.
        -- intros x Hx. by apply Hdisj, Hsub.
        -- exists picked. split_and!; try done.
           intros x Hx. by apply Hsub, Hsub'.
    + exists []. rewrite app_nil_r.
      split_and!; [done | done | done | by intros x ?%elem_of_nil | done].
Qed.

(** From 71429 on, the last three multipliers give three different values
    above the correct one, so a cycle always has something new to offer. *)
Lemma fresh_candidate cv (ds : list Z) :
  (71429 ≤ cv)%Z → NoDup ds → length ds < 3 →
  ∃ i, i < 5 ∧ candidateAt cv i ∉ cv :: ds.
Proof.
  intros Hcv Hnd Hlen.
  destruct (candidateAt_cycle cv) as (_ & _ & H2 & H3 & H4).
  assert (Hbig : (cv < candidateAt cv 2 < candidateAt cv 3
                  ∧ candidateAt cv 3 < candidateAt cv 4)%Z).
  { rewrite H2, H3, H4. div_lia. }
  destruct (decide (candidateAt cv 2 ∈ ds)) as [Hd2|Hd2]; last first.
  { exists 2. split; [lia|]. rewrite not_elem_of_cons. split; [lia|done]. }
  destruct (decide (candidateAt cv 3 ∈ ds)) as [Hd3|Hd3]; last first.
  { exists 3. split; [lia|]. rewrite not_elem_of_cons. split; [lia|done]. }
  destruct (decide (candidateAt cv 4 ∈ ds)) as [Hd4|Hd4]; last first.
  { exists 4. split; [lia|]. rewrite not_elem_of_cons. split; [lia|done]. }
  exfalso.
  assert (Hsub : [candidateAt cv 2; candidateAt cv 3; candidateAt cv 4] ⊆+ ds).
  { apply NoDup_submseteq.
    - repeat (apply NoDup_cons; split);
        rewrite ?not_elem_of_cons, ?elem_of_nil; try constructor; lia.
    - intros x. rewrite !elem_of_cons, elem_of_nil.
      intros [-> | [-> | [-> | []]]]; done. }
  apply submseteq_length in Hsub. cbn [length] in Hsub. lia.
Qed.

Lemma reach_index r target :
  r < 5 → target < 5 → ∃ k, k < 5 ∧ (r + k) mod 5 = target.
Proof.
  intros Hr Ht. exists ((target + 5 - r) mod 5).
  destruct r as [|[|[|[|[|r]]]]]; [| | | | |lia];
    destruct target as [|[|[|[|[|t]]]]]; try lia;
    (split; [apply Nat.mod_upper_bound; lia | reflexivity]).
Qed.

(** If one of the next [k + 1] candidates is new, the loop appends a new
    value after at most [k + 1] turns. *)
Lemma fallbackLoop_progress cv k :
  ∀ ds mi fuel,
    length ds < 3 → candidateAt cv (mi + k) ∉ cv :: ds → k < fuel →
    ∃ j c, j ≤ k ∧ (c ∉ cv :: ds)
      ∧ fallbackLoop fuel cv ds mi
          = fallbackLoop (fuel - S j) cv (ds ++ [c]) (mi + S j).
Proof.
  induction k as [|k IH]; intros ds mi fuel Hlen Hnew Hfuel.
  - destruct fuel as [|fuel]; [lia|]. rewrite Nat.add_0_r in Hnew.
    exists 0, (candidateAt cv mi). split_and!; [lia | done |].
    rewrite fallbackLoop_step, bool_decide_false by done.
    f_equal; lia.
  - destruct fuel as [|fuel]; [lia|].
    destruct (decide (candidateAt cv mi ∈ cv :: ds)) as [Hold|Hfresh].
    + destruct (IH ds (mi + 1) fuel) as (j & c & Hj & Hc & Heq); [done| |lia|].
      { by replace (mi + 1 + k) with (mi + S k) by lia. }
      exists (S j), c. split_and!; [lia | done |].
      rewrite fallbackLoop_step, bool_decide_true by done.
      rewrite Heq. f_equal; lia.
    + exists 0, (candidateAt cv mi). split_and!; [lia | done |].
      rewrite fallbackLoop_step, bool_decide_false by done.
      f_equal; lia.
Qed.

Lemma fallbackLoop_returns cv m :
  (71429 ≤ cv)%Z →
  ∀ ds mi fuel,
    NoDup ds → cv ∉ ds → length ds + m = 3 → 5 * m ≤ fuel →
    ∃ added,
      fallbackLoop fuel cv ds mi = Some (ds ++ added)
      ∧ NoDup (ds ++ added)
      ∧ (cv ∉ ds ++ added)
      ∧ length (ds ++ added) = 3.
Proof.
  intros Hcv. induction m as [|m IH]; intros ds mi fuel Hnd Hnotin Hlen Hfuel.
  - exists []. rewrite app_nil_r.
    rewrite fallbackLoop_done by lia. split_and!; [done | done | done | lia].
  - destruct (fresh_candidate cv ds Hcv Hnd) as (i & Hi & Hfresh); [lia|].
    destruct (reach_index (mi mod 5) i) as (k & Hk & Hreach);
      [apply Nat.mod_upper_bound; lia | done |].
    destruct (fallbackLoop_progress cv k ds mi fuel)
      as (j & c & Hj & Hc & Heq); [lia | | lia |].
    { rewrite candidateAt_mod, <-Nat.Div0.add_mod_idemp_l, Hreach. done. }
    apply not_elem_of_cons in Hc as [Hne Hc].
    destruct (IH (ds ++ [c]) (mi + S j) (fuel - S j))
      as (added & Hr & Hnd' & Hcv' & Hl).
    + apply NoDup_app. split_and!; [done| |apply NoDup_singleton].
      by intros x Hx ->%list_elem_of_singleton.
    + rewrite elem_of_app, list_elem_of_singleton. intros [?|?]; congruence.
    + rewrite length_app. cbn [length]. lia.
    + lia.
    + exists (c :: added). rewrite Heq, Hr, <-!app_assoc. cbn [app].
      rewrite <-app_assoc in Hnd', Hcv', Hl. cbn [app] in Hnd', Hcv', Hl.
      done.
Qed.

Lemma generatePopulationOptions_enough_fuel cv pool countryName fuel g :
  (71429 ≤ cv)%Z → 15 ≤ fuel →
  ∃ distractors g',
    generatePopulationOptions fuel cv pool countryName g
      = Some (cv :: distractors, g')
    ∧ length distractors = 3
    ∧ NoDup (cv :: distractors).
Proof.
  intros Hcv Hfuel. unfold generatePopulationOptions.
  set (candidates := arrayFromSet _).
  destruct (pickLoop_population cv (length candidates) candidates [] g)
    as (picked & Hr & Hnd & Hnotin & _ & Hl);
    [apply arrayFromSet_NoDup | constructor | by intros ? _ ?%elem_of_nil
    | by intros ?%elem_of_nil | done | cbn; lia |].
  cbn [app] in Hr, Hnd, Hnotin, Hl.
  destruct (fallbackLoop_returns cv (3 - length picked) Hcv picked 0 fuel)
    as (added & Hf & Hnd' & Hcv' & Hl'); [done | done | lia | lia |].
  exists (picked ++ added), (pickLoop (λ candidate _, bool_decide (candidate ≠ cv))
                               (length candidates) candidates [] g).2.
  split_and!; [| done | by apply NoDup_cons].
  rewrite M_bind_unfold. unfold liftR.
  destruct (pickLoop _ _ candidates [] g) as [ds g1] eqn:Hpick.
  cbn [fst snd] in *. subst ds.
  rewrite M_bind_unfold. unfold liftO. by rewrite Hf.
Qed.

(** X27: for a correct value of at least 71429 and every pool, 15 turns of
    the fallback loop are enough, and [generatePopulationOptions] returns
    four pairwise different values, the correct one first. *)
Lemma generatePopulationOptions_returns cv pool countryName fuel g :
  (71429 ≤ cv)%Z → 15 ≤ fuel →
  ∃ distractors g',
    generatePopulationOptions fuel cv pool countryName g
      = Some (cv :: distractors, g')
    ∧ length distractors = 3
    ∧ NoDup (cv :: distractors).
Proof. apply generatePopulationOptions_enough_fuel. Qed.

(** ** When [generateQuestionSet] returns *)

Lemma buildQuestionForType_returns toLocaleString fuel type c pool g :
  type ≠ "population" →
  is_Some (buildQuestionForType toLocaleString fuel type c pool g).
Proof.
  intros Ht. unfold buildQuestionForType. rewrite bool_decide_false by done.
  repeat case_bool_decide; done.
Qed.

Section returns.
Variable toLocaleString : Z → string.
Variables (fuel : nat) (type : string) (optionPool : list Country)
          (desiredCount : nat).
Hypothesis not_population : type ≠ "population".

Lemma availableLoop_returns rest :
  ∀ questions tried g,
    is_Some (availableLoop toLocaleString fuel type optionPool desiredCount
               rest questions tried g).
Proof.
  induction rest as [|c rest IH]; intros questions tried g; [done|].
  cbn [availableLoop]. case_bool_decide; [|done].
  case_bool_decide; [apply IH|].
  rewrite M_bind_unfold.
  destruct (buildQuestionForType_returns toLocaleString fuel type c
              optionPool g not_population) as [[[q|] g1] ->]; apply IH.
Qed.

Lemma fallbackPoolLoop_returns rest :
  ∀ questions tried g,
    is_Some (fallbackPoolLoop toLocaleString fuel type optionPool desiredCount
               rest questions tried g).
Proof.
  induction rest as [|c rest IH]; intros questions tried g; [done|].
  cbn [fallbackPoolLoop]. case_bool_decide; [|done].
  destruct (negb (hasDataForType c type)); [apply IH|].
  rewrite M_bind_unfold.
  destruct (buildQuestionForType_returns toLocaleString fuel type c
              optionPool g not_population) as [[[q|] g1] ->]; apply IH.
Qed.
End returns.

(** X14: currency and language question sets are always delivered,
    whatever the fuel: only population questions enter the loop that may
    not end. *)
Lemma generateQuestionSet_returns toLocaleString fuel e type desiredCount g :
  type ≠ "population" →
  is_Some (generateQuestionSet toLocaleString fuel e type desiredCount g).
Proof.
  intros Ht. unfold generateQuestionSet.
  rewrite M_bind_unfold. unfold liftR at 1.
  destruct (getCountriesForType e type desiredCount g) as [available g1].
  case_bool_decide; [done|].
  rewrite M_bind_unfold. unfold liftR at 1.
  destruct (shuffleArray available g1) as [shuffled g2].
  rewrite M_bind_unfold.
  destruct (availableLoop_returns toLocaleString fuel type
              (uniqueByName (available ++ countries e)) desiredCount Ht
              shuffled [] ∅ g2) as [[[questions tried] g3] ->].
  rewrite M_bind_unfold.
  case_bool_decide; [|done].
  rewrite M_bind_unfold. unfold liftR at 1.
  destruct (shuffleArray (countries e) g3) as [reshuffled g4].
  rewrite M_bind_unfold.
  destruct (fallbackPoolLoop_returns toLocaleString fuel type
              (uniqueByName (available ++ countries e)) desiredCount Ht
              (filter (λ c, name c ∉ tried) reshuffled) questions tried g4)
    as [[[questions' tried'] g5] ->].
  done.
Qed.

(** An engine that has loaded a single country of 11000 inhabitants never
    delivers its population question set: the call reaches
    [generatePopulationOptions] with no candidate in the pool. *)
Lemma generateQuestionSet_population_hangs toLocaleString fuel g :
  let tuvalu := Sample.mkCountry "Tuvalu" 11000 ["Australian dollar"]
                  ["English"] in
  generateQuestionSet toLocaleString fuel
    {| countries := [tuvalu]; countryPool := [tuvalu]; score := 0;
       wrong := 0; streak := 0; questionNumber := 0; totalQuestions := 10;
       difficulty := "easy" |}
    "population" 10 g = None.
Proof.
  cbn zeta. unfold generateQuestionSet.
  rewrite M_bind_unfold.
  change (liftR (getCountriesForType _ "population" 10) g)
    with (Some ([Sample.mkCountry "Tuvalu" 11000 ["Australian dollar"]
                   ["English"]], g)).
  cbn iota. rewrite bool_decide_false by done.
  rewrite M_bind_unfold.
  change (liftR (shuffleArray _) g)
    with (Some ([Sample.mkCountry "Tuvalu" 11000 ["Australian dollar"]
                   ["English"]], g)).
  cbn iota. rewrite M_bind_unfold.
  cbn [availableLoop]. rewrite bool_decide_true by (cbn; lia).
  rewrite bool_decide_false by by_evaluation.
  rewrite M_bind_unfold.
  unfold buildQuestionForType. rewrite bool_decide_true by done.
  unfold buildPopulationQuestion.
  change (hasDataForType _ "population") with true. cbn [negb].
  rewrite M_bind_unfold.
  rewrite generatePopulationOptions_never_returns; [done | cbn; lia |].
  intros item Hitem. left.
  change (uniqueByName _) with
    [Sample.mkCountry "Tuvalu" 11000 ["Australian dollar"] ["English"]]
    in Hitem.
  by apply list_elem_of_singleton in Hitem as ->.
Qed.

(** * Further properties of the engine *)

(** ** [uniqueByName] *)

Lemma uniqueByNameGo_names seen cs :
  NoDup (name <$> uniqueByNameGo seen cs)
  ∧ ∀ c, c ∈ uniqueByNameGo seen cs → (name c ∉ seen) ∧ name c ≠ "".
Proof.
  revert seen. induction cs as [|c cs IH]; intros seen.
  - split; [constructor | by intros c ?%elem_of_nil].
  - cbn [uniqueByNameGo].
    destruct (Boolean (name c)) eqn:Hb; cbn [negb]; [|apply IH].
    case_bool_decide as Hseen; [apply IH|].
    destruct (IH ({[name c]} ∪ seen)) as [Hnd Hin]. split.
    + rewrite fmap_cons. apply NoDup_cons. split; [|done].
      intros (c' & Heq & Hc')%list_elem_of_fmap.
      apply Hin in Hc' as [Hc' _]. apply Hc'. rewrite <-Heq.
      apply elem_of_union_l, elem_of_singleton. done.
    + intros c' [-> | Hc']%elem_of_cons.
      * split; [done|]. by apply Boolean_true.
      * apply Hin in Hc' as [Hc' Hne]. split; [|done].
        intros ?. apply Hc'. by apply elem_of_union_r.
Qed.

(** Countries whose names are already excluded may be removed beforehand. *)
Lemma uniqueByNameGo_filter cs :
  ∀ seen excluded : gset string,
    excluded ⊆ seen →
    uniqueByNameGo seen cs
      = uniqueByNameGo seen (filter (λ c, name c ∉ excluded) cs).
Proof.
  induction cs as [|c cs IH]; intros seen excluded Hsub; [done|].
  rewrite filter_cons. cbn [uniqueByNameGo].
  destruct (decide (name c ∉ excluded)) as [Hex|Hex]; cbn [uniqueByNameGo].
  - destruct (negb (Boolean (name c))); [by apply IH|].
    case_bool_decide; [by apply IH|].
    f_equal. apply IH. intros x Hx. by apply elem_of_union_r, Hsub.
  - apply dec_stable in Hex.
    destruct (negb (Boolean (name c))); [by apply IH|].
    rewrite bool_decide_true by (by apply Hsub). by apply IH.
Qed.

(** Names that do not occur need not be remembered. *)
Lemma uniqueByNameGo_forget cs :
  ∀ seen other : gset string,
    (∀ c, c ∈ cs → name c ∉ other) →
    uniqueByNameGo (other ∪ seen) cs = uniqueByNameGo seen cs.
Proof.
  induction cs as [|c cs IH]; intros seen other Hfresh; [done|].
  cbn [uniqueByNameGo].
  assert (Hc : name c ∉ other) by (apply Hfresh; left).
  assert (Hcs : ∀ c', c' ∈ cs → name c' ∉ other).
  { intros c' Hc'. apply Hfresh. by right. }
  destruct (negb (Boolean (name c))); [by apply IH|].
  destruct (decide (name c ∈ seen)) as [Hin|Hin].
  - rewrite !bool_decide_true by (try apply elem_of_union_r; done).
    by apply IH.
  - rewrite !bool_decide_false
      by (rewrite ?elem_of_union; try tauto; done).
    f_equal.
    rewrite (assoc_L (∪)), (comm_L (∪) {[name c]} other), <-(assoc_L (∪)).
    by apply IH.
Qed.

Lemma uniqueByNameGo_complete cs :
  ∀ (seen : gset string) c,
    c ∈ cs → name c ≠ "" → name c ∉ seen →
    name c ∈ name <$> uniqueByNameGo seen cs.
Proof.
  induction cs as [|c0 cs IH]; intros seen c Hc Hne Hseen.
  - by apply elem_of_nil in Hc.
  - cbn [uniqueByNameGo].
    destruct (Boolean (name c0)) eqn:Hb; cbn [negb].
    + case_bool_decide as Hin.
      * apply elem_of_cons in Hc as [-> | Hc]; [done|]. by apply IH.
      * rewrite fmap_cons.
        destruct (decide (name c = name c0)) as [-> | Hneq]; [by left|].
        right. apply elem_of_cons in Hc as [-> | Hc]; [done|].
        apply IH; [done | done |].
        rewrite elem_of_union, elem_of_singleton. tauto.
    + apply elem_of_cons in Hc as [-> | Hc]; [|by apply IH].
      apply Boolean_true in Hne. congruence.
Qed.

(** X1: [uniqueByName] keeps, in their order, the first country of every
    name and drops the countries without a name: it obeys the two
    equations of that reading, its result is a sublist of its argument, the
    names in the result are pairwise different and none is empty, and every
    non-empty name of the argument is still there. *)
Theorem uniqueByName_keeps_first_of_each_name :
  uniqueByName [] = []
  ∧ (∀ c cs,
       uniqueByName (c :: cs)
         = if bool_decide (name c = "") then uniqueByName cs
           else c :: uniqueByName (filter (λ c', name c' ≠ name c) cs))
  ∧ ∀ cs,
      uniqueByName cs `sublist_of` cs
      ∧ NoDup (name <$> uniqueByName cs)
      ∧ Forall (λ c, name c ≠ "") (uniqueByName cs)
      ∧ ∀ c, c ∈ cs → name c ≠ "" → name c ∈ name <$> uniqueByName cs.
Proof.
  assert (Hcons : ∀ c cs,
    uniqueByName (c :: cs)
      = if bool_decide (name c = "") then uniqueByName cs
        else c :: uniqueByName (filter (λ c', name c' ≠ name c) cs)).
  { intros c cs. unfold uniqueByName. cbn [uniqueByNameGo]. unfold Boolean.
    case_bool_decide; cbn [negb]; [done|].
    rewrite bool_decide_false by apply not_elem_of_empty.
    f_equal.
    rewrite (uniqueByNameGo_filter cs _ ({[name c]} ∪ ∅)) by done.
    rewrite uniqueByNameGo_forget.
    - f_equal. apply filter_agree. intros c' _.
      rewrite elem_of_union, elem_of_singleton, elem_of_empty. tauto.
    - intros c' [Hc' _]%list_elem_of_filter Hin.
      apply Hc'. by apply elem_of_union_l. }
  split; [done|]. split; [done|]. intros cs.
  destruct (uniqueByNameGo_names ∅ cs) as [Hnd Hin].
  split_and!.
  - apply uniqueByNameGo_sublist.
  - done.
  - apply Forall_forall. intros c Hc. by apply Hin.
  - intros c Hc Hne. by apply uniqueByNameGo_complete.
Qed.

Lemma uniqueByNameGo_id cs :
  ∀ seen : gset string,
    NoDup (name <$> cs) → Forall (λ c, name c ≠ "") cs →
    (∀ c, c ∈ cs → name c ∉ seen) →
    uniqueByNameGo seen cs = cs.
Proof.
  induction cs as [|c cs IH]; intros seen Hnd Hnamed Hfresh; [done|].
  cbn [uniqueByNameGo]. rewrite fmap_cons in Hnd.
  apply NoDup_cons in Hnd as [Hc Hnd].
  apply Forall_cons in Hnamed as [Hne Hnamed].
  rewrite (proj2 (Boolean_true _) Hne). cbn [negb].
  rewrite bool_decide_false by (apply Hfresh; left).
  f_equal. apply IH; [done | done |].
  intros c' Hc'. rewrite elem_of_union, elem_of_singleton.
  intros [Heq | Hin].
  - apply Hc. rewrite <-Heq. by apply list_elem_of_fmap_2.
  - revert Hin. apply Hfresh. by right.
Qed.

(** X2: [uniqueByName] is idempotent: a list that went through it once
    comes back unchanged from a second pass. *)
Theorem uniqueByName_idempotent cs :
  uniqueByName (uniqueByName cs) = uniqueByName cs.
Proof.
  destruct (uniqueByNameGo_names ∅ cs) as [Hnd Hin].
  unfold uniqueByName at 1. apply uniqueByNameGo_id.
  - exact Hnd.
  - apply Forall_forall. intros c Hc. by apply Hin.
  - intros c _. apply not_elem_of_empty.
Qed.

(** ** [collectUniqueValues] *)




(** ** [getCountriesForType] *)

Lemma filter_nonempty_Exists {A} (P : A → Prop) `{!∀ x, Decision (P x)}
    (l : list A) :
  Exists P l → 0 < length (filter P l).
Proof.
  intros (x & Hx & HP)%Exists_exists.
  assert (Hin : x ∈ filter P l) by by apply list_elem_of_filter.
  destruct (filter P l); [by apply elem_of_nil in Hin | cbn; lia].
Qed.

Lemma filter_empty_Forall {A} (P : A → Prop) `{!∀ x, Decision (P x)}
    (l : list A) :
  Forall (λ x, ¬ P x) l → filter P l = [].
Proof.
  induction 1 as [|x l Hx _ IH]; [done|]. by rewrite filter_cons_False.
Qed.

(** X4: the countries that [getCountriesForType] offers all have data for
    the type and a name, carry pairwise different names and come from the
    pool or from the loaded list.  The pool has precedence: when one of its
    countries has data for the type, only the pool is used and no random
    number is drawn; when the pool is not empty but none of its countries
    has data, all loaded countries with data are offered instead. *)
Theorem getCountriesForType_prefers_the_pool e type desiredCount g :
  let available := (getCountriesForType e type desiredCount g).1 in
  let withData := λ c, hasDataForType c type = true in
  NoDup (name <$> available)
  ∧ Forall (λ c, withData c ∧ name c ≠ ""
                 ∧ (c ∈ countryPool e ∨ c ∈ countries e)) available
  ∧ (Exists withData (countryPool e) →
       available = uniqueByName (filter withData (countryPool e))
       ∧ (getCountriesForType e type desiredCount g).2 = g)
  ∧ (countryPool e ≠ [] → Forall (λ c, ¬ withData c) (countryPool e) →
       available = uniqueByName (filter withData (countries e))).
Proof.
  cbn zeta. split_and!.
  - unfold getCountriesForType. rewrite Rand_bind_unfold.
    case_bool_decide; apply uniqueByNameGo_names.
  - apply Forall_forall. intros c Hc.
    destruct (getCountriesForType_elem_of e type desiredCount g c Hc)
      as [Hfrom Hdata].
    split_and!; [done | | done].
    revert Hc. unfold getCountriesForType. rewrite Rand_bind_unfold.
    case_bool_decide; unfold mret, Rand_ret; cbn [fst];
      intros Hc; by apply (uniqueByNameGo_names ∅) in Hc as [_ ?].
  - intros Hex. unfold getCountriesForType. rewrite Rand_bind_unfold.
    assert (Hlen : length (countryPool e) ≠ 0).
    { apply Exists_exists in Hex as (c & Hc & _).
      destruct (countryPool e); [by apply elem_of_nil in Hc | done]. }
    rewrite (bool_decide_true _ Hlen). unfold mret, Rand_ret.
    cbn [fst snd].
    rewrite bool_decide_true by by apply filter_nonempty_Exists.
    done.
  - intros Hne Hnone. unfold getCountriesForType. rewrite Rand_bind_unfold.
    assert (Hlen : length (countryPool e) ≠ 0) by by destruct (countryPool e).
    rewrite (bool_decide_true _ Hlen). unfold mret, Rand_ret.
    cbn [fst snd]. rewrite (filter_empty_Forall _ _ Hnone).
    by rewrite bool_decide_false by (cbn; lia).
Qed.

(** ** The size of the pool *)

Lemma candidateList_length e g :
  difficulty e ∈ difficultyOrder →
  10 `min` length (candidateList e g).1 = 10 `min` length (countries e).
Proof.
  unfold difficultyOrder. rewrite !elem_of_cons, elem_of_nil.
  intros [Hd | [Hd | [Hd | []]]].
  - rewrite (candidateList_easy e Hd). unfold mret, Rand_ret. cbn [fst].
    rewrite length_take, sortByPopularity_Permutation. lia.
  - rewrite (candidateList_medium e Hd), Rand_bind_unfold.
    unfold mret, Rand_ret. cbn [fst].
    rewrite length_take, shuffleArray_length. lia.
  - rewrite (candidateList_hard e Hd), Rand_bind_unfold.
    unfold mret, Rand_ret. cbn [fst].
    rewrite length_take, shuffleArray_length. lia.
Qed.

(** X5: on each of the three levels [populateCountryPool] fills the pool
    with exactly [min(10, n)] of the [n] loaded countries, and when the
    loaded names are pairwise different, so are the names in the pool. *)
Theorem populateCountryPool_size e g :
  difficulty e ∈ difficultyOrder →
  let pool := countryPool (populateCountryPool e g).1.1 in
  length pool = 10 `min` length (countries e)
  ∧ (NoDup (name <$> countries e) → NoDup (name <$> pool)).
Proof.
  intros Hd. cbn zeta. split.
  - destruct (decide (countries e = [])) as [Hnil | Hne].
    + unfold populateCountryPool. rewrite Hnil. reflexivity.
    + rewrite populateCountryPool_pool by done.
      rewrite length_take, shuffleArray_length.
      by apply candidateList_length.
  - intros Hnd.
    assert (Hsub : countryPool (populateCountryPool e g).1.1 ⊆+ countries e).
    { unfold populateCountryPool. case_bool_decide.
      - apply submseteq_nil_l.
      - rewrite !Rand_bind_unfold. unfold mret, Rand_ret.
        cbn [fst snd countryPool setPool].
        etrans; [apply submseteq_take|].
        etrans; [apply Permutation_submseteq, shuffleArray_Permutation|].
        apply candidateList_submseteq. }
    apply submseteq_sublist_r in Hsub as (l & Hperm & Hsubl).
    rewrite Hperm. eapply sublist_NoDup; [exact Hnd|].
    by apply fmap_sublist.
Qed.

Lemma populateCountryPool_size_witness :
  difficulty Sample.afterLoad ∈ difficultyOrder
  ∧ length (countryPool
              (populateCountryPool Sample.afterLoad Sample.identityDraws).1.1)
      = 10 `min` length (countries Sample.afterLoad).
Proof.
  assert (Hd : difficulty Sample.afterLoad ∈ difficultyOrder) by by_evaluation.
  split; [exact Hd|].
  exact (proj1 (populateCountryPool_size Sample.afterLoad
                  Sample.identityDraws Hd)).
Defined.

(** ** The reach of [shuffleArray] *)

Lemma swap_app_l {A} (i j : nat) (p s : list A) :
  i < length p → j < length p → swap i j (p ++ s) = swap i j p ++ s.
Proof.
  intros Hi Hj. unfold swap.
  rewrite !lookup_app_l by done.
  destruct (lookup_lt_is_Some_2 p i Hi) as [x ->].
  destruct (lookup_lt_is_Some_2 p j Hj) as [y ->].
  rewrite insert_app_l by done.
  rewrite insert_app_l by (by rewrite length_insert). done.
Qed.

Lemma swap_lookup_l {A} (i j : nat) (p : list A) y :
  i < length p → p !! j = Some y → swap i j p !! i = Some y.
Proof.
  intros Hi Hj. unfold swap.
  destruct (lookup_lt_is_Some_2 p i Hi) as [x Hx]. rewrite Hx, Hj.
  destruct (decide (i = j)) as [-> | Hne].
  - rewrite list_lookup_insert_eq by (by rewrite length_insert). congruence.
  - rewrite list_lookup_insert_ne by done.
    by rewrite list_lookup_insert_eq.
Qed.

Lemma split_last {A} (l : list A) n y :
  length l = S n → l !! n = Some y → l = take n l ++ [y].
Proof.
  intros Hlen Hy. rewrite <-(take_drop n l) at 1. f_equal.
  rewrite (drop_S l y n Hy). rewrite drop_ge by lia. done.
Qed.

Lemma shuffleLoop_reaches {A} (i : nat) :
  ∀ p p' s : list A,
    length p = S i → p' ≡ₚ p →
    ∃ g, length g = i ∧ shuffleLoop i (p ++ s) g = (p' ++ s, []).
Proof.
  induction i as [|i IH]; intros p p' s Hlen Hperm.
  - exists []. split; [done|].
    destruct p as [|x [|? ?]]; try done.
    apply Permutation_singleton_r in Hperm as ->. done.
  - assert (Hlen' : length p' = S (S i)) by by rewrite Hperm.
    destruct (lookup_lt_is_Some_2 p' (S i)) as [y Hy]; [lia|].
    pose proof (split_last p' (S i) y Hlen' Hy) as Hp'.
    assert (Hin : y ∈ p).
    { rewrite <-Hperm. by eapply list_elem_of_lookup_2. }
    apply list_elem_of_lookup_1 in Hin as [j Hj].
    pose proof (lookup_lt_Some _ _ _ Hj) as Hjlt.
    pose proof (swap_lookup_l (S i) j p y ltac:(lia) Hj) as Hlast.
    assert (Hslen : length (swap (S i) j p) = S (S i))
      by by rewrite swap_Permutation.
    pose proof (split_last _ (S i) y Hslen Hlast) as Hsplit.
    destruct (IH (take (S i) (swap (S i) j p)) (take (S i) p') ([y] ++ s))
      as (g & Hg & Hloop).
    + rewrite length_take. lia.
    + apply (Permutation_app_inv_r [y]).
      by rewrite <-Hp', <-Hsplit, swap_Permutation.
    + exists (j :: g). split; [cbn; lia|].
      cbn [shuffleLoop]. rewrite Rand_bind_unfold.
      cbn [randomIndex fst snd].
      replace (S i + 1) with (S (S i)) by lia.
      rewrite Nat.mod_small by lia.
      rewrite swap_app_l by lia.
      rewrite Hsplit, <-app_assoc, Hloop, app_assoc, <-Hp'. done.
Qed.

(** X6: [shuffleArray] can return every arrangement of its argument: for
    each permutation of the array there are draws of [Math.random], one per
    element after the first, under which that permutation is the result. *)
Theorem shuffleArray_reaches_every_permutation {A} (a b : list A) :
  b ≡ₚ a →
  ∃ g, length g = length a - 1 ∧ shuffleArray a g = (b, []).
Proof.
  intros Hperm. destruct a as [|x a].
  - apply Permutation_nil_r in Hperm as ->. by exists [].
  - destruct (shuffleLoop_reaches (length a) (x :: a) b [])
      as (g & Hg & Hloop); [done | done |].
    exists g. rewrite !app_nil_r in Hloop. split.
    + cbn [length]. lia.
    + unfold shuffleArray. cbn [length].
      by replace (S (length a) - 1) with (length a) by lia.
Qed.

Lemma shuffleArray_reaches_every_permutation_witness :
  [3; 1; 2] ≡ₚ [1; 2; 3]
  ∧ ∃ g, length g = length [1; 2; 3] - 1
         ∧ shuffleArray [1; 2; 3] g = ([3; 1; 2], []).
Proof.
  assert (Hperm : [3; 1; 2] ≡ₚ [1; 2; 3]).
  { apply (Permutation_cons_append [1; 2] 3). }
  split; [exact Hperm|].
  exact (shuffleArray_reaches_every_permutation [1; 2; 3] [3; 1; 2] Hperm).
Defined.

(** ** Accepted and rejected levels *)

Lemma populateCountryPool_events e g :
  (populateCountryPool e g).1.2
    = [PoolUpdated (countryPool (populateCountryPool e g).1.1)]
  ∧ countries (populateCountryPool e g).1.1 = countries e.
Proof.
  unfold populateCountryPool. case_bool_decide; [done|].
  by rewrite !Rand_bind_unfold.
Qed.

(** X7: for each of 'easy', 'medium' and 'hard', [setDifficulty] stores the
    level and keeps the loaded countries.  Without reload the pool stays
    and the only event is difficulty-changed; with reload the pool is the
    one that [populateCountryPool] draws on the new level, announced by a
    pool-updated event that precedes the difficulty-changed event. *)
Theorem setDifficulty_sets_a_level s e g :
  s ∈ difficultyOrder →
  setDifficulty (JsString s) false e g
    = (setLevel e s, [DifficultyChanged s], g)
  ∧ let reloaded := populateCountryPool (setLevel e s) g in
    setDifficulty (JsString s) true e g
      = (reloaded.1.1,
         [PoolUpdated (countryPool reloaded.1.1); DifficultyChanged s],
         reloaded.2)
    ∧ difficulty reloaded.1.1 = s
    ∧ countries reloaded.1.1 = countries e.
Proof.
  intros Hs. split; [by apply setDifficulty_accepted|]. cbn zeta.
  destruct (populateCountryPool_events (setLevel e s) g) as [Hev Hcs].
  pose proof (populateCountryPool_difficulty (setLevel e s) g) as Hd.
  split_and!; [| done | done].
  assert (Hguard : falsy (JsString s)
                   || propertyFalsy (difficultySettings
                                       (toPropertyKey (JsString s))) = false).
  { revert Hs. unfold difficultyOrder. rewrite !elem_of_cons, elem_of_nil.
    intros [-> | [-> | [-> | []]]]; reflexivity. }
  unfold setDifficulty. rewrite Hguard. rewrite Rand_bind_unfold.
  cbn [toPropertyKey].
  destruct (populateCountryPool (setLevel e s) g) as [[e2 evs] g2].
  cbn [fst snd] in *. unfold mret, Rand_ret. subst evs.
  cbn [app]. by rewrite Hd.
Qed.

Lemma setDifficulty_sets_a_level_witness :
  "hard" ∈ difficultyOrder
  ∧ setDifficulty (JsString "hard") false Sample.afterInit []
      = (setLevel Sample.afterInit "hard", [DifficultyChanged "hard"], []).
Proof.
  assert (Hs : "hard" ∈ difficultyOrder) by by_evaluation.
  split; [exact Hs|].
  exact (proj1 (setDifficulty_sets_a_level "hard" Sample.afterInit [] Hs)).
Defined.


Lemma setDifficulty_keeps_level_witness :
  (toPropertyKey (JsString "expert") ∉ objectPrototypeKeys)
  ∧ difficulty Sample.afterInit ∈ difficultyOrder
  ∧ difficulty (setDifficulty (JsString "expert") true Sample.afterInit []).1.1
      ∈ difficultyOrder.
Proof.
  assert (Hk : toPropertyKey (JsString "expert") ∉ objectPrototypeKeys)
    by by_evaluation.
  assert (Hd : difficulty Sample.afterInit ∈ difficultyOrder) by by_evaluation.
  split; [exact Hk|]. split; [exact Hd|].
  exact (setDifficulty_keeps_level (JsString "expert") true Sample.afterInit
           [] Hk Hd).
Defined.

Lemma upgraded_difficulty e g :
  difficulty (upgradeDifficulty e g).1.1
    = if bool_decide (difficulty e = "easy") then "medium"
      else if bool_decide (difficulty e = "medium") then "hard"
      else difficulty e.
Proof. rewrite upgradeDifficulty_cases. by repeat case_bool_decide. Qed.

Lemma downgraded_difficulty e g :
  difficulty (downgradeDifficulty e g).1.1
    = if bool_decide (difficulty e = "hard") then "medium"
      else if bool_decide (difficulty e = "medium") then "easy"
      else difficulty e.
Proof. rewrite downgradeDifficulty_cases. by repeat case_bool_decide. Qed.

(** X11: on the three levels the two helpers of the controller undo each
    other except at the ends of the scale: lowering after raising gives the
    level back unless it was 'hard', raising after lowering gives it back
    unless it was 'easy'; in both exceptions the result is 'medium'. *)
Theorem upgrade_and_downgrade_undo_each_other e g g' :
  difficulty e ∈ difficultyOrder →
  difficulty (downgradeDifficulty (upgradeDifficulty e g).1.1 g').1.1
    = (if bool_decide (difficulty e = "hard") then "medium" else difficulty e)
  ∧ difficulty (upgradeDifficulty (downgradeDifficulty e g).1.1 g').1.1
      = (if bool_decide (difficulty e = "easy") then "medium"
         else difficulty e).
Proof.
  unfold difficultyOrder. rewrite !elem_of_cons, elem_of_nil.
  repeat (rewrite downgraded_difficulty || rewrite upgraded_difficulty).
  intros [Hd | [Hd | [Hd | []]]]; rewrite !Hd; split; reflexivity.
Qed.

Lemma upgrade_and_downgrade_undo_each_other_witness :
  difficulty Sample.afterInit ∈ difficultyOrder
  ∧ difficulty (downgradeDifficulty
                  (upgradeDifficulty Sample.afterInit []).1.1 []).1.1
      = "easy".
Proof.
  assert (Hd : difficulty Sample.afterInit ∈ difficultyOrder) by by_evaluation.
  split; [exact Hd|].
  exact (proj1 (upgrade_and_downgrade_undo_each_other Sample.afterInit [] []
                  Hd)).
Defined.

(** ** Question sets: instances and edge cases *)

Lemma generateQuestionSet_distinct_witness :
  NoDup (name <$> countries Demo.tenCountries)
  ∧ ∃ qs g',
      generateQuestionSet Sample.anyLocale 8 Demo.tenCountries "languages" 10
        [3; 1; 4; 1; 5] = Some (qs, g')
      ∧ length qs ≤ 10
      ∧ NoDup (country <$> qs).
Proof.
  assert (Hnd : NoDup (name <$> countries Demo.tenCountries)) by by_evaluation.
  split; [exact Hnd|].
  destruct (generateQuestionSet Sample.anyLocale 8 Demo.tenCountries
              "languages" 10 [3; 1; 4; 1; 5]) as [[qs g']|] eqn:Hgen.
  - exists qs, g'. split; [reflexivity|].
    exact (generateQuestionSet_distinct _ _ _ _ _ _ _ _ Hnd Hgen).
  - vm_compute in Hgen. discriminate.
Defined.

Lemma generateQuestionSet_returns_witness :
  "currency" ≠ "population"
  ∧ is_Some (generateQuestionSet Sample.anyLocale 0 Sample.afterInit
               "currency" 10 [2; 7; 1]).
Proof.
  assert (Hne : "currency" ≠ "population") by discriminate.
  split; [exact Hne|].
  exact (generateQuestionSet_returns Sample.anyLocale 0 Sample.afterInit
           "currency" 10 [2; 7; 1] Hne).
Defined.

Lemma generatePopulationOptions_returns_witness :
  (71429 ≤ 125836021)%Z ∧ 15 ≤ 15
  ∧ ∃ distractors g',
      generatePopulationOptions 15 125836021 Sample.loaded "Japan" [5; 0; 2]
        = Some (125836021%Z :: distractors, g')
      ∧ length distractors = 3
      ∧ NoDup (125836021%Z :: distractors).
Proof.
  assert (Hcv : (71429 ≤ 125836021)%Z) by lia.
  assert (Hfuel : 15 ≤ 15) by lia.
  split; [exact Hcv|]. split; [exact Hfuel|].
  exact (generatePopulationOptions_returns 125836021 Sample.loaded "Japan" 15
           [5; 0; 2] Hcv Hfuel).
Defined.

(** X15: with no other country in the pool, whether
    [generatePopulationOptions] returns depends on the correct value alone:
    it returns, given enough turns, exactly when the value is at least
    71429.  Below that the five multipliers yield at most two different
    clamped values and the loop that wants three distractors cannot end. *)
Theorem generatePopulationOptions_threshold cv countryName g :
  (0 < cv)%Z →
  (∃ fuel, is_Some (generatePopulationOptions fuel cv [] countryName g))
  ↔ (71429 ≤ cv)%Z.
Proof.
  intros Hpos. split.
  - intros [fuel Hsome]. destruct (decide (71429 ≤ cv)%Z) as [|Hsmall]; [done|].
    rewrite generatePopulationOptions_never_returns in Hsome.
    + by destruct Hsome.
    + lia.
    + by intros item ?%elem_of_nil.
  - intros Hcv. exists 15.
    destruct (generatePopulationOptions_enough_fuel cv [] countryName 15 g)
      as (ds & g' & -> & _); [done | lia | done].
Qed.

Lemma generatePopulationOptions_threshold_witness :
  (0 < 71429)%Z
  ∧ ((∃ fuel, is_Some (generatePopulationOptions fuel 71429 [] "Palau" []))
     ↔ (71429 ≤ 71429)%Z).
Proof.
  assert (Hpos : (0 < 71429)%Z) by lia.
  split; [exact Hpos|].
  exact (generatePopulationOptions_threshold 71429 "Palau" [] Hpos).
Defined.

Lemma availableLoop_no_room toLocaleString fuel type optionPool rest
    questions tried g :
  availableLoop toLocaleString fuel type optionPool 0 rest questions tried g
    = Some ((questions, tried), g).
Proof.
  destruct rest; [done|]. cbn [availableLoop].
  by rewrite bool_decide_false by lia.
Qed.

(** X16: [generateQuestionSet] returns the empty list, whatever the type
    and the fuel, when no question is wanted ([desiredCount] is 0) and when
    neither the pool nor the loaded list has a country with data for the
    type, which includes the engine that has not loaded anything yet. *)
Theorem generateQuestionSet_empty_cases toLocaleString fuel e type g :
  (∃ g', generateQuestionSet toLocaleString fuel e type 0 g = Some ([], g'))
  ∧ ∀ desiredCount,
      Forall (λ c, hasDataForType c type = false)
             (countryPool e ++ countries e) →
      ∃ g', generateQuestionSet toLocaleString fuel e type desiredCount g
            = Some ([], g').
Proof.
  split.
  - unfold generateQuestionSet. rewrite M_bind_unfold. unfold liftR at 1.
    destruct (getCountriesForType e type 0 g) as [available g1].
    case_bool_decide; [by eexists|].
    rewrite M_bind_unfold. unfold liftR at 1.
    destruct (shuffleArray available g1) as [shuffled g2].
    rewrite M_bind_unfold, availableLoop_no_room.
    rewrite bool_decide_false by lia. by eexists.
  - intros desiredCount Hnone.
    assert (Hav : (getCountriesForType e type desiredCount g).1 = []).
    { destruct (getCountriesForType e type desiredCount g).1 as [|c cs] eqn:Hcs;
        [done|]. exfalso.
      destruct (getCountriesForType_elem_of e type desiredCount g c)
        as [Hfrom Hdata]; [rewrite Hcs; by left|].
      rewrite Forall_forall in Hnone.
      rewrite (Hnone c) in Hdata; [done|].
      rewrite elem_of_app. tauto. }
    unfold generateQuestionSet. rewrite M_bind_unfold. unfold liftR at 1.
    destruct (getCountriesForType e type desiredCount g) as [available g1].
    cbn [fst] in Hav. subst available.
    rewrite bool_decide_true by done. by eexists.
Qed.

(** ** Real distractors come first *)





(** * The score spans *)

Lemma digitValue_char d :
  (d < 10)%N →
  digitValue (pretty_N_char d) = Some (Z.of_N d)
  ∧ isWhiteSpace (pretty_N_char d) = false
  ∧ pretty_N_char d ≠ "-"%char ∧ pretty_N_char d ≠ "+"%char.
Proof.
  intros Hd.
  assert (d = 0 ∨ d = 1 ∨ d = 2 ∨ d = 3 ∨ d = 4 ∨ d = 5 ∨ d = 6 ∨ d = 7
          ∨ d = 8 ∨ d = 9)%N as Hcases by lia.
  repeat (destruct Hcases as [-> | Hcases]); try subst d;
    (split_and!; [reflexivity | reflexivity | discriminate | discriminate]).
Qed.

(** Reading the digits that [pretty] wrote gives the number back, after
    whatever was read before. *)
Lemma digitsValue_pretty_N_go x :
  ∀ s a, ∃ k : nat,
    digitsValue a (pretty_N_go x s)
      = digitsValue (a * 10 ^ Z.of_nat k + Z.of_N x)%Z s.
Proof.
  induction (N.lt_wf_0 x) as [x _ IH]; intros s a.
  destruct (decide (x = 0)%N) as [-> | Hpos].
  - exists 0. rewrite pretty_N_go_0. f_equal. lia.
  - rewrite pretty_N_go_step by lia.
    destruct (IH (x `div` 10)%N ltac:(apply N.div_lt; lia)
                (String (pretty_N_char (x `mod` 10)) s) a) as [k Hk].
    exists (S k). rewrite Hk. cbn [digitsValue].
    destruct (digitValue_char (x `mod` 10)%N) as (-> & _);
      [apply N.mod_lt; lia|].
    f_equal. rewrite Nat2Z.inj_succ, Z.pow_succ_r by lia.
    pose proof (N.div_mod x 10 ltac:(lia)) as Hdm. lia.
Qed.

Lemma pretty_N_go_head x s :
  (0 < x)%N →
  ∃ c rest, pretty_N_go x s = String c rest
    ∧ is_Some (digitValue c) ∧ isWhiteSpace c = false
    ∧ c ≠ "-"%char ∧ c ≠ "+"%char.
Proof.
  revert s. induction (N.lt_wf_0 x) as [x _ IH]; intros s Hpos.
  rewrite pretty_N_go_step by done.
  destruct (decide (x `div` 10 = 0)%N) as [Hz | Hnz].
  - rewrite Hz, pretty_N_go_0.
    destruct (digitValue_char (x `mod` 10)%N) as (Hd & Hw & Hm & Hp);
      [apply N.mod_lt; lia|].
    eexists _, _. split; [reflexivity|]. rewrite Hd. eauto.
  - apply IH; [apply N.div_lt; lia | by apply N.neq_0_lt_0].
Qed.

Lemma parseInt_positive x :
  (0 < x)%N → parseInt (pretty_N_go x "") = Some (Z.of_N x)
              ∧ parseDigits (pretty_N_go x "") = Some (Z.of_N x).
Proof.
  intros Hpos.
  destruct (pretty_N_go_head x "" Hpos) as (c & rest & Heq & [d Hd] & Hw & Hm & Hp).
  destruct (digitsValue_pretty_N_go x "" 0) as [k Hk].
  assert (Hdigits : parseDigits (pretty_N_go x "") = Some (Z.of_N x)).
  { unfold parseDigits. rewrite Heq, Hd, <-Heq, Hk. cbn [digitsValue].
    f_equal; lia. }
  split; [|done].
  unfold parseInt. rewrite Heq in Hdigits |- *. cbn [trimStart]. rewrite Hw.
  destruct c as [[] [] [] [] [] [] [] []]; done.
Qed.

Lemma parseInt_numberToString value :
  parseInt (numberToString value) = Some value.
Proof.
  unfold numberToString, pretty, pretty_Z.
  destruct value as [|p|p]; [reflexivity | |].
  - unfold pretty, pretty_positive, pretty, pretty_N.
    rewrite decide_False by done.
    by destruct (parseInt_positive (Npos p)) as [-> _].
  - unfold pretty, pretty_positive, pretty, pretty_N.
    rewrite decide_False by done.
    change ("-" +:+ ?s) with (String "-"%char s).
    unfold parseInt. cbn [trimStart].
    change (isWhiteSpace "-") with false. cbn iota.
    by destruct (parseInt_positive (Npos p)) as [_ ->].
Qed.

Lemma getScoreValue_set_same elementId value dom :
  is_Some (dom !! elementId) →
  getScoreValue elementId (setScoreValue elementId value dom) = value.
Proof.
  intros [text Hel]. unfold getScoreValue, setScoreValue. rewrite Hel.
  by rewrite lookup_insert_eq, parseInt_numberToString.
Qed.

Lemma getScoreValue_set_other elementId other value dom :
  other ≠ elementId →
  getScoreValue other (setScoreValue elementId value dom)
    = getScoreValue other dom.
Proof.
  intros Hne. unfold getScoreValue, setScoreValue.
  destruct (dom !! elementId); [|done]. by rewrite lookup_insert_ne.
Qed.

Lemma setScoreValue_dom elementId value dom other :
  is_Some (setScoreValue elementId value dom !! other)
  ↔ is_Some (dom !! other).
Proof.
  unfold setScoreValue. destruct (dom !! elementId) eqn:Hel; [|done].
  destruct (decide (elementId = other)) as [<- | Hne].
  - rewrite lookup_insert_eq, Hel. split; eauto.
  - by rewrite lookup_insert_ne.
Qed.


Lemma incrementScore_shown dom :
  Controller.hasSpans dom →
  getScoreValue "score" (incrementScore dom)
    = (getScoreValue "score" dom + 1)%Z
  ∧ getScoreValue "incorrect" (incrementScore dom)
      = getScoreValue "incorrect" dom
  ∧ Controller.hasSpans (incrementScore dom).
Proof.
  intros [Hs Hw]. unfold incrementScore. split_and!.
  - by apply getScoreValue_set_same.
  - by apply getScoreValue_set_other.
  - split; by apply setScoreValue_dom.
Qed.

Lemma incrementWrongAnswer_shown dom :
  Controller.hasSpans dom →
  getScoreValue "incorrect" (incrementWrongAnswer dom)
    = (getScoreValue "incorrect" dom + 1)%Z
  ∧ getScoreValue "score" (incrementWrongAnswer dom)
      = getScoreValue "score" dom
  ∧ Controller.hasSpans (incrementWrongAnswer dom).
Proof.
  intros [Hs Hw]. unfold incrementWrongAnswer. split_and!.
  - by apply getScoreValue_set_same.
  - by apply getScoreValue_set_other.
  - split; by apply setScoreValue_dom.
Qed.

Lemma reset_shown dom :
  Controller.hasSpans dom →
  let dom' := setScoreValue "incorrect" 0 (setScoreValue "score" 0 dom) in
  getScoreValue "score" dom' = 0%Z ∧ getScoreValue "incorrect" dom' = 0%Z
  ∧ Controller.hasSpans dom'.
Proof.
  intros [Hs Hw] dom'. subst dom'. split_and!.
  - rewrite getScoreValue_set_other by done. by apply getScoreValue_set_same.
  - apply getScoreValue_set_same. by apply setScoreValue_dom.
  - split; by do 2 apply setScoreValue_dom.
Qed.


(** * The controller *)

(** Every question of a set was built for a country that has data for
    the type. *)
Lemma generateQuestionSet_Forall (P : Question → Prop) toLocaleString fuel e
    type desiredCount g qs g' :
  (∀ c q, wellFormedQuestion type c q → P q) →
  generateQuestionSet toLocaleString fuel e type desiredCount g
    = Some (qs, g') →
  Forall P qs.
Proof.
  intros HP. unfold generateQuestionSet.
  intros (available & g1 & _ & Hrest)%M_bind_Some. revert Hrest.
  case_bool_decide as Hempty; [by intros [<- _]%M_ret_Some|].
  intros (shuffled & g2 & _ & Hrest)%M_bind_Some.
  apply M_bind_Some in Hrest as ([questions tried] & g3 & Hloop & Hrest).
  apply M_bind_Some in Hrest as (questions' & g4 & Hsecond & Hret).
  apply M_ret_Some in Hret as [<- _].
  apply Forall_take.
  assert (Hfirst : Forall P questions).
  { eapply availableLoop_questions; [| |exact Hloop]; [eauto|constructor]. }
  revert Hsecond. case_bool_decide; [|by intros [<- _]%M_ret_Some].
  intros (reshuffled & g5 & _ & Hrest)%M_bind_Some.
  apply M_bind_Some in Hrest as ([questions2 tried2] & g6 & Hloop2 & Hret).
  apply M_ret_Some in Hret as [<- _].
  eapply fallbackPoolLoop_questions; [|exact Hfirst|exact Hloop2]. eauto.
Qed.

Section controller.
Import Controller.
Variable toLocaleString : Z → string.
Variable fuel : nat.

Lemma run_invariant (I : State → Prop) :
  (∀ s input g s' g',
     I s → handle toLocaleString fuel s input g = Some (s', g') → I s') →
  ∀ inputs s g s' g',
    I s → run toLocaleString fuel s inputs g = Some (s', g') → I s'.
Proof.
  intros Hstep inputs.
  induction inputs as [|input inputs IH]; intros s g s' g' HI.
  - by intros [<- _]%M_ret_Some.
  - cbn [run]. intros (s1 & g1 & Hh & Hr)%M_bind_Some. eauto.
Qed.

Lemma modeSelected_cases type s :
  modeSelected type s = s
  ∨ ∃ t, t ∈ ["population"; "currency"; "languages"]
      ∧ modeSelected type s = setGameState s {|
          currentGameType := Some t;
          selectedCountryName := None;
          questions := [];
          currentQuestionIndex := 0;
          hasAnswered := false;
          totalQuestions := 0;
          isComplete := false
        |}.
Proof.
  unfold modeSelected. destruct type as [| |t]; [by left..|].
  destruct (Boolean t); cbn [negb orb]; [|by left].
  case_bool_decide; cbn [negb]; [|by left]. right. by exists t.
Qed.

Lemma countrySelected_cases name s :
  countrySelected name s = s
  ∨ ∃ n, truthy (currentGameType (gameState s)) = true
      ∧ countrySelected name s = setGameState s {|
          currentGameType := currentGameType (gameState s);
          selectedCountryName := Some n;
          questions := [];
          currentQuestionIndex := 0;
          hasAnswered := false;
          totalQuestions := 0;
          isComplete := false
        |}.
Proof.
  unfold countrySelected.
  destruct (truthy (currentGameType (gameState s))); cbn [negb]; [|by left].
  destruct name as [| |n]; [by left..|].
  destruct (negb (Boolean n) || includes "waiting" (toLowerCase n));
    [by left|]. right. by exists n.
Qed.

Lemma beginQuiz_cases s :
  beginQuiz s = s
  ∨ truthy (currentGameType (gameState s)) = true
    ∧ beginQuiz s = {|
        gameState := gameState s;
        correctStreak := correctStreak s;
        wrongStreak := wrongStreak s;
        quizEngine := quizEngine s;
        document := document s;
        timeouts := timeouts s + 1
      |}.
Proof.
  unfold beginQuiz.
  destruct (truthy (currentGameType (gameState s))); cbn [negb]; [|by left].
  destruct (truthy (selectedCountryName (gameState s))); cbn [negb];
    [|by left].
  case_bool_decide; [by left|by right].
Qed.

Lemma handlePlayAgain_result s g :
  ∃ e, (handlePlayAgain s g).1 = setQuizEngine (setGameState s {|
      currentGameType := currentGameType (gameState s);
      selectedCountryName := None;
      questions := [];
      currentQuestionIndex := 0;
      hasAnswered := false;
      totalQuestions := totalQuestions (gameState s);
      isComplete := false
    |}) e.
Proof.
  unfold handlePlayAgain. rewrite Rand_bind_unfold.
  destruct (populateCountryPool (quizEngine s) g) as [[e evs] g1]. by exists e.
Qed.

Lemma difficultyChanged_result level s g :
  ∃ e, (difficultyChanged level s g).1 = setQuizEngine s e.
Proof.
  unfold difficultyChanged. destruct (falsy level).
  - exists (quizEngine s). by destruct s.
  - rewrite Rand_bind_unfold.
    destruct (setDifficulty level false (quizEngine s) g) as [[e evs] g1].
    by exists e.
Qed.

Lemma countriesLoaded_result fetched s g :
  ∃ e, (countriesLoaded fetched s g).1 = setQuizEngine s e.
Proof.
  unfold countriesLoaded. rewrite Rand_bind_unfold.
  destruct (populateCountryPool _ g) as [[e evs] g1]. by exists e.
Qed.

Lemma answerSelected_cases selectedIndex s g :
  (answerSelected selectedIndex s g).1 = s
  ∨ ∃ q e,
      isComplete (gameState s) = false
      ∧ hasAnswered (gameState s) = false
      ∧ questions (gameState s) !! currentQuestionIndex (gameState s) = Some q
      ∧ isNaN selectedIndex = false
      ∧ (answerSelected selectedIndex s g).1 = {|
          gameState := {|
            currentGameType := currentGameType (gameState s);
            selectedCountryName := selectedCountryName (gameState s);
            questions := questions (gameState s);
            currentQuestionIndex := currentQuestionIndex (gameState s);
            hasAnswered := true;
            totalQuestions := totalQuestions (gameState s);
            isComplete := false
          |};
          correctStreak :=
            if differs selectedIndex (correctIndex q) then 0
            else if bool_decide (3 ≤ correctStreak s + 1) then 0
            else correctStreak s + 1;
          wrongStreak :=
            if differs selectedIndex (correctIndex q) then
              if bool_decide (2 ≤ wrongStreak s + 1) then 0
              else wrongStreak s + 1
            else 0;
          quizEngine := e;
          document :=
            if differs selectedIndex (correctIndex q)
            then incrementWrongAnswer (document s)
            else incrementScore (document s);
          timeouts := timeouts s
        |}.
Proof.
  unfold answerSelected.
  destruct (isComplete (gameState s)) eqn:Hc; [by left|].
  destruct (questions (gameState s) !! currentQuestionIndex (gameState s))
    as [q|] eqn:Hq; [|by left].
  destruct (isNaN selectedIndex) eqn:Hn; [by left|].
  destruct (hasAnswered (gameState s)) eqn:Ha; [by left|]. cbn [orb].
  right. exists q.
  destruct (differs selectedIndex (correctIndex q)); case_bool_decide;
    try rewrite Rand_bind_unfold.
  - destruct (downgradeDifficulty (quizEngine s) g) as [[e evs] g1].
    by exists e.
  - by exists (quizEngine s).
  - destruct (upgradeDifficulty (quizEngine s) g) as [[e evs] g1].
    by exists e.
  - by exists (quizEngine s).
Qed.

Lemma nextQuestion_cases s :
  let gs := gameState s in
  nextQuestion s = s
  ∨ (isComplete gs = true ∧ nextQuestion s = beginQuiz s)
  ∨ (isComplete gs = false ∧ hasAnswered gs = true
     ∧ nextQuestion s = setGameState s {|
         currentGameType := currentGameType gs;
         selectedCountryName := selectedCountryName gs;
         questions := questions gs;
         currentQuestionIndex := currentQuestionIndex gs + 1;
         hasAnswered :=
           bool_decide (totalQuestions gs ≤ currentQuestionIndex gs + 1);
         totalQuestions := totalQuestions gs;
         isComplete :=
           bool_decide (totalQuestions gs ≤ currentQuestionIndex gs + 1)
       |}).
Proof.
  intros gs. unfold nextQuestion. fold gs.
  destruct (isComplete gs) eqn:Hc; [by right; left|].
  destruct (hasAnswered gs) eqn:Ha; cbn [negb]; [|by left].
  right; right. split_and!; [done..|].
  case_bool_decide; by rewrite ?Hc, ?Ha.
Qed.

Lemma timedOut_cases s g s' g' :
  timedOut toLocaleString fuel s g = Some (s', g') →
  s' = s
  ∨ ∃ pending, timeouts s = S pending
    ∧ (s' = {|
         gameState := gameState s;
         correctStreak := correctStreak s;
         wrongStreak := wrongStreak s;
         quizEngine := quizEngine s;
         document := document s;
         timeouts := pending
       |}
       ∨ ∃ qs,
           generateQuestionSet toLocaleString fuel (quizEngine s)
             (typeArgument (currentGameType (gameState s))) 10 g
             = Some (qs, g')
           ∧ qs ≠ []
           ∧ s' = {|
               gameState := {|
                 currentGameType := currentGameType (gameState s);
                 selectedCountryName := selectedCountryName (gameState s);
                 questions := qs;
                 currentQuestionIndex := 0;
                 hasAnswered := false;
                 totalQuestions := length qs;
                 isComplete := false
               |};
               correctStreak := correctStreak s;
               wrongStreak := wrongStreak s;
               quizEngine := quizEngine s;
               document :=
                 setScoreValue "incorrect" 0
                   (setScoreValue "score" 0 (document s));
               timeouts := pending
             |}).
Proof.
  unfold timedOut. destruct (timeouts s) as [|pending] eqn:Ht.
  - intros [<- _]%M_ret_Some. by left.
  - unfold prepared. cbn [gameState quizEngine correctStreak wrongStreak
      document timeouts].
    intros (qs & g1 & Hgen & Hret)%M_bind_Some. right. exists pending.
    split; [done|]. revert Hret. case_bool_decide as Hlen.
    + intros [<- _]%M_ret_Some. by left.
    + intros [<- <-]%M_ret_Some. right. exists qs. split_and!; [done| |done].
      by intros ->.
Qed.


(** The result of a handler that runs in [Rand]. *)
Ltac rand_result H :=
  apply liftR_Some in H;
  match type of H with
  | ?m ?g = (?s', _) =>
      assert ((m g).1 = s') by (by rewrite H); clear H
  end.

Lemma startQuiz_cases s g :
  (∃ e, (startQuiz s g).1 = setQuizEngine (setGameState s {|
      currentGameType := currentGameType (gameState s);
      selectedCountryName := None;
      questions := [];
      currentQuestionIndex := 0;
      hasAnswered := false;
      totalQuestions := totalQuestions (gameState s);
      isComplete := false
    |}) e)
  ∨ (startQuiz s g).1 = beginQuiz s.
Proof.
  unfold startQuiz. destruct (isComplete (gameState s)); [left|by right].
  apply handlePlayAgain_result.
Qed.

Lemma handle_streaksBounded s input g s' g' :
  streaksBounded s →
  handle toLocaleString fuel s input g = Some (s', g') →
  streaksBounded s'.
Proof.
  intros HI. destruct input
    as [type | level | countryName | | selectedIndex | | | fetched];
    cbn [handle]; intros H.
  - apply M_ret_Some in H as [<- _].
    by destruct (modeSelected_cases type s) as [-> | (t & _ & ->)].
  - rand_result H. subst s'.
    by destruct (difficultyChanged_result level s g) as [e ->].
  - apply M_ret_Some in H as [<- _].
    by destruct (countrySelected_cases countryName s) as [-> | (n & _ & ->)].
  - rand_result H. subst s'.
    destruct (startQuiz_cases s g) as [[e ->] | ->]; [done|].
    by destruct (beginQuiz_cases s) as [-> | [_ ->]].
  - rand_result H. subst s'.
    destruct (answerSelected_cases selectedIndex s g)
      as [-> | (q & e & _ & _ & _ & _ & ->)]; [done|].
    destruct HI as (Hc & Hw & Hz). unfold streaksBounded. cbn.
    destruct (differs _ _); repeat case_bool_decide; lia.
  - apply M_ret_Some in H as [<- _].
    destruct (nextQuestion_cases s) as [-> | [[_ ->] | (_ & _ & ->)]];
      [done | | done].
    by destruct (beginQuiz_cases s) as [-> | [_ ->]].
  - apply timedOut_cases in H
      as [-> | (pending & _ & [-> | (qs & _ & _ & ->)])]; done.
  - rand_result H. subst s'.
    by destruct (countriesLoaded_result fetched s g) as [e ->].
Qed.

Lemma handle_onAQuestion s input g s' g' :
  onAQuestion s →
  handle toLocaleString fuel s input g = Some (s', g') →
  onAQuestion s'.
Proof.
  intros HI.
  assert (Hbegin : onAQuestion (beginQuiz s)).
  { destruct (beginQuiz_cases s) as [-> | [Ht ->]]; [done|].
    destruct HI as [_ HI]. by split. }
  destruct input
    as [type | level | countryName | | selectedIndex | | | fetched];
    cbn [handle]; intros H.
  - apply M_ret_Some in H as [<- _].
    destruct (modeSelected_cases type s) as [-> | (t & Ht & ->)]; [done|].
    split; [|done]. intros _. cbn.
    rewrite !elem_of_cons, elem_of_nil in Ht.
    by destruct Ht as [-> | [-> | [-> | []]]].
  - rand_result H. subst s'.
    by destruct (difficultyChanged_result level s g) as [e ->].
  - apply M_ret_Some in H as [<- _].
    destruct (countrySelected_cases countryName s) as [-> | (n & Ht & ->)]; [done|].
    by split.
  - rand_result H. subst s'.
    destruct (startQuiz_cases s g) as [[e ->] | ->]; [|done].
    destruct HI as [Ht _]. by split.
  - rand_result H. subst s'.
    destruct (answerSelected_cases selectedIndex s g)
      as [-> | (q & e & Hc & Ha & Hq & _ & ->)]; [done|].
    destruct HI as [Ht HI]. split; [done|]. cbn.
    destruct (questions (gameState s)) as [|q0 qs] eqn:Hqs; [done|].
    rewrite Hc in HI. destruct HI as (Htot & Hten & Hcur).
    by split_and!.
  - apply M_ret_Some in H as [<- _].
    destruct (nextQuestion_cases s) as [-> | [[_ ->] | (Hc & Ha & ->)]];
      [done..|].
    destruct HI as [Ht HI]. split; [done|]. cbn.
    destruct (questions (gameState s)) as [|q0 qs] eqn:Hqs.
    { destruct HI as (_ & Hno & _). congruence. }
    rewrite Hc in HI. destruct HI as (Htot & Hten & Hcur).
    apply lookup_lt_is_Some in Hcur. rewrite <-Htot in Hcur.
    split_and!; [done..|].
    case_bool_decide; [split; [lia|done]|].
    apply lookup_lt_is_Some. rewrite <-Htot. lia.
  - apply timedOut_cases in H
      as [-> | (pending & Hp & [-> | (qs & Hgen & Hne & ->)])]; [done| |].
    + destruct HI as [Ht HI]. split; [|done]. intros _. apply Ht. lia.
    + destruct HI as [Ht HI]. split; [intros _; apply Ht; lia|]. cbn.
      destruct qs as [|q0 qs]; [done|].
      split_and!; [done| |by eexists].
      by apply generateQuestionSet_length in Hgen.
  - rand_result H. subst s'.
    by destruct (countriesLoaded_result fetched s g) as [e ->].
Qed.


Lemma handle_accounted s input g s' g' :
  hasSpans (document s) ∧ accounted s →
  handle toLocaleString fuel s input g = Some (s', g') →
  hasSpans (document s') ∧ accounted s'.
Proof.
  intros [Hspans HI].
  assert (Hbegin : hasSpans (document (beginQuiz s))
                   ∧ accounted (beginQuiz s)).
  { by destruct (beginQuiz_cases s) as [-> | [_ ->]]. }
  destruct input
    as [type | level | countryName | | selectedIndex | | | fetched];
    cbn [handle]; intros H.
  - apply M_ret_Some in H as [<- _].
    by destruct (modeSelected_cases type s) as [-> | (t & _ & ->)].
  - rand_result H. subst s'.
    by destruct (difficultyChanged_result level s g) as [e ->].
  - apply M_ret_Some in H as [<- _].
    by destruct (countrySelected_cases countryName s) as [-> | (n & _ & ->)].
  - rand_result H. subst s'.
    by destruct (startQuiz_cases s g) as [[e ->] | ->].
  - rand_result H. subst s'.
    destruct (answerSelected_cases selectedIndex s g)
      as [-> | (q & e & Hc & Ha & Hq & _ & ->)]; [done|].
    unfold accounted, shown, answers in HI |- *. cbn.
    rewrite Hc, Ha in HI. cbn in HI.
    destruct (differs selectedIndex (correctIndex q)).
    + destruct (incrementWrongAnswer_shown _ Hspans) as (-> & -> & ?).
      split; [done|]. intros Hne. specialize (HI Hne). lia.
    + destruct (incrementScore_shown _ Hspans) as (-> & -> & ?).
      split; [done|]. intros Hne. specialize (HI Hne). lia.
  - apply M_ret_Some in H as [<- _].
    destruct (nextQuestion_cases s) as [-> | [[_ ->] | (Hc & Ha & ->)]];
      [done..|].
    split; [done|].
    unfold accounted, shown, answers in HI |- *. cbn.
    rewrite Hc, Ha in HI. cbn in HI.
    intros Hne. specialize (HI Hne).
    destruct (bool_decide _); cbn; lia.
  - apply timedOut_cases in H
      as [-> | (pending & Hp & [-> | (qs & Hgen & Hne & ->)])]; [done..|].
    destruct (reset_shown _ Hspans) as (Hs & Hw & ?).
    split; [done|]. unfold accounted, shown, answers. cbn.
    rewrite Hs, Hw. done.
  - rand_result H. subst s'.
    by destruct (countriesLoaded_result fetched s g) as [e ->].
Qed.

Lemma handle_heldQuestions s input g s' g' :
  heldQuestions s →
  handle toLocaleString fuel s input g = Some (s', g') →
  heldQuestions s'.
Proof.
  intros HI.
  assert (Hbegin : heldQuestions (beginQuiz s)).
  { by destruct (beginQuiz_cases s) as [-> | [_ ->]]. }
  destruct input
    as [type | level | countryName | | selectedIndex | | | fetched];
    cbn [handle]; intros H.
  - apply M_ret_Some in H as [<- _].
    destruct (modeSelected_cases type s) as [-> | (t & _ & ->)]; [done|].
    constructor.
  - rand_result H. subst s'.
    by destruct (difficultyChanged_result level s g) as [e ->].
  - apply M_ret_Some in H as [<- _].
    destruct (countrySelected_cases countryName s) as [-> | (n & _ & ->)]; [done|].
    constructor.
  - rand_result H. subst s'.
    destruct (startQuiz_cases s g) as [[e ->] | ->]; [constructor|done].
  - rand_result H. subst s'.
    by destruct (answerSelected_cases selectedIndex s g)
      as [-> | (q & e & _ & _ & _ & _ & ->)].
  - apply M_ret_Some in H as [<- _].
    by destruct (nextQuestion_cases s) as [-> | [[_ ->] | (_ & _ & ->)]].
  - apply timedOut_cases in H
      as [-> | (pending & Hp & [-> | (qs & Hgen & Hne & ->)])]; [done..|].
    unfold heldQuestions. cbn.
    eapply generateQuestionSet_Forall; [|exact Hgen].
    intros c q Hq.
    destruct (currentGameType (gameState s)) as [t|]; [by exists t, c|].
    destruct Hq as (_ & _ & Hdata & _).
    rewrite hasDataForType_unsupported in Hdata; [done|].
    unfold supportedTypes, typeArgument. cbn.
    rewrite !not_elem_of_cons, elem_of_nil. by split_and!.
  - rand_result H. subst s'.
    by destruct (countriesLoaded_result fetched s g) as [e ->].
Qed.

Lemma answerSelected_answer selectedIndex s g q :
  isComplete (gameState s) = false →
  hasAnswered (gameState s) = false →
  questions (gameState s) !! currentQuestionIndex (gameState s) = Some q →
  isNaN selectedIndex = false →
  ∃ e, (answerSelected selectedIndex s g).1 = {|
      gameState := {|
        currentGameType := currentGameType (gameState s);
        selectedCountryName := selectedCountryName (gameState s);
        questions := questions (gameState s);
        currentQuestionIndex := currentQuestionIndex (gameState s);
        hasAnswered := true;
        totalQuestions := totalQuestions (gameState s);
        isComplete := false
      |};
      correctStreak :=
        if differs selectedIndex (correctIndex q) then 0
        else if bool_decide (3 ≤ correctStreak s + 1) then 0
        else correctStreak s + 1;
      wrongStreak :=
        if differs selectedIndex (correctIndex q) then
          if bool_decide (2 ≤ wrongStreak s + 1) then 0
          else wrongStreak s + 1
        else 0;
      quizEngine := e;
      document :=
        if differs selectedIndex (correctIndex q)
        then incrementWrongAnswer (document s)
        else incrementScore (document s);
      timeouts := timeouts s
    |}.
Proof.
  intros Hc Ha Hq Hn. unfold answerSelected. rewrite Hc, Hq, Hn, Ha.
  cbn [orb].
  destruct (differs selectedIndex (correctIndex q)); case_bool_decide;
    try rewrite Rand_bind_unfold.
  - destruct (downgradeDifficulty (quizEngine s) g) as [[e evs] g1].
    by exists e.
  - by exists (quizEngine s).
  - destruct (upgradeDifficulty (quizEngine s) g) as [[e evs] g1].
    by exists e.
  - by exists (quizEngine s).
Qed.

(** X24: a quiz is played through by answering each question and moving
    on.  From a state on an unanswered question, with as many selections
    as questions are left, none of them [NaN], the handlers return, the
    quiz ends complete with the same questions, the score has grown by the
    number of selections that name the correct index of their question, and
    the two spans together by the number of questions answered. *)
Theorem play_answers_every_question selected :
  ∀ s g,
    let gs := gameState s in
    isComplete gs = false →
    hasAnswered gs = false →
    selected ≠ [] →
    currentQuestionIndex gs + length selected = totalQuestions gs →
    totalQuestions gs = length (questions gs) →
    Forall (λ selectedIndex, isNaN selectedIndex = false) selected →
    hasSpans (document s) →
    ∃ s' g',
      run toLocaleString fuel s (play selected) g = Some (s', g')
      ∧ isComplete (gameState s') = true
      ∧ questions (gameState s') = questions gs
      ∧ shown "score" s'
        = (shown "score" s
           + Z.of_nat (length (rightAnswers
                (drop (currentQuestionIndex gs) (questions gs)) selected)))%Z
      ∧ (shown "score" s' + shown "incorrect" s'
         = shown "score" s + shown "incorrect" s
           + Z.of_nat (length selected))%Z.
Proof.
  induction selected as [|selectedIndex selected IH];
    intros s g gs Hc Ha Hsome Hidx Htot Hnan Hspans; [done|].
  apply Forall_cons in Hnan as [Hn Hnan]. cbn [length] in Hidx.
  destruct (lookup_lt_is_Some_2 (questions gs) (currentQuestionIndex gs))
    as [q Hq]; [lia|].
  destruct (answerSelected_answer selectedIndex s g q Hc Ha Hq Hn)
    as [e Hanswer].
  change (play (selectedIndex :: selected))
    with (view_answer_selected selectedIndex :: view_next_question
            :: play selected).
  cbn [run handle]. rewrite M_bind_unfold. unfold liftR at 1.
  destruct (answerSelected selectedIndex s g) as [s1 g1] eqn:Hs1.
  cbn [fst] in Hanswer. subst s1. rewrite M_bind_unfold.
  unfold mret at 1, M_ret at 1.
  remember {| gameState := _ |} as s1 eqn:Es1 in |- *.
  assert (Hnext : nextQuestion s1 = setGameState s1 {|
            currentGameType := currentGameType gs;
            selectedCountryName := selectedCountryName gs;
            questions := questions gs;
            currentQuestionIndex := currentQuestionIndex gs + 1;
            hasAnswered :=
              bool_decide (totalQuestions gs ≤ currentQuestionIndex gs + 1);
            totalQuestions := totalQuestions gs;
            isComplete :=
              bool_decide (totalQuestions gs ≤ currentQuestionIndex gs + 1)
          |}).
  { rewrite Es1. unfold nextQuestion, gs. cbn.
    by destruct (bool_decide (totalQuestions (gameState s) ≤ _)). }
  rewrite Hnext. clear Hnext.
  rewrite (drop_S _ q _ Hq). unfold rightAnswers. cbn [zip zip_with].
  rewrite filter_cons. cbn [fst snd].
  assert (Hshown : hasSpans (document s1)
            ∧ shown "score" s1
              = (shown "score" s
                 + if differs selectedIndex (correctIndex q) then 0 else 1)%Z
            ∧ (shown "score" s1 + shown "incorrect" s1
               = shown "score" s + shown "incorrect" s + 1)%Z).
  { rewrite Es1. unfold shown. cbn.
    destruct (differs selectedIndex (correctIndex q)).
    - destruct (incrementWrongAnswer_shown _ Hspans) as (-> & -> & ?).
      split_and!; [done|lia..].
    - destruct (incrementScore_shown _ Hspans) as (-> & -> & ?).
      split_and!; [done|lia..]. }
  destruct Hshown as (Hspans1 & Hscore1 & Hsum1).
  destruct selected as [|selectedIndex' selected]; cbn [length] in Hidx.
  - rewrite bool_decide_true by lia. cbn [play mbind]. eexists _, _.
    split; [reflexivity|]. unfold shown in *. cbn.
    split_and!; [done..| |lia].
    rewrite Hscore1, zip_with_nil_r, filter_nil.
    destruct (differs selectedIndex (correctIndex q));
      [rewrite decide_False by done | rewrite decide_True by done];
      cbn [length]; lia.
  - rewrite bool_decide_false by (cbn [length]; lia).
    match goal with
    | |- ∃ s' g', run _ _ ?s2 _ _ = _ ∧ _ =>
        edestruct (IH s2 g1)
          as (s' & g' & Hrun & Hc' & Hq' & Hs' & Hsum');
          [..|exists s', g'; split; [exact Hrun|]]
    end; cbn; try done.
    + cbn [length] in *. lia.
    + unfold shown in *. cbn in *. split_and!; [done..| |lia].
      rewrite Hs', Hscore1. rewrite Nat.add_1_r.
      destruct (differs selectedIndex (correctIndex q));
        [rewrite decide_False by done | rewrite decide_True by done];
        cbn [length]; lia.
Qed.


(** X20: between two handlers the streaks are bounded: [correctStreak] is
    at most 2 and [wrongStreak] at most 1, and one of them is 0, whatever
    the view sends and whenever the timers fire. *)
Theorem controller_streaks_stay_bounded e dom inputs g s g' :
  run toLocaleString fuel (loaded e dom) inputs g = Some (s, g') →
  streaksBounded s.
Proof.
  apply (run_invariant streaksBounded); [apply handle_streaksBounded|].
  unfold streaksBounded. cbn. lia.
Qed.

(** X21: the controller is always on a question that exists.  Either it
    holds no questions, and then nothing is answered or complete, or it
    holds [totalQuestions] questions, at least one and at most ten, and
    [questions[currentQuestionIndex]] is defined until the quiz is
    complete; then the index equals [totalQuestions].  A timer of
    [beginQuiz] is only pending when a quiz type is selected. *)
Theorem controller_is_on_a_question e dom inputs g s g' :
  run toLocaleString fuel (loaded e dom) inputs g = Some (s, g') →
  onAQuestion s.
Proof.
  apply (run_invariant onAQuestion); [apply handle_onAQuestion|].
  split; [cbn; lia|done].
Qed.

(** X22: the spans account for the answers.  When the document has the
    two score spans, then while the controller holds questions the scores
    shown are not negative and add up to the number of questions answered
    so far; when the quiz is complete they add up to [totalQuestions]. *)
Theorem controller_scores_add_up e dom inputs g s g' :
  hasSpans dom →
  run toLocaleString fuel (loaded e dom) inputs g = Some (s, g') →
  accounted s
  ∧ (isComplete (gameState s) = true →
     (shown "score" s + shown "incorrect" s
      = Z.of_nat (totalQuestions (gameState s)))%Z).
Proof.
  intros Hspans Hrun.
  assert (Hprogress : onAQuestion s).
  { revert Hrun. apply (run_invariant onAQuestion);
      [apply handle_onAQuestion|]. split; [cbn; lia|done]. }
  assert (Hacc : hasSpans (document s) ∧ accounted s).
  { revert Hrun.
    apply (run_invariant (λ s, hasSpans (document s) ∧ accounted s));
      [apply handle_accounted|]. split; [done|]. by intros []. }
  destruct Hacc as [_ Hacc]. split; [done|]. intros Hc.
  destruct Hprogress as [_ Hprogress]. unfold accounted, answers in Hacc.
  rewrite Hc in Hprogress, Hacc.
  destruct (questions (gameState s)) as [|q qs]; [by destruct Hprogress|].
  destruct Hprogress as (_ & _ & Hidx & Ha). rewrite Hidx, Ha in Hacc.
  destruct Hacc as (_ & _ & ->); [done|]. cbn. lia.
Qed.

(** X23: every question that the controller holds is a question of the
    selected type about some country: four options with different values,
    one of which is the true answer of that country, at [correctIndex]. *)
Theorem controller_holds_questions_of_the_type e dom inputs g s g' :
  run toLocaleString fuel (loaded e dom) inputs g = Some (s, g') →
  heldQuestions s.
Proof.
  apply (run_invariant heldQuestions); [apply handle_heldQuestions|].
  constructor.
Qed.

End controller.

(** ** Placeholders and the pool *)

Lemma prefix_append (part rest : string) :
  String.prefix part (part +:+ rest) = true.
Proof.
  induction part as [|c part IH]; [by destruct rest|].
  simpl. destruct (Ascii.ascii_dec c c); [exact IH|done].
Qed.

Lemma includes_unfold part s :
  Controller.includes part s
    = String.prefix part s
      || match s with
         | EmptyString => false
         | String _ s' => Controller.includes part s'
         end.
Proof. by destruct s. Qed.

Lemma includes_append part before after :
  Controller.includes part (before +:+ part +:+ after) = true.
Proof.
  induction before as [|c before IH].
  - change ("" +:+ part +:+ after) with (part +:+ after).
    rewrite includes_unfold. by rewrite prefix_append.
  - change (String c before +:+ part +:+ after)
      with (String c (before +:+ part +:+ after)).
    rewrite includes_unfold, IH. apply orb_true_r.
Qed.

Lemma toLowerCase_append a b :
  Controller.toLowerCase (a +:+ b)
    = Controller.toLowerCase a +:+ Controller.toLowerCase b.
Proof.
  induction a as [|c a IH]; [done|].
  change (String c a +:+ b) with (String c (a +:+ b)).
  cbn [Controller.toLowerCase]. by rewrite IH.
Qed.

(** X25: a list item that still shows the placeholder of the view cannot
    be selected.  Whatever stands before and after it, a name that
    contains 'waiting' in any mix of upper and lower case leaves the state
    as it is. *)
Theorem countrySelected_refuses_placeholders s before word after :
  Controller.toLowerCase word = "waiting" →
  Controller.countrySelected (JsString (before +:+ word +:+ after)) s = s.
Proof.
  intros Hword. unfold Controller.countrySelected.
  destruct (Controller.truthy _); cbn [negb]; [|done].
  rewrite !toLowerCase_append, Hword, includes_append.
  by rewrite orb_true_r.
Qed.

Lemma countrySelected_refuses_placeholders_witness :
  Controller.toLowerCase "Waiting" = "waiting"
  ∧ Controller.countrySelected (JsString "Waiting...") Play.started
    = Play.started.
Proof.
  split; [reflexivity|].
  exact (countrySelected_refuses_placeholders Play.started "" "Waiting" "..."
           eq_refl).
Defined.

Lemma setDifficulty_without_reload level e g :
  ∃ e' evs,
    setDifficulty level false e g = (e', evs, g)
    ∧ countryPool e' = countryPool e ∧ countries e' = countries e.
Proof.
  unfold setDifficulty.
  destruct (falsy level || propertyFalsy _); by eexists _, _.
Qed.

(** X26: a change of difficulty, by the selector or by a streak of
    answers, neither draws a new pool nor touches the loaded countries,
    and uses no random number: the pool shown stays the one of the old
    difficulty until [populateCountryPool] runs again. *)
Theorem adapting_the_difficulty_keeps_the_pool s g :
  (∀ level,
     let r := Controller.difficultyChanged level s g in
     r.2 = g
     ∧ countryPool (Controller.quizEngine r.1)
       = countryPool (Controller.quizEngine s)
     ∧ countries (Controller.quizEngine r.1)
       = countries (Controller.quizEngine s))
  ∧ (∀ selectedIndex,
       let r := Controller.answerSelected selectedIndex s g in
       r.2 = g
       ∧ countryPool (Controller.quizEngine r.1)
         = countryPool (Controller.quizEngine s)
       ∧ countries (Controller.quizEngine r.1)
         = countries (Controller.quizEngine s)).
Proof.
  split.
  - intros level r. subst r. unfold Controller.difficultyChanged.
    destruct (falsy level); [done|]. rewrite Rand_bind_unfold.
    destruct (setDifficulty_without_reload level (Controller.quizEngine s) g)
      as (e' & evs & -> & Hp & Hc). done.
  - intros selectedIndex r. subst r. unfold Controller.answerSelected.
    destruct (Controller.isComplete _); [done|].
    destruct (_ !! _) as [q|]; [|done].
    destruct (Controller.isNaN _ || _); [done|].
    destruct (Controller.differs _ _); case_bool_decide;
      rewrite ?Rand_bind_unfold, ?downgradeDifficulty_cases,
        ?upgradeDifficulty_cases;
      repeat case_bool_decide; done.
Qed.

(** ** A quiz played *)

Lemma controller_streaks_stay_bounded_witness :
  ∃ s g',
    Controller.run Sample.anyLocale 8
      (Controller.loaded Demo.tenCountries Play.spans) Play.inputs []
      = Some (s, g')
    ∧ Controller.streaksBounded s.
Proof.
  destruct (Controller.run Sample.anyLocale 8
              (Controller.loaded Demo.tenCountries Play.spans) Play.inputs [])
    as [[s g']|] eqn:Hrun.
  - exists s, g'. split; [reflexivity|].
    exact (controller_streaks_stay_bounded _ _ _ _ _ _ _ _ Hrun).
  - vm_compute in Hrun. discriminate.
Defined.

Lemma controller_is_on_a_question_witness :
  ∃ s g',
    Controller.run Sample.anyLocale 8
      (Controller.loaded Demo.tenCountries Play.spans) Play.opening []
      = Some (s, g')
    ∧ Controller.onAQuestion s.
Proof.
  destruct (Controller.run Sample.anyLocale 8
              (Controller.loaded Demo.tenCountries Play.spans) Play.opening [])
    as [[s g']|] eqn:Hrun.
  - exists s, g'. split; [reflexivity|].
    exact (controller_is_on_a_question _ _ _ _ _ _ _ _ Hrun).
  - vm_compute in Hrun. discriminate.
Defined.

Lemma controller_scores_add_up_witness :
  Controller.hasSpans Play.spans
  ∧ ∃ s g',
      Controller.run Sample.anyLocale 8
        (Controller.loaded Demo.tenCountries Play.spans) Play.inputs []
        = Some (s, g')
      ∧ Controller.isComplete (Controller.gameState s) = true
      ∧ (Controller.shown "score" s + Controller.shown "incorrect" s
         = Z.of_nat (Controller.totalQuestions (Controller.gameState s)))%Z.
Proof.
  assert (Hspans : Controller.hasSpans Play.spans)
    by (split; by_evaluation).
  split; [exact Hspans|].
  destruct (Controller.run Sample.anyLocale 8
              (Controller.loaded Demo.tenCountries Play.spans) Play.inputs [])
    as [[s g']|] eqn:Hrun.
  - exists s, g'. split; [reflexivity|].
    assert (Hc : Controller.isComplete (Controller.gameState s) = true).
    { vm_compute in Hrun. injection Hrun as <- <-. reflexivity. }
    split; [exact Hc|].
    exact (proj2 (controller_scores_add_up _ _ _ _ _ _ _ _ Hspans Hrun) Hc).
  - vm_compute in Hrun. discriminate.
Defined.

Lemma controller_holds_questions_of_the_type_witness :
  ∃ s g',
    Controller.run Sample.anyLocale 8
      (Controller.loaded Demo.tenCountries Play.spans) Play.opening []
      = Some (s, g')
    ∧ length (Controller.questions (Controller.gameState s)) = 8
    ∧ heldQuestions s.
Proof.
  destruct (Controller.run Sample.anyLocale 8
              (Controller.loaded Demo.tenCountries Play.spans) Play.opening [])
    as [[s g']|] eqn:Hrun.
  - exists s, g'. split; [reflexivity|].
    pose proof (controller_holds_questions_of_the_type
                  _ _ _ _ _ _ _ _ Hrun) as Hheld.
    split; [|exact Hheld].
    vm_compute in Hrun. injection Hrun as <- <-. reflexivity.
  - vm_compute in Hrun. discriminate.
Defined.

Lemma play_answers_every_question_witness :
  ∃ s' g',
    Controller.run Sample.anyLocale 8 Play.started
      (Controller.play Play.selected) [] = Some (s', g')
    ∧ Controller.isComplete (Controller.gameState s') = true
    ∧ Controller.shown "score" s' = 5%Z
    ∧ Controller.shown "incorrect" s' = 3%Z.
Proof.
  destruct (play_answers_every_question Sample.anyLocale 8 Play.selected
              Play.started [])
    as (s' & g' & Hrun & Hc & _ & Hscore & Hsum).
  - reflexivity.
  - reflexivity.
  - discriminate.
  - reflexivity.
  - reflexivity.
  - repeat constructor.
  - split; by_evaluation.
  - exists s', g'. split; [exact Hrun|]. split; [exact Hc|].
    assert (Hs : Controller.shown "score" s' = 5%Z)
      by (rewrite Hscore; reflexivity).
    split; [exact Hs|]. rewrite Hs in Hsum.
    assert (Hstart : (Controller.shown "score" Play.started
                      + Controller.shown "incorrect" Play.started
                      + Z.of_nat (length Play.selected) = 8)%Z)
      by reflexivity.
    rewrite Hstart in Hsum. lia.
Defined.
